(** * A shallow embedding of the first-order-logic parser of [parser.py]

    The development follows the Python module top to bottom: the AST
    classes with their [__repr__], the [ParseError] exception, and the
    class [FOLParser] with its tokenizer and its recursive-descent
    methods.

    Modelling choices.
    - A Python [str] is a [string]; a character is a code point below 256
      (the Latin-1 block of Unicode), classified by [isspace], [isupper]
      and [islower] as Python classifies these code points.
    - The parser object is its immutable token list together with the
      cursor [self.pos], which is threaded through every method; a raised
      [ParseError] leaves the cursor where the failure was detected.
    - Recursion of the methods is bounded by an explicit budget; the
      budget the entry point hands out is shown to be always sufficient.
      The interpreter's recursion limit is not modelled. *)

From Stdlib Require Import Bool Arith Lia List NArith Ascii String DecimalString.
Import ListNotations.
Local Open Scope string_scope.
Local Open Scope list_scope.
Local Open Scope nat_scope.

(** ** Characters and the [str] methods the parser uses *)

Definition ord (c : ascii) : nat := nat_of_ascii c.

Definition between (lo hi : nat) (c : ascii) : bool :=
  ((lo <=? ord c) && (ord c <=? hi))%nat.

(** [str.isspace] on one character, which is also the class [\s] of a
    [str] pattern: TAB..CR, FS..US, SPACE, NEL and NBSP. *)
Definition isspace (c : ascii) : bool :=
  between 9 13 c || between 28 32 c || (ord c =? 133)%nat || (ord c =? 160)%nat.

(** [str.isupper] on one character: A-Z and the Latin-1 capitals. *)
Definition isupper (c : ascii) : bool :=
  between 65 90 c || between 192 214 c || between 216 222 c.

(** [str.islower] on one character: a-z and the Latin-1 small letters,
    the ordinal indicators and the micro sign included. *)
Definition islower (c : ascii) : bool :=
  between 97 122 c || (ord c =? 170)%nat || (ord c =? 181)%nat
  || (ord c =? 186)%nat || between 223 246 c || between 248 255 c.

(** The character classes of the token pattern. *)
Definition lower_az (c : ascii) : bool := between 97 122 c.
Definition upper_AZ (c : ascii) : bool := between 65 90 c.
Definition digit_09 (c : ascii) : bool := between 48 57 c.

Fixpoint str_forallb (p : ascii -> bool) (s : string) : bool :=
  match s with
  | EmptyString => true
  | String c r => p c && str_forallb p r
  end.

Fixpoint str_existsb (p : ascii -> bool) (s : string) : bool :=
  match s with
  | EmptyString => false
  | String c r => p c || str_existsb p r
  end.

(** Truth value of a string: non-empty. *)
Definition nonempty (s : string) : bool :=
  match s with EmptyString => false | String _ _ => true end.

(** [s.isspace()]: at least one character and all of them whitespace. *)
Definition str_isspace (s : string) : bool :=
  nonempty s && str_forallb isspace s.

(** [s.islower()]: no uppercase character and at least one lowercase one. *)
Definition str_islower (s : string) : bool :=
  negb (str_existsb isupper s) && str_existsb islower s.

(** [s[0].isupper()] and [s[0].islower()] for a non-empty [s]. *)
Definition head_isupper (s : string) : bool :=
  match s with String c _ => isupper c | EmptyString => false end.

Definition head_islower (s : string) : bool :=
  match s with String c _ => islower c | EmptyString => false end.

(** [str(n)] for a natural number. *)
Definition str_of_nat (n : nat) : string :=
  NilEmpty.string_of_uint (Nat.to_uint n).

(** [sep.join(l)]. *)
Fixpoint join (sep : string) (l : list string) : string :=
  match l with
  | [] => ""
  | [s] => s
  | s :: r => (s ++ sep ++ join sep r)%string
  end.

(** ** AST nodes *)

Set Warnings "-register-all".

(** Every class derives from [Formula]; a term list or a bound variable
    is an arbitrary object for the constructors, so all nodes live in one
    type. *)
Inductive Formula : Type :=
| Variable_ (name : string)
| Constant (name : string)
| Predicate (name : string) (terms : list Formula)
| Negation (formula : Formula)
| Conjunction (left right : Formula)
| Disjunction (left right : Formula)
| Implication (left right : Formula)
| Forall (variable : Formula) (formula : Formula)
| Exists (variable : Formula) (formula : Formula).

(** [__repr__] of each class. *)
Fixpoint repr (f : Formula) : string :=
  (match f with
   | Variable_ name => name
   | Constant name => name
   | Predicate name terms => name ++ "(" ++ join ", " (map repr terms) ++ ")"
   | Negation g => "~(" ++ repr g ++ ")"
   | Conjunction l r => "(" ++ repr l ++ " & " ++ repr r ++ ")"
   | Disjunction l r => "(" ++ repr l ++ " | " ++ repr r ++ ")"
   | Implication l r => "(" ++ repr l ++ " -> " ++ repr r ++ ")"
   | Forall v g => "forall " ++ repr v ++ ". (" ++ repr g ++ ")"
   | Exists v g => "exists " ++ repr v ++ ". (" ++ repr g ++ ")"
   end)%string.

(** ** [ParseError] *)

(** The exception carries its message and nothing else. *)
Record ParseError : Type := mkParseError { message : string }.

(** How a token or [None] prints inside an f-string. *)
Definition show (t : option string) : string :=
  match t with Some s => s | None => "None" end.

(** ** The tokenizer *)

(** [s.replace(old, new)] for a one-character [old]. *)
Fixpoint replace (old : ascii) (new : string) (s : string) : string :=
  match s with
  | EmptyString => EmptyString
  | String c r =>
      if Ascii.eqb c old then (new ++ replace old new r)%string
      else String c (replace old new r)
  end.

(** The longest prefix of characters in [p], and what follows it: a greedy
    star over a character class. *)
Fixpoint span (p : ascii -> bool) (s : string) : string * string :=
  match s with
  | EmptyString => (EmptyString, EmptyString)
  | String c r =>
      if p c then let (a, b) := span p r in (String c a, b)
      else (EmptyString, s)
  end.

Definition ident_tail_lower (c : ascii) : bool := lower_az c || digit_09 c.
Definition ident_tail_upper (c : ascii) : bool := upper_AZ c || digit_09 c.

(** The capture group of the pattern, tried at the head of [s], its
    alternatives in the order of the pattern:
    [\(|\)|[a-z][a-z0-9]*|[A-Z][A-Z0-9]*|~|&|\||->|\.|,].
    The result is the captured text and the rest of the input. *)
Definition match_group (s : string) : option (string * string) :=
  match s with
  | EmptyString => None
  | String c r =>
      if Ascii.eqb c "("%char then Some ("(", r)
      else if Ascii.eqb c ")"%char then Some (")", r)
      else if lower_az c then
        let (run, rest) := span ident_tail_lower r in Some (String c run, rest)
      else if upper_AZ c then
        let (run, rest) := span ident_tail_upper r in Some (String c run, rest)
      else if Ascii.eqb c "~"%char then Some ("~", r)
      else if Ascii.eqb c "&"%char then Some ("&", r)
      else if Ascii.eqb c "|"%char then Some ("|", r)
      else if Ascii.eqb c "-"%char then
        match r with
        | String d r' => if Ascii.eqb d ">"%char then Some ("->", r') else None
        | EmptyString => None
        end
      else if Ascii.eqb c "."%char then Some (".", r)
      else if Ascii.eqb c ","%char then Some (",", r)
      else None
  end.

(** The whole pattern [\s*( ... )\s*] tried at the head of [s].  No
    alternative of the group starts with whitespace and the trailing
    [\s*] cannot fail, so the greedy choice is the only one that can
    succeed. *)
Definition match_at (s : string) : option (string * string) :=
  match match_group (snd (span isspace s)) with
  | Some (tok, rest) => Some (tok, snd (span isspace rest))
  | None => None
  end.

(** [re.split(token_regex, s)]: the leftmost match is looked for from the
    current position; the text skipped before it, the captured group and
    so on alternate in the result, which ends with the text after the
    last match.  [gap] is the text skipped since the last match. *)
Fixpoint split_loop (fuel : nat) (gap : string) (s : string) : list string :=
  match fuel with
  | 0 => [gap]
  | S fuel' =>
      match match_at s with
      | Some (tok, rest) => gap :: tok :: split_loop fuel' "" rest
      | None =>
          match s with
          | String c r => split_loop fuel' (gap ++ String c "")%string r
          | EmptyString => [gap]
          end
      end
  end.

Definition re_split (s : string) : list string :=
  split_loop (S (String.length s)) "" s.

(** The filter of the list comprehension: [t and not t.isspace()]. *)
Definition keep (t : string) : bool := nonempty t && negb (str_isspace t).

Definition _tokenize (text : string) : list string :=
  let text := replace "."%char " . "
                (replace ")"%char " ) " (replace "("%char " ( " text)) in
  filter keep (re_split text).

(** ** The parser object and its methods *)

(** What a method call ends in: a returned value, a raised [ParseError], or
    the exhaustion of the recursion budget of the model. *)
Inductive outcome (A : Type) : Type :=
| Ok (a : A)
| Raise (e : ParseError)
| Fuel.

Arguments Ok {A} a.
Arguments Raise {A} e.
Arguments Fuel {A}.

(** A method takes the cursor [self.pos] and gives back its outcome with
    the cursor it leaves behind. *)
Definition M (A : Type) : Type := nat -> outcome A * nat.

Definition ret {A} (a : A) : M A := fun pos => (Ok a, pos).

Definition raise {A} (msg : string) : M A :=
  fun pos => (Raise (mkParseError msg), pos).

Definition out_of_fuel {A} : M A := fun pos => (Fuel, pos).

Definition bind {A B} (m : M A) (k : A -> M B) : M B :=
  fun pos =>
    match m pos with
    | (Ok a, pos') => k a pos'
    | (Raise e, pos') => (Raise e, pos')
    | (Fuel, pos') => (Fuel, pos')
    end.

Notation "x <- m ;; k" := (bind m (fun x => k))
  (at level 61, m at next level, right associativity).
Notation "m ;;; k" := (bind m (fun _ => k))
  (at level 61, right associativity).

Definition tok_eqb (t : option string) (s : string) : bool :=
  match t with Some u => String.eqb u s | None => false end.

Section FOLParser.

(** [self.tokens], fixed by [__init__]. *)
Variable tokens : list string.

Definition get_pos : M nat := fun pos => (Ok pos, pos).

Definition _peek : M (option string) :=
  fun pos =>
    (Ok (if pos <? List.length tokens then nth_error tokens pos else None), pos).

Definition advance : M unit := fun pos => (Ok tt, pos + 1).

(** [_consume(expected)]; [expected] is [None] when the argument is
    left out, and the test [if expected] asks for a non-empty string. *)
Definition _consume (expected : option string) : M string :=
  token <- _peek ;;
  pos <- get_pos ;;
  match expected with
  | Some e =>
      if nonempty e && negb (tok_eqb token e) then
        raise ("Expected '" ++ e ++ "' but found '" ++ show token
               ++ "' at position " ++ str_of_nat pos)
      else
        match token with
        | None => raise "Unexpected end of input"
        | Some t => advance ;;; ret t
        end
  | None =>
      match token with
      | None => raise "Unexpected end of input"
      | Some t => advance ;;; ret t
      end
  end.

Definition parse_term : M Formula :=
  token <- _peek ;;
  match token with
  | None => raise "Unexpected end of input, expected a term."
  | Some t =>
      if negb (nonempty t) then
        raise "Unexpected end of input, expected a term."
      else if head_islower t then
        _consume None ;;; ret (Variable_ t)
      else if head_isupper t then
        _consume None ;;; ret (Constant t)
      else raise ("Invalid term: " ++ t)
  end.

(** The [while True] loop of [parse_predicate]; one round parses one
    term. *)
Fixpoint terms_loop (fuel : nat) (terms : list Formula) : M (list Formula) :=
  match fuel with
  | 0 => out_of_fuel
  | S fuel' =>
      t <- parse_term ;;
      let terms := terms ++ [t] in
      token <- _peek ;;
      if tok_eqb token ")" then ret terms
      else _consume (Some ",") ;;; terms_loop fuel' terms
  end.

Definition parse_predicate (fuel : nat) : M Formula :=
  name <- _consume None ;;
  _consume (Some "(") ;;;
  token <- _peek ;;
  terms <- (if negb (tok_eqb token ")") then terms_loop fuel [] else ret []) ;;
  _consume (Some ")") ;;;
  ret (Predicate name terms).

(** [parse_quantifier], with the method it calls back as a parameter. *)
Definition parse_quantifier (parse_formula : M Formula) : M Formula :=
  quantifier_type <- _consume None ;;
  var_name <- _consume None ;;
  if negb (str_islower var_name) then
    raise ("Expected a lowercase variable after quantifier, but got '"
           ++ var_name ++ "'")
  else
    let variable := Variable_ var_name in
    _consume (Some ".") ;;;
    formula <- parse_formula ;;
    if String.eqb quantifier_type "forall" then ret (Forall variable formula)
    else ret (Exists variable formula).

Fixpoint parse_formula (fuel : nat) : M Formula :=
  match fuel with
  | 0 => out_of_fuel
  | S fuel' =>
      token <- _peek ;;
      if tok_eqb token "(" then
        _consume (Some "(") ;;;
        left <- parse_formula fuel' ;;
        op <- _consume None ;;
        right <- parse_formula fuel' ;;
        _consume (Some ")") ;;;
        if String.eqb op "&" then ret (Conjunction left right)
        else if String.eqb op "|" then ret (Disjunction left right)
        else if String.eqb op "->" then ret (Implication left right)
        else raise ("Unknown binary operator: " ++ op)
      else if tok_eqb token "~" then
        _consume (Some "~") ;;;
        formula <- parse_formula fuel' ;;
        ret (Negation formula)
      else if tok_eqb token "forall" || tok_eqb token "exists" then
        parse_quantifier (parse_formula fuel')
      else if match token with
              | Some t => nonempty t && head_isupper t
              | None => false
              end then
        parse_predicate fuel'
      else raise ("Unexpected token for a formula: " ++ show token)
  end.

Definition parse (fuel : nat) : M Formula :=
  formula <- parse_formula fuel ;;
  pos <- get_pos ;;
  if pos <? List.length tokens then
    token <- _peek ;;
    raise ("Unexpected token '" ++ show token ++ "' at end of expression")
  else ret formula.

End FOLParser.

(** [FOLParser(text).parse()]: the constructor tokenizes and sets the cursor
    to 0.  One unit of budget per token and one more is always enough. *)
Definition budget (tokens : list string) : nat := S (List.length tokens).

Definition run_parse (text : string) : outcome Formula * nat :=
  let tokens := _tokenize text in
  parse tokens (budget tokens) 0.

Definition FOLParser_parse (text : string) : outcome Formula :=
  fst (run_parse text).


(** ** Properties of method calls used in the statements *)

(** A call started at [pos] never moves the cursor back or past the end of
    the token list, and moves it forward when it returns. *)
Definition cursor_ok {A} (tokens : list string) (pos : nat)
    (x : outcome A * nat) : Prop :=
  pos <= snd x
  /\ (pos <= List.length tokens -> snd x <= List.length tokens)
  /\ (forall a, fst x = Ok a -> pos < snd x).

(** ** Token shapes *)

(** The identifier shapes [[a-z][a-z0-9]*] and [[A-Z][A-Z0-9]*]. *)
Definition lower_ident (s : string) : bool :=
  match s with
  | String c r => lower_az c && str_forallb ident_tail_lower r
  | EmptyString => false
  end.

Definition upper_ident (s : string) : bool :=
  match s with
  | String c r => upper_AZ c && str_forallb ident_tail_upper r
  | EmptyString => false
  end.

(** LPAREN, RPAREN, DOT, COMMA, NEG, AND, OR, IMPLIES. *)
Definition punct (s : string) : bool :=
  existsb (String.eqb s) ["("; ")"; "."; ","; "~"; "&"; "|"; "->"].

Definition legal_token (s : string) : bool :=
  punct s || lower_ident s || upper_ident s.

(** Characters at which some alternative of the group always matches. *)
Definition start_char (c : ascii) : bool :=
  Ascii.eqb c "("%char || Ascii.eqb c ")"%char || lower_az c || upper_AZ c
  || Ascii.eqb c "~"%char || Ascii.eqb c "&"%char || Ascii.eqb c "|"%char
  || Ascii.eqb c "."%char || Ascii.eqb c ","%char.

(** Some alternative of the group matches at the head of [s]. *)
Definition opens (s : string) : bool :=
  match s with
  | EmptyString => false
  | String c r =>
      start_char c
      || (Ascii.eqb c "-"%char
          && match r with
             | String d _ => Ascii.eqb d ">"%char
             | EmptyString => false
             end)
  end.

(** No lexical rule matches anywhere inside [t]. *)
Fixpoint unmatched (t : string) : bool :=
  match t with
  | EmptyString => true
  | String c r => negb (opens t) && unmatched r
  end.

(** A run of text that no lexical rule matches and that is not blank. *)
Definition unmatched_run (t : string) : bool := keep t && unmatched t.

Fixpoint last_char (s : string) : option ascii :=
  match s with
  | EmptyString => None
  | String c EmptyString => Some c
  | String _ r => last_char r
  end.

(** [s] does not end with whitespace. *)
Definition ends_visible (s : string) : bool :=
  match last_char s with Some c => negb (isspace c) | None => true end.

(** The text with its whitespace removed. *)
Fixpoint visible (s : string) : string :=
  match s with
  | EmptyString => EmptyString
  | String c r => if isspace c then visible r else String c (visible r)
  end.

Definition concat_all (l : list string) : string :=
  fold_right String.append EmptyString l.

(** Code points of the ASCII block. *)
Definition is_ascii (c : ascii) : bool := ord c <? 128.

(** The shape of what [re.split] returns: skipped text and captured tokens
    alternate; skipped text is unmatched, and when a token follows it, it
    does not end with whitespace. *)
Inductive pieces_ok : list string -> Prop :=
| pieces_last gap :
    unmatched gap = true -> pieces_ok [gap]
| pieces_more gap tok rest :
    unmatched gap = true -> ends_visible gap = true ->
    legal_token tok = true -> pieces_ok rest ->
    pieces_ok (gap :: tok :: rest).

(** ** Properties of the AST used in the statements *)

(** A bound variable is a [Variable] node whose name satisfies [Pb]. *)
Definition bound_sat (Pb : string -> bool) (v : Formula) : bool :=
  match v with Variable_ name => Pb name | _ => false end.

(** Every name of [f] satisfies the condition given for its kind: [Pv] for
    a [Variable] and [Pc] for a [Constant] outside a quantifier's binding
    position, [Pp] for a [Predicate], [Pb] for a bound variable. *)
Fixpoint names_sat (Pv Pc Pp Pb : string -> bool) (f : Formula) : bool :=
  match f with
  | Variable_ name => Pv name
  | Constant name => Pc name
  | Predicate name terms => Pp name && forallb (names_sat Pv Pc Pp Pb) terms
  | Negation g => names_sat Pv Pc Pp Pb g
  | Conjunction l r | Disjunction l r | Implication l r =>
      names_sat Pv Pc Pp Pb l && names_sat Pv Pc Pp Pb r
  | Forall v g | Exists v g => bound_sat Pb v && names_sat Pv Pc Pp Pb g
  end.

(** The identifier shapes on [Variable] and [Constant] names. *)
Definition names_ok : Formula -> bool :=
  names_sat lower_ident upper_ident (fun _ => true) lower_ident.

Definition is_term (f : Formula) : bool :=
  match f with Variable_ _ | Constant _ => true | _ => false end.

Definition is_variable (f : Formula) : bool :=
  match f with Variable_ _ => true | _ => false end.

(** [f] may stand where a formula is expected: it is no bare [Variable] or
    [Constant], its term lists hold only those, its bound variables are
    [Variable] nodes, and the same holds below it. *)
Fixpoint proper (f : Formula) : bool :=
  match f with
  | Variable_ _ | Constant _ => false
  | Predicate _ terms => forallb is_term terms
  | Negation g => proper g
  | Conjunction l r | Disjunction l r | Implication l r => proper l && proper r
  | Forall v g | Exists v g => is_variable v && proper g
  end.

(** ** The messages of [ParseError] *)

(** The message of [_consume] on a mismatch, the only one that states a
    position. *)
Definition expected_message (e : string) (found : option string) (pos : nat)
    : string :=
  "Expected '" ++ e ++ "' but found '" ++ show found ++ "' at position "
  ++ str_of_nat pos.



(** ** The canonical rendering and its tokens *)

(** The three [replace] calls of the tokenizer, and its split and filter. *)
Definition replace3 (s : string) : string :=
  replace "."%char " . " (replace ")"%char " ) " (replace "("%char " ( " s)).

Definition lex (s : string) : list string := filter keep (re_split s).

Definition skip_space (s : string) : string := snd (span isspace s).

(** Leading whitespace of [s] does not show in its tokens. *)
Definition headed (s : string) : Prop := lex (skip_space s) = lex s.

(** A token that another token can follow: of a legal shape, or unmatched
    text that does not end with whitespace. *)
Definition inner (t : string) : bool :=
  legal_token t || (unmatched t && ends_visible t).

Fixpoint all_but_last {A} (P : A -> Prop) (l : list A) : Prop :=
  match l with
  | [] => True
  | x :: r => match r with [] => True | _ :: _ => P x /\ all_but_last P r end
  end.

(** No [Negation], [Forall] or [Exists] node, and no bare term. *)
Fixpoint plain (f : Formula) : bool :=
  match f with
  | Predicate _ _ => true
  | Conjunction l r | Disjunction l r | Implication l r => plain l && plain r
  | _ => false
  end.

(** The arguments of a predicate with the commas between them. *)
Fixpoint sep_terms (ts : list string) : list string :=
  match ts with
  | [] => []
  | t :: r => match r with [] => [t] | _ :: _ => t :: "," :: sep_terms r end
  end.

(** The tokens of [repr f], read off the [__repr__] methods. *)
Fixpoint flat (f : Formula) : list string :=
  match f with
  | Variable_ name => [name]
  | Constant name => [name]
  | Predicate name terms => name :: "(" :: sep_terms (map repr terms) ++ [")"]
  | Negation g => "~" :: "(" :: flat g ++ [")"]
  | Conjunction l r => "(" :: flat l ++ "&" :: flat r ++ [")"]
  | Disjunction l r => "(" :: flat l ++ "|" :: flat r ++ [")"]
  | Implication l r => "(" :: flat l ++ "->" :: flat r ++ [")"]
  | Forall v g => "forall" :: repr v :: "." :: "(" :: flat g ++ [")"]
  | Exists v g => "exists" :: repr v :: "." :: "(" :: flat g ++ [")"]
  end.

(** What the parser's tests and the tokenizer guarantee of the names of a
    formula without quantifiers. *)
Definition var_name (t : string) : bool := inner t && head_islower t.
Definition const_name (t : string) : bool :=
  inner t && negb (head_islower t) && head_isupper t.
Definition pred_name (t : string) : bool := inner t && head_isupper t.

Definition names_parsed : Formula -> bool :=
  names_sat var_name const_name pred_name (fun _ => true).

(** No match of the pattern starts inside [g] when [s] follows it. *)
Fixpoint no_match_in (g s : string) : Prop :=
  match g with
  | EmptyString => True
  | String _ g' => match_at (g ++ s) = None /\ no_match_in g' s
  end.

(** Text that starts with whitespace or a comma, as the text after a name
    in a rendering does. *)
Definition delim (d : ascii) : bool := isspace d || Ascii.eqb d ","%char.

Definition delim_head (s : string) : bool :=
  match s with String d _ => delim d | EmptyString => false end.

(** Characters the tokenizer does not pad with spaces. *)
Definition paren_free (c : ascii) : bool :=
  negb (Ascii.eqb c "("%char || Ascii.eqb c ")"%char || Ascii.eqb c "."%char).

(** A name as the parser accepts one: a token another token follows, with a
    letter at its head. *)
Definition name_token (t : string) : Prop :=
  inner t = true /\ (head_isupper t = true \/ head_islower t = true).

(** A capital letter outside A-Z: A with grave accent, U+00C0. *)
Definition A_grave : ascii := ascii_of_nat 192.

(** ** The token lists the parser accepts *)

(** The tokens the productions consume to build [f]: a predicate is its
    name, a parenthesized list of terms with commas; a negation is [~] and
    its operand; a binary connective is parenthesized; a quantifier is its
    keyword, the bound variable, a dot and the body. *)
Fixpoint tokens_of (f : Formula) : list string :=
  match f with
  | Variable_ name => [name]
  | Constant name => [name]
  | Predicate name terms => name :: "(" :: sep_terms (map repr terms) ++ [")"]
  | Negation g => "~" :: tokens_of g
  | Conjunction l r => "(" :: tokens_of l ++ "&" :: tokens_of r ++ [")"]
  | Disjunction l r => "(" :: tokens_of l ++ "|" :: tokens_of r ++ [")"]
  | Implication l r => "(" :: tokens_of l ++ "->" :: tokens_of r ++ [")"]
  | Forall v g => "forall" :: repr v :: "." :: tokens_of g
  | Exists v g => "exists" :: repr v :: "." :: tokens_of g
  end.

(** The tests the parser runs on a name before it builds the node. *)
Definition upper_only (t : string) : bool :=
  negb (head_islower t) && head_isupper t.

Definition names_tested : Formula -> bool :=
  names_sat head_islower upper_only head_isupper str_islower.

(** The tokens of [l] stand in [tokens] from index [pos] up to [p]. *)
Definition reads (tokens : list string) (pos : nat) (l : list string) (p : nat)
    : Prop :=
  exists pre post,
    tokens = pre ++ l ++ post /\ List.length pre = pos
    /\ p = pos + List.length l.

(** The names of the documented syntax: identifiers of the lowercase shape
    for variables, of the uppercase shape for constants and predicates. *)
Definition grammar_names : Formula -> bool :=
  names_sat lower_ident upper_ident upper_ident lower_ident.

(** ** Renderings that do not parse *)

(** [t] starts with a character that is not whitespace. *)
Definition head_visible (t : string) : bool :=
  match t with String c _ => negb (isspace c) | EmptyString => false end.

(** A token that tokens can surround. *)
Definition solid (t : string) : bool := inner t && head_visible t.

(** Skipped text that comes after a match is empty or starts with a visible
    character. *)
Definition starts_ok (g : string) : bool :=
  match g with String c _ => negb (isspace c) | EmptyString => true end.

(** The name of a bound variable of a parsed formula: a token that tokens
    surround and that passes [islower()]. *)
Definition bound_name (t : string) : bool := solid t && str_islower t.

Definition bounds_parsed : Formula -> bool :=
  names_sat (fun _ => true) (fun _ => true) (fun _ => true) bound_name.

(** ** Nesting of parentheses *)

(** The nesting depth behind the tokens of [l] when it is [d] in front of
    them; [None] when a closing parenthesis has no opening one before
    it. *)
Fixpoint nesting (d : nat) (l : list string) : option nat :=
  match l with
  | [] => Some d
  | t :: r =>
      if String.eqb t "(" then nesting (S d) r
      else if String.eqb t ")" then
        match d with 0 => None | S d' => nesting d' r end
      else nesting d r
  end.

(** ** Messages that announce the end of the input *)



(** ** The key check of [script.py] *)

(** The class [[a-zA-Z0-9]]. *)
Definition alnum (c : ascii) : bool := lower_az c || upper_AZ c || digit_09 c.

(** [[a-zA-Z0-9]{n}] at the head of [s]: the rest of the input behind
    [n] characters of the class. *)
Fixpoint match_repeat (n : nat) (s : string) : option string :=
  match n with
  | 0 => Some s
  | S n' =>
      match s with
      | String c r => if alnum c then match_repeat n' r else None
      | EmptyString => None
      end
  end.

(** [$] without the multi-line flag: at the end of the input, or in front
    of a line feed that ends it. *)
Definition at_dollar (s : string) : bool :=
  match s with
  | EmptyString => true
  | String c EmptyString => Ascii.eqb c "010"%char
  | String _ (String _ _) => false
  end.

(** [bool(re.match(r'^[a-zA-Z0-9]{32}$', api_key))]. *)
Definition is_api_key_valid_2717 (api_key : string) : bool :=
  match match_repeat 32 api_key with
  | Some rest => at_dollar rest
  | None => false
  end.

(** Thirty-two characters of the class. *)
Definition key_shape (k : string) : Prop :=
  String.length k = 32 /\ str_forallb alnum k = true.

(** ** What [re.split] and the filter return *)

(** The tokens of a text, in the words of [re.split]: the leftmost match of
    the pattern is looked for; the text [g] in front of it, in which no
    match starts, is a token as it stands, whitespace inside it included,
    unless it is empty or blank; the captured group is the next token; the
    text behind the match is split in the same way.  Text in which no
    match starts at all is one token, unless it is empty or blank. *)
Inductive tokenization : string -> list string -> Prop :=
| tokenization_last g :
    no_match_in g "" -> tokenization g (filter keep [g])
| tokenization_match g s tok rest l :
    no_match_in g s -> match_at s = Some (tok, rest) ->
    tokenization rest l ->
    tokenization (g ++ s) (filter keep [g] ++ tok :: l).

(* ================================================================= *)
(** * Proofs *)

(** ** Cursor lemmas *)

Section ParserFacts.

Variable tokens : list string.

Lemma peek_eq pos :
  _peek tokens pos = (Ok (nth_error tokens pos), pos).
Proof.
  unfold _peek. destruct (Nat.ltb_spec pos (List.length tokens)) as [H|H]; auto.
  apply nth_error_None in H. now rewrite H.
Qed.

Lemma consume_any pos :
  _consume tokens None pos =
  match nth_error tokens pos with
  | Some t => (Ok t, pos + 1)
  | None => (Raise (mkParseError "Unexpected end of input"), pos)
  end.
Proof.
  unfold _consume, bind. rewrite peek_eq. simpl.
  destruct (nth_error tokens pos); reflexivity.
Qed.

Lemma consume_expected e pos :
  nonempty e = true ->
  _consume tokens (Some e) pos =
  if tok_eqb (nth_error tokens pos) e then (Ok e, pos + 1)
  else (Raise (mkParseError
                 ("Expected '" ++ e ++ "' but found '"
                  ++ show (nth_error tokens pos)
                  ++ "' at position " ++ str_of_nat pos)), pos).
Proof.
  intros He. unfold _consume, bind. rewrite peek_eq. simpl. rewrite He. simpl.
  destruct (nth_error tokens pos) as [t|] eqn:E; simpl.
  - destruct (String.eqb_spec t e); subst; reflexivity.
  - reflexivity.
Qed.

Lemma tok_eqb_true t s : tok_eqb t s = true <-> t = Some s.
Proof.
  destruct t as [u|]; simpl; split; intros H; try discriminate.
  - apply String.eqb_eq in H. now subst.
  - injection H as ->. apply String.eqb_refl.
Qed.

End ParserFacts.

(** ** Proof automation for the methods *)

Ltac method_step :=
  match goal with
  | H : nth_error ?l ?p = _ |- context [nth_error ?l ?p] => rewrite H
  | H : tok_eqb ?a ?b = _ |- context [tok_eqb ?a ?b] => rewrite H
  | |- context [tok_eqb None ?s] => change (tok_eqb None s) with false; cbv iota
  | |- context [_peek _ _] => rewrite peek_eq
  | |- context [_consume _ None _] => rewrite consume_any
  | |- context [_consume _ (Some _) _] => rewrite consume_expected by reflexivity
  | |- context [match nth_error ?l ?p with _ => _ end] =>
      destruct (nth_error l p) eqn:?
  | |- context [if ?b then _ else _] => destruct b eqn:?
  | |- context [let (_, _) := ?x in _] => destruct x as [[?|?|] ?] eqn:?
  | |- context [match ?x with Ok _ => _ | Raise _ => _ | Fuel => _ end] =>
      destruct x eqn:?
  end.

Ltac unfold_formula :=
  unfold parse, parse_quantifier, bind, ret, raise, out_of_fuel, get_pos, advance.

Ltac unfold_methods :=
  unfold parse_predicate, parse_term; unfold_formula.

Ltac run_method := unfold_methods; repeat (method_step; unfold_methods).

(** The same, with [parse_predicate] kept folded. *)
Ltac run_formula := unfold_formula; repeat (method_step; unfold_formula).

Lemma nth_error_lt {A} (l : list A) n x :
  nth_error l n = Some x -> n < List.length l.
Proof. intros H. apply nth_error_Some. congruence. Qed.

Lemma tok_eqb_lt tokens pos s :
  tok_eqb (nth_error tokens pos) s = true -> pos < List.length tokens.
Proof. intros H. apply tok_eqb_true in H. now apply nth_error_lt in H. Qed.

(** Turns what is known about the tokens under the cursor into bounds on
    the cursor. *)
Ltac bounds :=
  repeat match goal with
    | H : nth_error _ _ = Some _ |- _ => apply nth_error_lt in H
    | H : tok_eqb (nth_error _ _) _ = true |- _ => apply tok_eqb_lt in H
    end.

Section CursorFacts.

Variable tokens : list string.



Lemma parse_term_cursor pos r p :
  parse_term tokens pos = (r, p) ->
  pos <= p /\ (pos <= List.length tokens -> p <= List.length tokens) /\ (forall t, r = Ok t -> pos < p) /\ r <> Fuel.
Proof.
  run_method; intros [= <- <-];
    repeat split; try lia; try congruence;
    bounds; lia.
Qed.

Lemma terms_loop_cursor fuel : forall terms pos r p,
  terms_loop tokens fuel terms pos = (r, p) ->
  pos <= p /\ (pos <= List.length tokens -> p <= List.length tokens) /\ (forall t, r = Ok t -> pos < p).
Proof.
  induction fuel as [|fuel IH]; intros terms pos r p.
  - cbn. intros [= <- <-]. repeat split; try lia; congruence.
  - cbn [terms_loop]. unfold bind at 1.
    destruct (parse_term tokens pos) as [[t| |] p1] eqn:Et;
      apply parse_term_cursor in Et; destruct Et as (A & B & C & D).
    + specialize (C _ eq_refl).
      run_method; try (intros [= <- <-]; repeat split; try lia; congruence).
      intros H. apply IH in H. destruct H as (A' & B' & C').
      bounds. repeat split; lia.
    + intros [= <- <-]. repeat split; try lia; congruence.
    + congruence.
Qed.

Lemma parse_predicate_cursor fuel pos :
  cursor_ok tokens pos (parse_predicate tokens fuel pos).
Proof.
  unfold cursor_ok.
  run_method; cbn [fst snd]; bounds;
    try match goal with H : terms_loop _ _ _ _ = _ |- _ =>
          apply terms_loop_cursor in H; destruct H as (? & ? & ?) end;
    repeat split; try lia; try congruence.
  all: intros; match goal with H : forall t, Ok ?x = Ok t -> _ |- _ =>
                 specialize (H _ eq_refl) end; lia.
Qed.

Lemma parse_formula_cursor fuel : forall pos,
  cursor_ok tokens pos (parse_formula tokens fuel pos).
Proof.
  unfold cursor_ok.
  induction fuel as [|fuel IH]; intros pos.
  - cbn. repeat split; try lia; congruence.
  - cbn [parse_formula].
    run_formula; try apply parse_predicate_cursor; cbn [fst snd]; bounds;
      repeat match goal with
        | H : parse_formula _ _ ?p = _ |- _ =>
            let Q := fresh in
            pose proof (IH p) as Q; rewrite H in Q; cbn [fst snd] in Q;
            destruct Q as (? & ? & ?); clear H
        | H : forall t, Ok ?x = Ok t -> _ |- _ => specialize (H _ eq_refl)
        end;
      repeat split; try lia; try congruence.
Qed.

End CursorFacts.

(** ** The recursion budget *)

Section FuelFacts.

Variable tokens : list string.

Lemma parse_term_fuel pos : fst (parse_term tokens pos) <> Fuel.
Proof. run_method; cbn; congruence. Qed.

Lemma terms_loop_enough fuel : forall terms pos,
  List.length tokens - pos < fuel ->
  fst (terms_loop tokens fuel terms pos) <> Fuel.
Proof.
  induction fuel as [|fuel IH]; intros terms pos Hlen.
  - lia.
  - cbn [terms_loop]. unfold bind at 1.
    destruct (parse_term tokens pos) as [[t| |] p1] eqn:Et.
    + pose proof (parse_term_cursor _ _ _ _ Et) as (A & B & C & D).
      specialize (C _ eq_refl).
      run_method; cbn [fst]; try congruence.
      apply IH. bounds. lia.
    + cbn. congruence.
    + pose proof (parse_term_fuel pos) as Q. rewrite Et in Q. now cbn in Q.
Qed.

Lemma parse_predicate_enough fuel pos :
  List.length tokens - pos < S fuel ->
  fst (parse_predicate tokens fuel pos) <> Fuel.
Proof.
  intros Hlen. unfold parse_predicate.
  run_method; cbn [fst]; try congruence.
  all: match goal with H : terms_loop _ _ _ _ = (Fuel, _) |- _ =>
         apply (f_equal fst) in H; cbn [fst] in H;
         apply terms_loop_enough in H; [contradiction|] end.
  all: bounds; lia.
Qed.

Lemma parse_formula_enough fuel : forall pos,
  List.length tokens - pos < fuel ->
  fst (parse_formula tokens fuel pos) <> Fuel.
Proof.
  induction fuel as [|fuel IH]; intros pos Hlen; [lia|].
  cbn [parse_formula].
  run_formula; try (apply parse_predicate_enough; lia);
    cbn [fst]; try congruence.
  all: repeat match goal with
         | H : parse_formula _ _ ?p = (Ok _, _) |- _ =>
             let Q := fresh in
             pose proof (parse_formula_cursor tokens fuel p) as Q;
             unfold cursor_ok in Q; rewrite H in Q; cbn [fst snd] in Q;
             destruct Q as (? & ? & ?); clear H
         end.
  all: match goal with H : parse_formula _ _ _ = (Fuel, _) |- _ =>
         apply (f_equal fst) in H; cbn [fst] in H;
         apply IH in H; [contradiction|] end.
  all: bounds; lia.
Qed.

End FuelFacts.

Section FuelMonotone.

Variable tokens : list string.

Lemma terms_loop_more fuel : forall fuel' terms pos,
  fuel <= fuel' ->
  fst (terms_loop tokens fuel terms pos) <> Fuel ->
  terms_loop tokens fuel' terms pos = terms_loop tokens fuel terms pos.
Proof.
  induction fuel as [|fuel IH]; intros fuel' terms pos Hle.
  - cbn. congruence.
  - destruct fuel' as [|fuel']; [lia|].
    cbn [terms_loop]. unfold bind.
    destruct (parse_term tokens pos) as [[t| |] p1]; try reflexivity.
    rewrite !peek_eq.
    destruct (tok_eqb (nth_error tokens p1) ")"); try reflexivity.
    rewrite !consume_expected by reflexivity.
    destruct (tok_eqb (nth_error tokens p1) ","); try reflexivity.
    apply IH. lia.
Qed.

Lemma parse_predicate_more fuel fuel' pos :
  fuel <= fuel' ->
  fst (parse_predicate tokens fuel pos) <> Fuel ->
  parse_predicate tokens fuel' pos = parse_predicate tokens fuel pos.
Proof.
  intros Hle. unfold parse_predicate, bind.
  rewrite !consume_any. destruct (nth_error tokens pos) as [name|]; try reflexivity.
  rewrite !consume_expected by reflexivity.
  destruct (tok_eqb (nth_error tokens (pos + 1)) "("); try reflexivity.
  rewrite !peek_eq.
  destruct (negb (tok_eqb (nth_error tokens (pos + 1 + 1)) ")")); try reflexivity.
  destruct (terms_loop tokens fuel [] (pos + 1 + 1)) as [[ts| |] p1] eqn:E.
  - rewrite (terms_loop_more fuel fuel') by (rewrite ?E; cbn; congruence || lia).
    rewrite E. reflexivity.
  - rewrite (terms_loop_more fuel fuel') by (rewrite ?E; cbn; congruence || lia).
    rewrite E. reflexivity.
  - cbn. congruence.
Qed.

Lemma parse_formula_more fuel : forall fuel' pos,
  fuel <= fuel' ->
  fst (parse_formula tokens fuel pos) <> Fuel ->
  parse_formula tokens fuel' pos = parse_formula tokens fuel pos.
Proof.
  induction fuel as [|fuel IH]; intros fuel' pos Hle.
  - cbn. congruence.
  - destruct fuel' as [|fuel']; [lia|].
    cbn [parse_formula]. unfold parse_quantifier, bind.
    repeat (
      try reflexivity;
      match goal with
      | |- context [_peek _ _] => rewrite !peek_eq
      | |- context [_consume _ None _] => rewrite !consume_any
      | |- context [_consume _ (Some _) _] =>
          rewrite !consume_expected by reflexivity
      | |- context [parse_formula tokens fuel ?p] =>
          let E := fresh "E" in
          destruct (parse_formula tokens fuel p) as [[?|?|] ?] eqn:E;
          [ rewrite (IH fuel' p) by (lia || (rewrite E; cbn; congruence));
            rewrite E
          | rewrite (IH fuel' p) by (lia || (rewrite E; cbn; congruence));
            rewrite E
          | cbn; congruence ]
      | |- context [parse_predicate tokens fuel ?p] =>
          apply parse_predicate_more; lia
      | |- context [match nth_error ?l ?p with _ => _ end] =>
          destruct (nth_error l p) eqn:?
      | |- context [if ?b then _ else _] => destruct b eqn:?
      end).
Qed.

(** Once the budget suffices, more of it changes nothing. *)
Lemma parse_formula_stable fuel fuel' pos :
  List.length tokens - pos < fuel -> fuel <= fuel' ->
  parse_formula tokens fuel' pos = parse_formula tokens fuel pos.
Proof.
  intros H1 H2. apply parse_formula_more; auto.
  now apply parse_formula_enough.
Qed.

End FuelMonotone.

(** ** Calls that leave the cursor where it was *)

Section NonAdvancing.

Variable tokens : list string.

Lemma parse_quantifier_cursor (callee : M Formula) pos :
  (forall p, cursor_ok tokens p (callee p)) ->
  cursor_ok tokens pos (parse_quantifier tokens callee pos).
Proof.
  intros Hc. unfold cursor_ok.
  run_formula; cbn [fst snd]; bounds;
    repeat match goal with
      | H : callee ?p = _ |- _ =>
          let Q := fresh in
          pose proof (Hc p) as Q; unfold cursor_ok in Q; rewrite H in Q;
          cbn [fst snd] in Q; destruct Q as (? & ? & ?); clear H
      | H : forall t, Ok ?x = Ok t -> _ |- _ => specialize (H _ eq_refl)
      end;
    repeat split; try lia; try congruence.
Qed.

Lemma parse_predicate_moves fuel pos t :
  nth_error tokens pos = Some t ->
  pos < snd (parse_predicate tokens fuel pos).
Proof.
  intros Ht.
  run_method; cbn [snd]; bounds; try congruence;
    try match goal with H : terms_loop _ _ _ _ = _ |- _ =>
          apply terms_loop_cursor in H; destruct H as (? & ? & ?) end;
    try lia.
Qed.

Lemma parse_formula_stuck fuel pos r :
  parse_formula tokens (S fuel) pos = (r, pos) ->
  exists e, r = Raise e /\ parse_formula tokens 1 pos = (Raise e, pos).
Proof.
  cbn [parse_formula].
  run_formula;
    try (intros [= <-]; eexists; split; reflexivity);
    try (intros H;
         match type of H with
         | parse_predicate _ _ _ = _ =>
             match goal with Ht : nth_error _ _ = Some _ |- _ =>
               pose proof (parse_predicate_moves fuel _ _ Ht) as Q;
               rewrite H in Q; cbn [snd] in Q; lia end
         end);
    repeat match goal with
      | H : parse_formula _ _ ?p = _ |- _ =>
          let Q := fresh in
          pose proof (parse_formula_cursor tokens fuel p) as Q;
          unfold cursor_ok in Q; rewrite H in Q; cbn [fst snd] in Q;
          destruct Q as (? & ? & ?); clear H
      end;
    try (intros [= ? ?]; bounds; lia).
Qed.

End NonAdvancing.

(** ** Strings *)

Lemma sapp_nil_r (s : string) : (s ++ "")%string = s.
Proof. induction s; cbn; congruence. Qed.

Lemma sapp_assoc (a b c : string) :
  ((a ++ b) ++ c)%string = (a ++ (b ++ c))%string.
Proof. induction a; cbn; congruence. Qed.

Lemma slength_app (a b : string) :
  String.length (a ++ b) = String.length a + String.length b.
Proof. induction a; cbn; auto. Qed.

Lemma str_forallb_app p (a b : string) :
  str_forallb p (a ++ b) = str_forallb p a && str_forallb p b.
Proof. induction a; cbn; auto. rewrite IHa. now rewrite andb_assoc. Qed.

Lemma visible_app (a b : string) :
  visible (a ++ b) = (visible a ++ visible b)%string.
Proof. induction a as [|c a IH]; cbn; auto. destruct (isspace c); cbn; congruence. Qed.

Lemma visible_blank (s : string) :
  str_forallb isspace s = true -> visible s = "".
Proof.
  induction s as [|c s IH]; cbn; auto.
  destruct (isspace c); cbn; auto. discriminate.
Qed.

(** ** Character classes *)

Ltac by_cases c :=
  destruct c as [[] [] [] [] [] [] [] []]; vm_compute; intuition congruence.

Lemma space_not_start c : isspace c = true -> start_char c = false.
Proof. by_cases c. Qed.

Lemma space_not_dash c : isspace c = true -> Ascii.eqb c "-"%char = false.
Proof. by_cases c. Qed.

Lemma space_not_upper c : isspace c = true -> isupper c = false.
Proof. by_cases c. Qed.

Lemma space_not_lower c : isspace c = true -> islower c = false.
Proof. by_cases c. Qed.

Lemma ascii_upper c : is_ascii c = true -> isupper c = upper_AZ c.
Proof. by_cases c. Qed.

Lemma ascii_lower c : is_ascii c = true -> islower c = lower_az c.
Proof. by_cases c. Qed.

Lemma lower_az_start c : lower_az c = true -> start_char c = true.
Proof. by_cases c. Qed.

Lemma upper_AZ_start c : upper_AZ c = true -> start_char c = true.
Proof. by_cases c. Qed.

(** ** The pattern *)

Lemma span_spec p s a b :
  span p s = (a, b) ->
  s = (a ++ b)%string /\ str_forallb p a = true
  /\ match b with String c _ => p c = false | EmptyString => True end.
Proof.
  revert a b. induction s as [|c s IH]; cbn; intros a b.
  - intros [= <- <-]. auto.
  - destruct (p c) eqn:Ep.
    + destruct (span p s) as [a' b'] eqn:E. intros [= <- <-].
      destruct (IH _ _ eq_refl) as (-> & Ha & Hb). cbn. rewrite Ep. auto.
    + intros [= <- <-]. cbn. auto.
Qed.

Lemma span_head_false p c r : p c = false -> span p (String c r) = ("", String c r).
Proof. intros H. cbn. now rewrite H. Qed.

Lemma span_head_true p c r :
  p c = true -> snd (span p (String c r)) = snd (span p r).
Proof. intros H. cbn. rewrite H. now destruct (span p r). Qed.

Lemma span_idem p s : snd (span p (snd (span p s))) = snd (span p s).
Proof.
  induction s as [|c s IH]; cbn; auto.
  destruct (p c) eqn:E.
  - destruct (span p s) as [a b]. exact IH.
  - cbn. now rewrite E.
Qed.

Lemma span_length p s : String.length (snd (span p s)) <= String.length s.
Proof.
  induction s as [|c s IH]; cbn; auto.
  destruct (p c); cbn; auto. destruct (span p s). cbn in *. lia.
Qed.

Lemma span_blank s r :
  str_forallb isspace s = true ->
  snd (span isspace (s ++ r)) = snd (span isspace r).
Proof.
  induction s as [|c s IH]; auto.
  intros H. cbn in H. apply andb_prop in H. destruct H as [Hc Hs].
  change (String c s ++ r)%string with (String c (s ++ r)).
  rewrite span_head_true by auto. auto.
Qed.

Lemma match_group_opens s :
  match_group s = None <-> opens s = false.
Proof.
  destruct s as [|c r]; cbn; [tauto|].
  unfold start_char.
  destruct (Ascii.eqb c "(") eqn:E1; cbn; [split; discriminate|].
  destruct (Ascii.eqb c ")") eqn:E2; cbn; [split; discriminate|].
  destruct (lower_az c) eqn:E3; cbn;
    [destruct (span ident_tail_lower r); split; discriminate|].
  destruct (upper_AZ c) eqn:E4; cbn;
    [destruct (span ident_tail_upper r); split; discriminate|].
  destruct (Ascii.eqb c "~") eqn:E5; cbn; [split; discriminate|].
  destruct (Ascii.eqb c "&") eqn:E6; cbn; [split; discriminate|].
  destruct (Ascii.eqb c "|") eqn:E7; cbn; [split; discriminate|].
  destruct (Ascii.eqb c "-") eqn:E8; cbn.
  - apply Ascii.eqb_eq in E8. subst c. cbn.
    destruct r as [|d r']; [tauto|].
    destruct (Ascii.eqb d ">"); split; congruence.
  - destruct (Ascii.eqb c ".") eqn:E9; cbn; [split; discriminate|].
    destruct (Ascii.eqb c ",") eqn:E10; cbn; [split; discriminate|].
    tauto.
Qed.

(** What a match of the group captures. *)
Lemma match_group_spec s tok rest :
  match_group s = Some (tok, rest) ->
  s = (tok ++ rest)%string /\ legal_token tok = true.
Proof.
  destruct s as [|c r]; cbn; [discriminate|].
  repeat match goal with
    | |- context [if Ascii.eqb c ?x then _ else _] =>
        let E := fresh "E" in
        destruct (Ascii.eqb c x) eqn:E;
        [ apply Ascii.eqb_eq in E; subst c; cbn;
          try (intros [= <- <-]; split; reflexivity) | ]
    | |- context [if ?b then _ else _] =>
        let E := fresh "E" in destruct b eqn:E
    end; try discriminate.
  - destruct r as [|d r']; [discriminate|].
    destruct (Ascii.eqb d ">") eqn:Ed; [|discriminate].
    apply Ascii.eqb_eq in Ed. subst d. intros [= <- <-]. split; reflexivity.
  - destruct (span ident_tail_lower r) as [run rest'] eqn:Es.
    intros [= <- <-]. apply span_spec in Es. destruct Es as (-> & Hr & _).
    split; auto. unfold legal_token, lower_ident.
    match goal with H : lower_az c = true |- _ => rewrite H end.
    rewrite Hr. cbn. now rewrite orb_true_r.
  - destruct (span ident_tail_upper r) as [run rest'] eqn:Es.
    intros [= <- <-]. apply span_spec in Es. destruct Es as (-> & Hr & _).
    split; auto. unfold legal_token, upper_ident.
    match goal with H : upper_AZ c = true |- _ => rewrite H end.
    rewrite Hr. cbn. now rewrite !orb_true_r.
Qed.

Lemma match_at_spec s tok rest :
  match_at s = Some (tok, rest) ->
  exists w1 w2,
    s = (w1 ++ tok ++ w2 ++ rest)%string
    /\ str_forallb isspace w1 = true /\ str_forallb isspace w2 = true
    /\ legal_token tok = true
    /\ match_group (tok ++ w2 ++ rest) = Some (tok, (w2 ++ rest)%string)
    /\ snd (span isspace rest) = rest.
Proof.
  unfold match_at.
  destruct (span isspace s) as [w1 s1] eqn:E1. cbn [snd].
  destruct (match_group s1) as [[tok' rest1]|] eqn:Eg; [|discriminate].
  destruct (span isspace rest1) as [w2 rest2] eqn:E2. cbn [snd].
  intros [= <- <-].
  apply span_spec in E1. destruct E1 as (-> & Hw1 & _).
  pose proof (match_group_spec _ _ _ Eg) as (-> & Hl).
  pose proof (span_spec _ _ _ _ E2) as (-> & Hw2 & Hh).
  exists w1, w2. repeat split; auto.
  destruct rest2 as [|c r]; cbn; auto. now rewrite Hh.
Qed.

(** ** [re.split] *)

Lemma legal_token_nonempty t : legal_token t = true -> nonempty t = true.
Proof. destruct t; [discriminate|reflexivity]. Qed.

Lemma match_at_shorter s tok rest :
  match_at s = Some (tok, rest) -> String.length rest < String.length s.
Proof.
  intros H. apply match_at_spec in H.
  destruct H as (w1 & w2 & -> & _ & _ & Hl & _).
  apply legal_token_nonempty in Hl. destruct tok; [discriminate|].
  rewrite !slength_app. cbn. lia.
Qed.

(** The budget [re_split] hands out is enough, and more changes nothing. *)
Lemma split_loop_fuel fuel : forall fuel' gap s,
  String.length s < fuel -> String.length s < fuel' ->
  split_loop fuel gap s = split_loop fuel' gap s.
Proof.
  induction fuel as [|fuel IH]; intros fuel' gap s H1 H2; [lia|].
  destruct fuel' as [|fuel']; [lia|]. cbn.
  destruct (match_at s) as [[tok rest]|] eqn:E.
  - apply match_at_shorter in E. f_equal. f_equal. apply IH; lia.
  - destruct s as [|c r]; auto. cbn in *. apply IH; lia.
Qed.

Lemma opens_two c d r : opens (String c (String d r)) = opens (String c (String d "")).
Proof. reflexivity. Qed.

Lemma match_at_none_opens c s :
  match_at (String c s) = None ->
  opens (String c (match s with String d _ => String d "" | EmptyString => "" end))
  = false.
Proof.
  unfold match_at. intros H.
  destruct (isspace c) eqn:Ec.
  - cbn. rewrite (space_not_start _ Ec), (space_not_dash _ Ec). reflexivity.
  - rewrite span_head_false in H by auto. cbn [snd] in H.
    destruct (match_group (String c s)) as [[? ?]|] eqn:Eg; [discriminate|].
    apply match_group_opens in Eg. destruct s; exact Eg.
Qed.

Lemma match_at_skip c s :
  isspace c = true -> match_at (String c s) = match_at s.
Proof. intros H. unfold match_at. now rewrite span_head_true. Qed.

Lemma last_char_snoc g d : last_char (g ++ String d "") = Some d.
Proof.
  induction g as [|c g IH]; cbn; auto.
  destruct (g ++ String d "")%string eqn:E; auto.
  destruct g; discriminate.
Qed.

Lemma unmatched_snoc g d :
  unmatched g = true ->
  opens (String d "") = false ->
  (forall c, last_char g = Some c -> opens (String c (String d "")) = false) ->
  unmatched (g ++ String d "") = true.
Proof.
  induction g as [|c g IH]; intros Hg Hd Hl.
  - cbn [append unmatched]. now rewrite Hd.
  - cbn [append]. cbn [unmatched] in *. apply andb_prop in Hg. destruct Hg as [Hc Hg].
    rewrite IH; auto.
    + rewrite andb_true_r. destruct g as [|c' g'].
      * cbn [append]. rewrite (Hl c); auto.
      * cbn [append]. rewrite opens_two. rewrite <- (opens_two c c' g'). exact Hc.
    + intros c' Hc'. apply Hl. cbn. destruct g; [discriminate|exact Hc'].
Qed.

Lemma split_loop_pieces fuel : forall gap s,
  String.length s < fuel ->
  unmatched gap = true ->
  (forall c, last_char gap = Some c -> match_at (String c s) = None) ->
  pieces_ok (split_loop fuel gap s).
Proof.
  induction fuel as [|fuel IH]; intros gap s Hlen Hg Hl; [lia|].
  cbn. destruct (match_at s) as [[tok rest]|] eqn:E.
  - pose proof (match_at_shorter _ _ _ E) as Hs.
    pose proof (match_at_spec _ _ _ E) as (w1 & w2 & _ & _ & _ & Ht & _).
    constructor; auto.
    + unfold ends_visible. destruct (last_char gap) as [c|] eqn:Ec; auto.
      destruct (isspace c) eqn:Es; auto.
      specialize (Hl c eq_refl). rewrite match_at_skip in Hl by auto. congruence.
    + apply IH; auto; try lia. intros c. cbn. discriminate.
  - destruct s as [|d r].
    + now constructor.
    + cbn in Hlen. apply IH; try lia.
      * apply unmatched_snoc; auto.
        -- apply match_at_none_opens in E. destruct r; cbn in *; auto.
           rewrite orb_false_iff in E. destruct E as [-> _].
           now rewrite andb_false_r.
        -- intros c Hc. apply Hl in Hc. apply match_at_none_opens in Hc. exact Hc.
      * intros c Hc. rewrite last_char_snoc in Hc. injection Hc as <-. exact E.
Qed.

Lemma re_split_pieces s : pieces_ok (re_split s).
Proof.
  unfold re_split. apply split_loop_pieces; auto. intros c. cbn. discriminate.
Qed.

Lemma concat_all_app (a b : list string) :
  concat_all (a ++ b) = (concat_all a ++ concat_all b)%string.
Proof.
  induction a as [|x a IH]; auto.
  cbn [app]. unfold concat_all in *. cbn [fold_right].
  now rewrite IH, sapp_assoc.
Qed.

Lemma concat_all_cons t l : concat_all (t :: l) = (t ++ concat_all l)%string.
Proof. reflexivity. Qed.

Lemma split_loop_visible fuel : forall gap s,
  String.length s < fuel ->
  visible (concat_all (split_loop fuel gap s)) = visible (gap ++ s).
Proof.
  induction fuel as [|fuel IH]; intros gap s Hlen; [lia|].
  cbn. destruct (match_at s) as [[tok rest]|] eqn:E.
  - pose proof (match_at_shorter _ _ _ E) as Hs.
    pose proof (match_at_spec _ _ _ E) as (w1 & w2 & -> & H1 & H2 & _).
    cbn. rewrite !visible_app, IH by lia. cbn.
    now rewrite (visible_blank w1), (visible_blank w2) by auto.
  - destruct s as [|d r]; cbn.
    + now rewrite sapp_nil_r.
    + cbn in Hlen. rewrite IH by lia. now rewrite sapp_assoc.
Qed.

Lemma split_loop_chars (P : ascii -> bool) fuel : forall gap s,
  str_forallb P gap = true -> str_forallb P s = true ->
  List.Forall (fun t => str_forallb P t = true) (split_loop fuel gap s).
Proof.
  induction fuel as [|fuel IH]; intros gap s Hg Hs; cbn.
  - repeat constructor. auto.
  - destruct (match_at s) as [[tok rest]|] eqn:E.
    + pose proof (match_at_spec _ _ _ E) as (w1 & w2 & -> & _).
      rewrite !str_forallb_app in Hs.
      repeat (apply andb_prop in Hs; destruct Hs as [? Hs]).
      repeat constructor; auto.
    + destruct s as [|d r].
      * repeat constructor. auto.
      * cbn in Hs. apply andb_prop in Hs. destruct Hs as [Hd Hr].
        apply IH; auto. rewrite str_forallb_app, Hg. cbn. now rewrite Hd.
Qed.

Lemma keep_false_visible t : keep t = false -> visible t = "".
Proof.
  unfold keep, str_isspace. destruct t as [|c t]; auto.
  cbn [nonempty andb]. intros H. apply negb_false_iff in H.
  now apply visible_blank.
Qed.

Lemma filter_keep_visible l :
  visible (concat_all (filter keep l)) = visible (concat_all l).
Proof.
  induction l as [|t l IH]; auto.
  cbn [filter]. destruct (keep t) eqn:E;
    rewrite ?concat_all_cons, ?visible_app, IH; auto.
  now rewrite (keep_false_visible t E).
Qed.

Lemma replace_visible old new s :
  isspace old = false -> visible new = String old "" ->
  visible (replace old new s) = visible s.
Proof.
  intros Ho Hn. induction s as [|c s IH]; cbn; auto.
  destruct (Ascii.eqb_spec c old) as [->|Hne].
  - rewrite visible_app, Hn, IH, Ho. reflexivity.
  - cbn. now rewrite IH.
Qed.

Lemma replace_chars (P : ascii -> bool) old new s :
  str_forallb P new = true -> str_forallb P s = true ->
  str_forallb P (replace old new s) = true.
Proof.
  intros Hn. induction s as [|c s IH]; cbn; auto.
  intros H. apply andb_prop in H. destruct H as [Hc Hs].
  destruct (Ascii.eqb c old).
  - rewrite str_forallb_app, Hn. auto.
  - cbn. rewrite Hc. auto.
Qed.

Lemma replace_app old new a b :
  replace old new (a ++ b) = (replace old new a ++ replace old new b)%string.
Proof.
  induction a as [|c a IH]; cbn; auto.
  destruct (Ascii.eqb c old); cbn; rewrite IH; auto. now rewrite sapp_assoc.
Qed.

(** ** What the tokenizer returns *)

Lemma legal_token_keep t : legal_token t = true -> keep t = true.
Proof.
  intros H. unfold keep. rewrite (legal_token_nonempty _ H). cbn.
  apply negb_true_iff. unfold str_isspace. rewrite (legal_token_nonempty _ H). cbn.
  destruct t as [|c t]; [discriminate|]. cbn.
  destruct (isspace c) eqn:Ec; auto. exfalso.
  unfold legal_token, punct, lower_ident, upper_ident in H.
  revert H Ec. clear. intros H Ec.
  assert (Hs : start_char c = false) by now apply space_not_start.
  assert (Hd : Ascii.eqb c "-"%char = false) by now apply space_not_dash.
  apply orb_prop in H. destruct H as [H|H]; [apply orb_prop in H; destruct H as [H|H]|].
  - cbn in H. unfold start_char in Hs.
    repeat (apply orb_false_iff in Hs; destruct Hs as [Hs ?]).
    repeat match goal with
      | E : Ascii.eqb c _ = false |- _ => rewrite E in H; clear E
      end.
    discriminate.
  - apply andb_prop in H. destruct H as [H _].
    apply lower_az_start in H. congruence.
  - apply andb_prop in H. destruct H as [H _].
    apply upper_AZ_start in H. congruence.
Qed.

Lemma tokenize_shapes text :
  List.Forall (fun t => legal_token t = true \/ unmatched_run t = true)
    (_tokenize text).
Proof.
  unfold _tokenize.
  set (s := replace _ _ _). pose proof (re_split_pieces s) as H.
  induction H as [gap Hg|gap tok rest Hg Hv Ht Hr IH]; cbn [filter].
  - destruct (keep gap) eqn:Ek; constructor; [|constructor].
    right. unfold unmatched_run. now rewrite Ek, Hg.
  - rewrite (legal_token_keep _ Ht).
    destruct (keep gap) eqn:Ek.
    + constructor; [|constructor; auto].
      right. unfold unmatched_run. now rewrite Ek, Hg.
    + constructor; auto.
Qed.

Lemma tokenize_visible text :
  visible (concat_all (_tokenize text)) = visible text.
Proof.
  unfold _tokenize, re_split. rewrite filter_keep_visible, split_loop_visible by lia.
  cbn [append]. now rewrite !replace_visible by reflexivity.
Qed.

(** ** Where the names of a parsed formula come from *)

Section NamesFromTokens.

Variable tokens : list string.
Variables Pv Pc Pp Pb : string -> bool.

(** A name is a token that is not the last one. *)
Hypothesis term_lower : forall i t,
  nth_error tokens i = Some t -> S i < List.length tokens ->
  head_islower t = true -> Pv t = true.
Hypothesis term_upper : forall i t,
  nth_error tokens i = Some t -> S i < List.length tokens ->
  head_islower t = false -> head_isupper t = true -> Pc t = true.
Hypothesis bound_lower : forall i t,
  nth_error tokens i = Some t -> S i < List.length tokens ->
  str_islower t = true -> Pb t = true.
Hypothesis pred_upper : forall i t,
  nth_error tokens i = Some t -> S i < List.length tokens ->
  head_isupper t = true -> Pp t = true.

Lemma terms_loop_names fuel : forall terms pos ts p,
  forallb (names_sat Pv Pc Pp Pb) terms = true ->
  terms_loop tokens fuel terms pos = (Ok ts, p) ->
  forallb (names_sat Pv Pc Pp Pb) ts = true.
Proof.
  induction fuel as [|fuel IH]; intros terms pos ts p Hacc; [discriminate|].
  cbn [terms_loop].
  run_method; try discriminate;
    try (intros [= <- <-]); try (intros H; eapply IH in H; [exact H|]);
    rewrite forallb_app; rewrite Hacc; cbn; rewrite andb_true_r;
    match goal with
    | H : nth_error tokens pos = Some _ |- _ =>
        first [ eapply term_lower | eapply term_upper ]; eauto; bounds; lia
    end.
Qed.

Lemma parse_predicate_names fuel pos name f p :
  nth_error tokens pos = Some name -> head_isupper name = true ->
  parse_predicate tokens fuel pos = (Ok f, p) ->
  names_sat Pv Pc Pp Pb f = true.
Proof.
  intros En Hu. unfold parse_predicate.
  run_formula; try discriminate; intros [= <- <-]; cbn [names_sat forallb];
    apply andb_true_intro; split; auto;
    try (eapply pred_upper; eauto; bounds; lia).
  eapply terms_loop_names; [|eassumption]. reflexivity.
Qed.

Lemma parse_formula_names fuel : forall pos f p,
  parse_formula tokens fuel pos = (Ok f, p) ->
  names_sat Pv Pc Pp Pb f = true.
Proof.
  induction fuel as [|fuel IH]; intros pos f p; [discriminate|].
  cbn [parse_formula].
  run_formula; try discriminate;
    try (intros [= <- <-]; cbn [names_sat bound_sat];
         repeat match goal with
           | H : parse_formula _ _ _ = (Ok _, _) |- _ =>
               apply IH in H; rewrite H
           end; cbn [andb]; auto).
  all: try (match goal with H : _ && _ = true |- _ =>
              apply andb_prop in H; destruct H end;
            intros; eapply parse_predicate_names; eauto).
  all: try (rewrite andb_true_r; eapply bound_lower; eauto;
            [ bounds; lia
            | match goal with H : negb _ = false |- _ =>
                now apply negb_false_iff in H end ]).
Qed.

End NamesFromTokens.

(** ** Terms stay in term lists *)

Section Proper.

Variable tokens : list string.

Lemma terms_loop_terms fuel : forall terms pos ts p,
  forallb is_term terms = true ->
  terms_loop tokens fuel terms pos = (Ok ts, p) ->
  forallb is_term ts = true.
Proof.
  induction fuel as [|fuel IH]; intros terms pos ts p Hacc; [discriminate|].
  cbn [terms_loop].
  run_method; try discriminate;
    try (intros [= <- <-]); try (intros H; eapply IH in H; [exact H|]);
    rewrite forallb_app, Hacc; reflexivity.
Qed.

Lemma parse_predicate_proper fuel pos f p :
  parse_predicate tokens fuel pos = (Ok f, p) -> proper f = true.
Proof.
  unfold parse_predicate.
  run_formula; try discriminate; intros [= <- <-]; cbn [proper forallb]; auto.
  eapply terms_loop_terms; [|eassumption]. reflexivity.
Qed.

Lemma parse_formula_proper fuel : forall pos f p,
  parse_formula tokens fuel pos = (Ok f, p) -> proper f = true.
Proof.
  induction fuel as [|fuel IH]; intros pos f p; [discriminate|].
  cbn [parse_formula].
  run_formula; try discriminate;
    try (intros [= <- <-]; cbn [proper is_variable];
         repeat match goal with
           | H : parse_formula _ _ _ = (Ok _, _) |- _ =>
               apply IH in H; rewrite H
           end; reflexivity).
  apply parse_predicate_proper.
Qed.

End Proper.

(** ** Tokens of ASCII text *)

Lemma tokenize_chars (P : ascii -> bool) text :
  str_forallb P " ()." = true -> str_forallb P text = true ->
  List.Forall (fun t => str_forallb P t = true) (_tokenize text).
Proof.
  intros Hsp Ht. unfold _tokenize.
  apply Forall_forall. intros t Hin. apply filter_In in Hin.
  destruct Hin as [Hin _]. revert t Hin. apply Forall_forall.
  cbn in Hsp. repeat (apply andb_prop in Hsp; destruct Hsp as [? Hsp]).
  apply split_loop_chars; auto.
  repeat (apply replace_chars; [cbn; repeat (apply andb_true_intro; split; auto)|]).
  exact Ht.
Qed.

Lemma unmatched_no_letter t :
  unmatched t = true -> str_forallb is_ascii t = true ->
  str_existsb isupper t = false /\ str_existsb islower t = false.
Proof.
  induction t as [|c t IH]; [auto|].
  cbn [unmatched str_forallb str_existsb]. intros H1 H2.
  apply andb_prop in H1. destruct H1 as [Ho Hu].
  apply andb_prop in H2. destruct H2 as [Hc Ha].
  destruct (IH Hu Ha) as [-> ->]. rewrite !orb_false_r.
  apply negb_true_iff in Ho. cbn [opens] in Ho.
  apply orb_false_iff in Ho. destruct Ho as [Hs _].
  rewrite (ascii_upper _ Hc), (ascii_lower _ Hc).
  split.
  - destruct (upper_AZ c) eqn:E; auto. apply upper_AZ_start in E. congruence.
  - destruct (lower_az c) eqn:E; auto. apply lower_az_start in E. congruence.
Qed.

Lemma lower_az_not_upper c : lower_az c = true -> isupper c = false.
Proof. by_cases c. Qed.

Lemma lower_az_lower c : lower_az c = true -> islower c = true.
Proof. by_cases c. Qed.

Lemma upper_AZ_upper c : upper_AZ c = true -> isupper c = true.
Proof. by_cases c. Qed.

Lemma upper_AZ_not_lower c : upper_AZ c = true -> islower c = false.
Proof. by_cases c. Qed.

Lemma punct_cases t :
  punct t = true ->
  List.In t ["("; ")"; "."; ","; "~"; "&"; "|"; "->"].
Proof.
  unfold punct. intros H. apply existsb_exists in H.
  destruct H as (x & Hin & Hx). apply String.eqb_eq in Hx. now subst.
Qed.

Lemma punct_no_letter t :
  punct t = true ->
  str_existsb isupper t = false /\ str_existsb islower t = false.
Proof.
  intros H. apply punct_cases in H. cbn in H.
  repeat (destruct H as [<-|H]; [split; reflexivity|]). contradiction.
Qed.

(** On ASCII text the parser's tests on a token decide its shape. *)
Lemma ascii_token_shapes t :
  (legal_token t = true \/ unmatched_run t = true) ->
  str_forallb is_ascii t = true ->
  (head_islower t = true -> lower_ident t = true)
  /\ (head_isupper t = true -> upper_ident t = true)
  /\ (str_islower t = true -> lower_ident t = true).
Proof.
  intros [H|H] Ha.
  - unfold legal_token in H.
    apply orb_prop in H. destruct H as [H|H]; [apply orb_prop in H; destruct H as [H|H]|].
    + apply punct_no_letter in H. destruct H as [Hu Hl].
      unfold str_islower. rewrite Hl, andb_false_r.
      destruct t as [|c t]; cbn in *; repeat split; try discriminate.
      * apply orb_false_iff in Hl. destruct Hl as [-> _]. discriminate.
      * apply orb_false_iff in Hu. destruct Hu as [-> _]. discriminate.
    + repeat split; auto.
      destruct t as [|c t]; cbn in *; [discriminate|].
      apply andb_prop in H. destruct H as [H _].
      rewrite (lower_az_not_upper _ H). discriminate.
    + destruct t as [|c t]; cbn in H; [discriminate|].
      pose proof H as H'. apply andb_prop in H'. destruct H' as [Hc _].
      unfold str_islower. cbn [head_islower head_isupper str_existsb upper_ident].
      rewrite (upper_AZ_not_lower _ Hc), (upper_AZ_upper _ Hc). cbn.
      repeat split; auto; discriminate.
  - unfold unmatched_run in H. apply andb_prop in H. destruct H as [_ H].
    destruct (unmatched_no_letter t H Ha) as [Hu Hl].
    unfold str_islower. rewrite Hl, andb_false_r.
    destruct t as [|c t]; cbn in *; repeat split; try discriminate.
    + apply orb_false_iff in Hl. destruct Hl as [-> _]. discriminate.
    + apply orb_false_iff in Hu. destruct Hu as [-> _]. discriminate.
Qed.

(** ** What a raised error says *)


Section Failures.

Variable tokens : list string.








End Failures.

(** ** Tokens that are followed by a token *)

Lemma all_but_last_cons {A} (P : A -> Prop) x l :
  P x -> all_but_last P l -> all_but_last P (x :: l).
Proof. intros Hx Hl. cbn. destruct l; auto. Qed.

Lemma all_but_last_nth {A} (P : A -> Prop) l :
  all_but_last P l ->
  forall i x, nth_error l i = Some x -> S i < List.length l -> P x.
Proof.
  induction l as [|y l IH]; intros H i x Hi Hlen.
  - destruct i; discriminate.
  - destruct l as [|z l]; [cbn in Hlen; lia|].
    destruct H as [Hy Hl]. destruct i as [|i].
    + injection Hi as <-. exact Hy.
    + apply (IH Hl i x Hi). cbn in *. lia.
Qed.

Lemma pieces_inner l :
  pieces_ok l -> all_but_last (fun t => inner t = true) (filter keep l).
Proof.
  induction 1 as [gap Hg|gap tok rest Hg Hv Ht Hr IH]; cbn [filter].
  - destruct (keep gap); cbn; auto.
  - rewrite (legal_token_keep _ Ht).
    assert (Htok : all_but_last (fun t => inner t = true)
                     (tok :: filter keep rest)).
    { apply all_but_last_cons; auto. unfold inner. now rewrite Ht. }
    destruct (keep gap); auto.
    apply all_but_last_cons; auto.
    unfold inner. rewrite Hg, Hv. now rewrite orb_true_r.
Qed.

Lemma tokenize_inner text i t :
  nth_error (_tokenize text) i = Some t ->
  S i < List.length (_tokenize text) ->
  inner t = true.
Proof.
  apply (all_but_last_nth (fun t => inner t = true)).
  unfold _tokenize. apply pieces_inner. apply re_split_pieces.
Qed.

Lemma parsed_names text f :
  FOLParser_parse text = Ok f -> names_parsed f = true.
Proof.
  unfold FOLParser_parse, run_parse, parse.
  run_formula; cbn [fst]; try discriminate. intros [= <-].
  unfold names_parsed.
  eapply parse_formula_names; [| | | |eassumption];
    intros i t Hi Hlen; pose proof (tokenize_inner _ _ _ Hi Hlen) as Hin;
    unfold var_name, const_name, pred_name; rewrite ?Hin; cbn.
  - auto.
  - intros -> ->. reflexivity.
  - auto.
  - auto.
Qed.

(** ** Tokenizing text piece by piece *)

Lemma tokenize_lex text : _tokenize text = lex (replace3 text).
Proof. reflexivity. Qed.

Lemma lex_match s tok rest :
  match_at s = Some (tok, rest) -> lex s = tok :: lex rest.
Proof.
  intros E. unfold lex, re_split. cbn [split_loop]. rewrite E.
  pose proof (match_at_shorter _ _ _ E) as Hs.
  pose proof (match_at_spec _ _ _ E) as (_ & _ & _ & _ & _ & Ht & _).
  cbn [filter]. change (keep "") with false. cbv iota.
  rewrite (legal_token_keep _ Ht).
  rewrite (split_loop_fuel (String.length s) (S (String.length rest))) by lia.
  reflexivity.
Qed.

Lemma split_loop_gap g : forall fuel acc s,
  no_match_in g s ->
  split_loop (String.length g + fuel) acc (g ++ s)
  = split_loop fuel (acc ++ g) s.
Proof.
  induction g as [|c g IH]; intros fuel acc s H.
  - cbn. now rewrite sapp_nil_r.
  - destruct H as [Hc Hg]. cbn [String.length Nat.add split_loop].
    rewrite Hc. cbn [append]. rewrite IH by auto.
    now rewrite sapp_assoc.
Qed.

Lemma lex_gap g s tok rest :
  keep g = true -> no_match_in g s ->
  match_at s = Some (tok, rest) ->
  lex (g ++ s) = g :: tok :: lex rest.
Proof.
  intros Hk Hg E. unfold lex at 1. unfold re_split.
  rewrite slength_app.
  replace (S (String.length g + String.length s))
    with (String.length g + S (String.length s)) by lia.
  rewrite split_loop_gap by auto. cbn [append split_loop]. rewrite E.
  pose proof (match_at_shorter _ _ _ E) as Hs.
  pose proof (match_at_spec _ _ _ E) as (_ & _ & _ & _ & _ & Ht & _).
  cbn [filter]. rewrite Hk, (legal_token_keep _ Ht).
  rewrite (split_loop_fuel (String.length s) (S (String.length rest))) by lia.
  reflexivity.
Qed.

Lemma match_at_skip_space s : match_at (skip_space s) = match_at s.
Proof. unfold match_at, skip_space. now rewrite span_idem. Qed.

Lemma headed_match s x : match_at s = Some x -> headed s.
Proof.
  destruct x as [tok rest]. intros E. unfold headed.
  rewrite (lex_match _ _ _ E).
  apply lex_match. now rewrite match_at_skip_space.
Qed.

Lemma headed_visible c r : isspace c = false -> headed (String c r).
Proof. intros H. unfold headed, skip_space. now rewrite span_head_false. Qed.

Lemma headed_empty : headed "".
Proof. reflexivity. Qed.

Lemma skip_space_blank w s :
  str_forallb isspace w = true -> skip_space (w ++ s) = skip_space s.
Proof. apply span_blank. Qed.

(** A punctuation token with blanks around it. *)
Lemma lex_punct w1 p w2 s :
  str_forallb isspace w1 = true -> str_forallb isspace w2 = true ->
  match_group (p ++ w2 ++ s) = Some (p, (w2 ++ s)%string) ->
  headed s ->
  match_at (w1 ++ p ++ w2 ++ s) = Some (p, skip_space s)
  /\ lex (w1 ++ p ++ w2 ++ s) = p :: lex s.
Proof.
  intros H1 H2 Hg Hs.
  assert (E : match_at (w1 ++ p ++ w2 ++ s) = Some (p, skip_space s)).
  { unfold match_at. rewrite span_blank by auto.
    pose proof (match_group_spec _ _ _ Hg) as (_ & Hl).
    apply legal_token_keep in Hl.
    assert (Hsk : snd (span isspace (p ++ w2 ++ s)) = (p ++ w2 ++ s)%string).
    { destruct p as [|c p]; [discriminate|]. cbn [append].
      destruct (isspace c) eqn:Ec.
      - exfalso. cbn [append] in Hg.
        assert (Ho : opens (String c (p ++ w2 ++ s)) = false).
        { cbn. now rewrite (space_not_start _ Ec), (space_not_dash _ Ec). }
        apply match_group_opens in Ho. congruence.
      - now rewrite span_head_false. }
    rewrite Hsk, Hg. unfold skip_space. now rewrite span_blank. }
  split; auto. rewrite (lex_match _ _ _ E). f_equal. exact Hs.
Qed.

(** ** A name in front of a delimiter *)

Lemma delim_facts d :
  delim d = true ->
  ident_tail_lower d = false /\ ident_tail_upper d = false
  /\ Ascii.eqb d ">"%char = false.
Proof. by_cases d. Qed.

Lemma lower_az_not_paren c :
  lower_az c = true ->
  Ascii.eqb c "("%char = false /\ Ascii.eqb c ")"%char = false.
Proof. by_cases c. Qed.

Lemma upper_AZ_not_paren c :
  upper_AZ c = true ->
  Ascii.eqb c "("%char = false /\ Ascii.eqb c ")"%char = false
  /\ lower_az c = false.
Proof. by_cases c. Qed.

Lemma lower_az_group c r :
  lower_az c = true ->
  match_group (String c r)
  = let (run, rest) := span ident_tail_lower r in Some (String c run, rest).
Proof.
  intros H. destruct (lower_az_not_paren c H) as [H1 H2].
  unfold match_group. now rewrite H1, H2, H.
Qed.

Lemma upper_AZ_group c r :
  upper_AZ c = true ->
  match_group (String c r)
  = let (run, rest) := span ident_tail_upper r in Some (String c run, rest).
Proof.
  intros H. destruct (upper_AZ_not_paren c H) as (H1 & H2 & H3).
  unfold match_group. now rewrite H1, H2, H3, H.
Qed.

Lemma lower_az_visible c : lower_az c = true -> isspace c = false.
Proof. by_cases c. Qed.

Lemma upper_AZ_visible c : upper_AZ c = true -> isspace c = false.
Proof. by_cases c. Qed.

Lemma upper_visible c : isupper c = true -> isspace c = false.
Proof. by_cases c. Qed.

Lemma lower_visible c : islower c = true -> isspace c = false.
Proof. by_cases c. Qed.

Lemma span_stop p a d r :
  str_forallb p a = true -> p d = false ->
  span p (a ++ String d r) = (a, String d r).
Proof.
  intros Ha Hd. induction a as [|c a IH]; cbn.
  - now rewrite Hd.
  - cbn in Ha. apply andb_prop in Ha. destruct Ha as [Hc Ha].
    rewrite Hc, IH; auto.
Qed.

Lemma name_cases n :
  inner n = true -> head_isupper n = true \/ head_islower n = true ->
  lower_ident n = true \/ upper_ident n = true
  \/ (unmatched n = true /\ ends_visible n = true).
Proof.
  unfold inner, legal_token. intros H Hh.
  apply orb_prop in H. destruct H as [H|H].
  - apply orb_prop in H. destruct H as [H|H]; auto.
    apply orb_prop in H. destruct H as [H|H]; auto.
    apply punct_no_letter in H. destruct H as [Hu Hl].
    destruct n as [|c n]; cbn in *; [destruct Hh; discriminate|].
    apply orb_false_iff in Hu, Hl. destruct Hu as [Hu _], Hl as [Hl _].
    destruct Hh; congruence.
  - apply andb_prop in H. auto.
Qed.

Lemma unmatched_no_match u s :
  unmatched u = true -> ends_visible u = true ->
  match s with String d _ => Ascii.eqb d ">"%char = false | EmptyString => True end ->
  no_match_in u s.
Proof.
  intros Hu Hv Hs. induction u as [|c u IH]; [exact I|].
  cbn [unmatched] in Hu. apply andb_prop in Hu. destruct Hu as [Ho Hu].
  apply negb_true_iff in Ho.
  assert (Hv' : ends_visible u = true).
  { unfold ends_visible in *. cbn [last_char] in Hv. destruct u; auto. }
  specialize (IH Hu Hv'). split; auto.
  cbn [append]. destruct (isspace c) eqn:Ec.
  - rewrite match_at_skip by auto.
    destruct u as [|c' u]; [|apply IH].
    unfold ends_visible in Hv. cbn in Hv. now rewrite Ec in Hv.
  - unfold match_at. rewrite span_head_false by auto. cbn [snd].
    assert (E : match_group (String c (u ++ s)) = None).
    { apply match_group_opens. destruct u as [|c' u].
      - cbn [append]. cbn [opens] in *. rewrite orb_false_iff in Ho.
        destruct Ho as [-> _]. cbn [orb].
        destruct s as [|d s]; [now rewrite andb_false_r|].
        now rewrite Hs, andb_false_r.
      - exact Ho. }
    now rewrite E.
Qed.

Lemma head_letter_keep n :
  head_isupper n = true \/ head_islower n = true -> keep n = true.
Proof.
  destruct n as [|c n]; cbn; [intros [H|H]; discriminate|].
  intros H. unfold keep, str_isspace. cbn.
  assert (Hc : isspace c = false).
  { destruct H; [now apply upper_visible | now apply lower_visible]. }
  now rewrite Hc.
Qed.

Lemma lex_name n s tok rest :
  inner n = true -> head_isupper n = true \/ head_islower n = true ->
  delim_head s = true ->
  match_at s = Some (tok, rest) ->
  lex (n ++ s) = n :: tok :: lex rest.
Proof.
  intros Hin Hh Hd E.
  destruct s as [|d s]; [discriminate|]. cbn in Hd.
  destruct (delim_facts d Hd) as (Hdl & Hdu & Hgt).
  pose proof (headed_match _ _ E) as Hhead.
  destruct (name_cases n Hin Hh) as [Hl|[Hu|[Hu Hv]]].
  - destruct n as [|c n]; [discriminate|]. cbn in Hl.
    apply andb_prop in Hl. destruct Hl as [Hc Hn].
    assert (M : match_at (String c n ++ String d s)
                = Some (String c n, skip_space (String d s))).
    { unfold match_at. cbn [append].
      rewrite span_head_false by now apply lower_az_visible.
      cbn [snd]. rewrite lower_az_group by auto.
      rewrite span_stop by auto. reflexivity. }
    rewrite (lex_match _ _ _ M). f_equal.
    rewrite Hhead. now apply lex_match.
  - destruct n as [|c n]; [discriminate|]. cbn in Hu.
    apply andb_prop in Hu. destruct Hu as [Hc Hn].
    assert (M : match_at (String c n ++ String d s)
                = Some (String c n, skip_space (String d s))).
    { unfold match_at. cbn [append].
      rewrite span_head_false by now apply upper_AZ_visible.
      cbn [snd]. rewrite upper_AZ_group by auto.
      rewrite span_stop by auto. reflexivity. }
    rewrite (lex_match _ _ _ M). f_equal.
    rewrite Hhead. now apply lex_match.
  - apply lex_gap; auto.
    + now apply head_letter_keep.
    + apply unmatched_no_match; auto.
Qed.

(** ** The tokens of a rendering *)

Lemma replace_absent old new s :
  str_forallb (fun c => negb (Ascii.eqb c old)) s = true ->
  replace old new s = s.
Proof.
  induction s as [|c s IH]; cbn; auto.
  intros H. apply andb_prop in H. destruct H as [Hc Hs].
  apply negb_true_iff in Hc. rewrite Hc, IH; auto.
Qed.

Lemma str_forallb_impl (p q : ascii -> bool) s :
  (forall c, p c = true -> q c = true) ->
  str_forallb p s = true -> str_forallb q s = true.
Proof.
  intros H. induction s as [|c s IH]; cbn; auto.
  intros Hs. apply andb_prop in Hs. destruct Hs as [Hc Hs].
  rewrite (H _ Hc), IH; auto.
Qed.

Lemma replace3_clean s :
  str_forallb paren_free s = true -> replace3 s = s.
Proof.
  intros H. unfold replace3.
  rewrite (replace_absent "("%char " ( " s).
  rewrite (replace_absent ")"%char " ) " s).
  rewrite (replace_absent "."%char " . " s).
  reflexivity.
  all: revert H; apply str_forallb_impl; intros c; by_cases c.
Qed.

Lemma replace3_app a b : replace3 (a ++ b) = (replace3 a ++ replace3 b)%string.
Proof. unfold replace3. now rewrite !replace_app. Qed.

Lemma lower_az_free c : lower_az c = true -> paren_free c = true.
Proof. by_cases c. Qed.

Lemma upper_AZ_free c : upper_AZ c = true -> paren_free c = true.
Proof. by_cases c. Qed.

Lemma tail_lower_free c : ident_tail_lower c = true -> paren_free c = true.
Proof. by_cases c. Qed.

Lemma tail_upper_free c : ident_tail_upper c = true -> paren_free c = true.
Proof. by_cases c. Qed.

Lemma not_start_free c : start_char c = false -> paren_free c = true.
Proof. by_cases c. Qed.

Lemma unmatched_free s : unmatched s = true -> str_forallb paren_free s = true.
Proof.
  induction s as [|c s IH]; auto.
  cbn [unmatched str_forallb]. intros H. apply andb_prop in H.
  destruct H as [Ho Hs]. apply negb_true_iff in Ho. cbn [opens] in Ho.
  apply orb_false_iff in Ho. destruct Ho as [Hc _].
  rewrite (not_start_free _ Hc), IH; auto.
Qed.

Lemma name_free n : name_token n -> str_forallb paren_free n = true.
Proof.
  intros [Hin Hh]. destruct (name_cases n Hin Hh) as [H|[H|[H _]]].
  - destruct n as [|c n]; [discriminate|]. cbn in *.
    apply andb_prop in H. destruct H as [Hc Hn].
    rewrite (lower_az_free _ Hc). cbn.
    revert Hn. apply str_forallb_impl, tail_lower_free.
  - destruct n as [|c n]; [discriminate|]. cbn in *.
    apply andb_prop in H. destruct H as [Hc Hn].
    rewrite (upper_AZ_free _ Hc). cbn.
    revert Hn. apply str_forallb_impl, tail_upper_free.
  - now apply unmatched_free.
Qed.

Lemma name_headed n s : name_token n -> headed (n ++ s).
Proof.
  intros [_ Hh]. destruct n as [|c n]; [destruct Hh; discriminate|].
  cbn [append]. apply headed_visible. cbn in Hh.
  destruct Hh; [now apply upper_visible | now apply lower_visible].
Qed.

(** The closing parenthesis, padded by the tokenizer. *)
Lemma lex_close K :
  headed K ->
  match_at (" ) " ++ K) = Some (")", skip_space K)
  /\ lex (" ) " ++ K) = ")" :: lex K.
Proof. intros H. exact (lex_punct " " ")" " " K eq_refl eq_refl eq_refl H). Qed.

Lemma lex_open K :
  headed K ->
  match_at (" ( " ++ K) = Some ("(", skip_space K)
  /\ lex (" ( " ++ K) = "(" :: lex K.
Proof. intros H. exact (lex_punct " " "(" " " K eq_refl eq_refl eq_refl H). Qed.

Lemma lex_comma K :
  headed K ->
  match_at (", " ++ K) = Some (",", skip_space K)
  /\ lex (", " ++ K) = "," :: lex K.
Proof. intros H. exact (lex_punct "" "," " " K eq_refl eq_refl eq_refl H). Qed.

(** The arguments of a predicate up to its closing parenthesis. *)
Lemma lex_terms names : forall K,
  names <> [] -> List.Forall name_token names -> headed K ->
  lex (join ", " names ++ " ) " ++ K) = sep_terms names ++ ")" :: lex K.
Proof.
  induction names as [|t names IH]; intros K Hne Hall HK; [congruence|].
  inversion Hall as [|? ? [Hin Hh] Hrest]; subst.
  destruct names as [|t' names].
  - cbn [join sep_terms app].
    destruct (lex_close K HK) as [M _].
    rewrite (lex_name t (" ) " ++ K) _ _ Hin Hh eq_refl M).
    f_equal. f_equal. exact HK.
  - change (join ", " (t :: t' :: names))
      with (t ++ ", " ++ join ", " (t' :: names))%string.
    change (sep_terms (t :: t' :: names))
      with (t :: "," :: sep_terms (t' :: names)).
    rewrite !sapp_assoc.
    assert (Hhead : headed (join ", " (t' :: names) ++ " ) " ++ K)).
    { inversion Hrest; subst.
      destruct names; cbn [join]; rewrite ?sapp_assoc; now apply name_headed. }
    destruct (lex_comma _ Hhead) as [M _].
    rewrite (lex_name t (", " ++ join ", " (t' :: names) ++ " ) " ++ K)
               _ _ Hin Hh eq_refl M).
    cbn [app]. f_equal. f_equal. rewrite Hhead.
    apply IH; auto. discriminate.
Qed.

Lemma term_name t :
  is_term t = true -> names_parsed t = true -> name_token (repr t).
Proof.
  destruct t; try discriminate; intros _; cbn;
    unfold var_name, const_name, name_token; intros H.
  - apply andb_prop in H. destruct H as [-> ->]. auto.
  - apply andb_prop in H. destruct H as [H ->].
    apply andb_prop in H. destruct H as [-> _]. auto.
Qed.

Lemma terms_names ts :
  forallb is_term ts = true -> forallb names_parsed ts = true ->
  List.Forall name_token (map repr ts).
Proof.
  induction ts as [|t ts IH]; cbn; [constructor|].
  intros H1 H2. apply andb_prop in H1, H2.
  destruct H1 as [Ht Hts], H2 as [Hn Hns].
  constructor; auto. now apply term_name.
Qed.

Lemma join_clean names :
  List.Forall name_token names -> replace3 (join ", " names) = join ", " names.
Proof.
  induction 1 as [|t names Ht Hall IH]; auto.
  destruct names as [|t' names].
  - cbn. apply replace3_clean. now apply name_free.
  - change (join ", " (t :: t' :: names))
      with (t ++ ", " ++ join ", " (t' :: names))%string.
    rewrite !replace3_app, IH. rewrite (replace3_clean t) by now apply name_free.
    reflexivity.
Qed.

(** The rendering of a predicate, as the tokenizer sees it. *)
Lemma replace3_predicate name terms :
  name_token name -> List.Forall name_token (map repr terms) ->
  replace3 (repr (Predicate name terms))
  = (name ++ " ( " ++ join ", " (map repr terms) ++ " ) ")%string.
Proof.
  intros Hn Ht. cbn [repr]. rewrite !replace3_app, join_clean by auto.
  rewrite (replace3_clean name) by now apply name_free. reflexivity.
Qed.

Lemma lex_predicate name terms K :
  name_token name -> List.Forall name_token (map repr terms) -> headed K ->
  lex (replace3 (repr (Predicate name terms)) ++ K)
  = flat (Predicate name terms) ++ lex K.
Proof.
  intros Hn Ht HK. rewrite replace3_predicate by auto.
  rewrite !sapp_assoc. cbn [flat].
  destruct Hn as [Hin Hh].
  destruct (map repr terms) as [|t names] eqn:E.
  - cbn [join sep_terms app].
    change ("" ++ " ) " ++ K)%string with (" ) " ++ K)%string.
    destruct (lex_close K HK) as [Mc Lc].
    assert (Hc : headed (" ) " ++ K)) by (eapply headed_match; eauto).
    destruct (lex_open _ Hc) as [Mo _].
    rewrite (lex_name name (" ( " ++ " ) " ++ K) _ _ Hin Hh eq_refl Mo).
    cbn [app]. f_equal. f_equal. rewrite Hc. exact Lc.
  - assert (Hj : headed (join ", " (t :: names) ++ " ) " ++ K)).
    { inversion Ht; subst.
      destruct names; cbn [join]; rewrite ?sapp_assoc; now apply name_headed. }
    destruct (lex_open _ Hj) as [Mo _].
    rewrite (lex_name name (" ( " ++ join ", " (t :: names) ++ " ) " ++ K)
               _ _ Hin Hh eq_refl Mo).
    cbn [app]. f_equal. f_equal. rewrite Hj.
    rewrite lex_terms; auto; try discriminate.
    now rewrite <- app_assoc.
Qed.

(** The rendering of a binary connective, as the tokenizer sees it. *)
Lemma lex_binary (l r : string) (op pad : string) (fl fr : list string) K :
  (forall K', headed K' -> lex (l ++ K') = fl ++ lex K') ->
  (forall K', headed K' -> lex (r ++ K') = fr ++ lex K') ->
  (forall K', headed (l ++ K')) -> (forall K', headed (r ++ K')) ->
  (forall K', headed K' ->
     match_at (pad ++ K') = Some (op, skip_space K')
     /\ lex (pad ++ K') = op :: lex K') ->
  headed K ->
  lex (" ( " ++ l ++ pad ++ r ++ " ) " ++ K)
  = "(" :: fl ++ op :: fr ++ ")" :: lex K.
Proof.
  intros Hl Hr Hhl Hhr Hop HK.
  destruct (lex_close K HK) as [Mc Lc].
  assert (Hc : headed (" ) " ++ K)) by (eapply headed_match; eauto).
  destruct (Hop _ (Hhr (" ) " ++ K)%string)) as [Mp Lp].
  assert (Hp : headed (pad ++ r ++ " ) " ++ K)) by (eapply headed_match; eauto).
  destruct (lex_open _ (Hhl (pad ++ r ++ " ) " ++ K)%string)) as [_ Lo].
  rewrite Lo, Hl, Lp, Hr, Lc by auto. reflexivity.
Qed.

Lemma lex_and K :
  headed K ->
  match_at (" & " ++ K) = Some ("&", skip_space K)
  /\ lex (" & " ++ K) = "&" :: lex K.
Proof. intros H. exact (lex_punct " " "&" " " K eq_refl eq_refl eq_refl H). Qed.

Lemma lex_or K :
  headed K ->
  match_at (" | " ++ K) = Some ("|", skip_space K)
  /\ lex (" | " ++ K) = "|" :: lex K.
Proof. intros H. exact (lex_punct " " "|" " " K eq_refl eq_refl eq_refl H). Qed.

Lemma lex_implies K :
  headed K ->
  match_at (" -> " ++ K) = Some ("->", skip_space K)
  /\ lex (" -> " ++ K) = "->" :: lex K.
Proof. intros H. exact (lex_punct " " "->" " " K eq_refl eq_refl eq_refl H). Qed.

Lemma replace3_binary l r pad :
  replace3 pad = pad ->
  replace3 ("(" ++ l ++ pad ++ r ++ ")")
  = (" ( " ++ replace3 l ++ pad ++ replace3 r ++ " ) ")%string.
Proof. intros Hp. rewrite !replace3_app, Hp. reflexivity. Qed.

Lemma headed_open s : headed (" ( " ++ s).
Proof. eapply headed_match. unfold match_at. cbn. reflexivity. Qed.

(** Tokenizing the rendering of a formula without negation and quantifier
    gives back its tokens. *)
Lemma lex_repr f :
  plain f = true -> proper f = true -> names_parsed f = true ->
  (forall K, headed K -> lex (replace3 (repr f) ++ K) = flat f ++ lex K)
  /\ (forall K, headed (replace3 (repr f) ++ K)).
Proof.
  induction f as [n|n|n ts|g IH|l IHl r IHr|l IHl r IHr|l IHl r IHr|v g IH|v g IH];
    try discriminate; intros Hpl Hpr Hn.
  - cbn [proper] in Hpr. unfold names_parsed in Hn. cbn [names_sat] in Hn.
    apply andb_prop in Hn. destruct Hn as [Hp Hts].
    assert (Hname : name_token n).
    { unfold pred_name in Hp. apply andb_prop in Hp. destruct Hp as [Hi Hu].
      split; auto. }
    pose proof (terms_names ts Hpr Hts) as Hall.
    split.
    + intros K HK. now apply lex_predicate.
    + intros K. rewrite replace3_predicate by auto. rewrite !sapp_assoc.
      now apply name_headed.
  - cbn [plain proper] in Hpl, Hpr. unfold names_parsed in Hn.
    cbn [names_sat] in Hn. apply andb_prop in Hpl, Hpr, Hn.
    destruct Hpl as [Pl Pr], Hpr as [Ql Qr], Hn as [Nl Nr].
    destruct (IHl Pl Ql Nl) as [Ll Hl]. destruct (IHr Pr Qr Nr) as [Lr Hr].
    cbn [repr]. rewrite (replace3_binary _ _ " & ") by reflexivity.
    split.
    + intros K HK. rewrite !sapp_assoc. cbn [flat].
      rewrite (lex_binary _ _ "&" " & " (flat l) (flat r)); auto.
      * repeat first [rewrite <- app_assoc | progress cbn [app]]. reflexivity.
      * apply lex_and.
    + intros K. rewrite !sapp_assoc. apply headed_open.
  - cbn [plain proper] in Hpl, Hpr. unfold names_parsed in Hn.
    cbn [names_sat] in Hn. apply andb_prop in Hpl, Hpr, Hn.
    destruct Hpl as [Pl Pr], Hpr as [Ql Qr], Hn as [Nl Nr].
    destruct (IHl Pl Ql Nl) as [Ll Hl]. destruct (IHr Pr Qr Nr) as [Lr Hr].
    cbn [repr]. rewrite (replace3_binary _ _ " | ") by reflexivity.
    split.
    + intros K HK. rewrite !sapp_assoc. cbn [flat].
      rewrite (lex_binary _ _ "|" " | " (flat l) (flat r)); auto.
      * repeat first [rewrite <- app_assoc | progress cbn [app]]. reflexivity.
      * apply lex_or.
    + intros K. rewrite !sapp_assoc. apply headed_open.
  - cbn [plain proper] in Hpl, Hpr. unfold names_parsed in Hn.
    cbn [names_sat] in Hn. apply andb_prop in Hpl, Hpr, Hn.
    destruct Hpl as [Pl Pr], Hpr as [Ql Qr], Hn as [Nl Nr].
    destruct (IHl Pl Ql Nl) as [Ll Hl]. destruct (IHr Pr Qr Nr) as [Lr Hr].
    cbn [repr]. rewrite (replace3_binary _ _ " -> ") by reflexivity.
    split.
    + intros K HK. rewrite !sapp_assoc. cbn [flat].
      rewrite (lex_binary _ _ "->" " -> " (flat l) (flat r)); auto.
      * repeat first [rewrite <- app_assoc | progress cbn [app]]. reflexivity.
      * apply lex_implies.
    + intros K. rewrite !sapp_assoc. apply headed_open.
Qed.

Lemma tokenize_repr f :
  plain f = true -> proper f = true -> names_parsed f = true ->
  _tokenize (repr f) = flat f.
Proof.
  intros Hpl Hpr Hn. rewrite tokenize_lex.
  destruct (lex_repr f Hpl Hpr Hn) as [H _].
  specialize (H "" headed_empty). rewrite sapp_nil_r in H. rewrite H.
  change (lex "") with (@nil string). now rewrite app_nil_r.
Qed.

(** ** Parsing the tokens of a rendering *)

(** Runs a method along the one path that the facts at hand select. *)
Ltac decide_test :=
  match goal with
  | |- context [tok_eqb (Some ?a) ?b] =>
      let v := eval vm_compute in (tok_eqb (Some a) b) in
      lazymatch v with
      | true => change (tok_eqb (Some a) b) with true
      | false => change (tok_eqb (Some a) b) with false
      end
  | |- context [String.eqb ?a ?b] =>
      let v := eval vm_compute in (String.eqb a b) in
      lazymatch v with
      | true => change (String.eqb a b) with true
      | false => change (String.eqb a b) with false
      end
  end.

Ltac follow_step :=
  first
    [ rewrite peek_eq
    | rewrite consume_any
    | rewrite consume_expected by reflexivity
    | match goal with
      | H : nth_error ?l ?p = _ |- context [nth_error ?l ?p] => rewrite H
      | H : parse_formula ?t ?f ?p = _ |- context [parse_formula ?t ?f ?p] =>
          rewrite H
      | H : terms_loop ?t ?f ?a ?p = _ |- context [terms_loop ?t ?f ?a ?p] =>
          rewrite H
      | H : ?b = true |- context [?b] => rewrite H
      | H : ?b = false |- context [?b] => rewrite H
      end
    | decide_test
    | progress cbn [negb andb orb]
    | progress cbv beta iota
    | progress unfold bind, ret, raise, get_pos, advance ].

Ltac follow := repeat follow_step.

Lemma nth_error_skip {A} (pre l : list A) k x :
  nth_error l k = Some x ->
  nth_error (pre ++ l) (List.length pre + k) = Some x.
Proof.
  intros H. rewrite nth_error_app2 by lia.
  now replace (List.length pre + k - List.length pre) with k by lia.
Qed.

Lemma upper_head_tests n :
  head_isupper n = true ->
  nonempty n = true
  /\ tok_eqb (Some n) "(" = false /\ tok_eqb (Some n) "~" = false
  /\ tok_eqb (Some n) "forall" = false /\ tok_eqb (Some n) "exists" = false
  /\ tok_eqb (Some n) ")" = false.
Proof.
  intros H. destruct n as [|c n]; [discriminate|]. cbn in H.
  split; [reflexivity|].
  repeat split; cbn [tok_eqb]; apply String.eqb_neq; intros E;
    injection E as -> _; discriminate.
Qed.

Lemma lower_head_tests n :
  head_islower n = true ->
  nonempty n = true /\ tok_eqb (Some n) ")" = false.
Proof.
  intros H. destruct n as [|c n]; [discriminate|]. cbn in H.
  split; [reflexivity|].
  cbn [tok_eqb]. apply String.eqb_neq. intros E. injection E as -> _. discriminate.
Qed.

(** What [parse_term] makes of the name of a term it has built before. *)
Lemma parse_term_again tokens pos t :
  is_term t = true -> names_parsed t = true ->
  nth_error tokens pos = Some (repr t) ->
  parse_term tokens pos = (Ok t, pos + 1)
  /\ tok_eqb (Some (repr t)) ")" = false.
Proof.
  intros Ht Hn E. unfold parse_term.
  destruct t as [n|n| | | | | | |]; try discriminate; cbn [repr] in *;
    unfold names_parsed in Hn; cbn [names_sat] in Hn.
  - unfold var_name in Hn. apply andb_prop in Hn. destruct Hn as [_ Hl].
    destruct (lower_head_tests n Hl) as [Hne Hc].
    split; auto. follow. reflexivity.
  - unfold const_name in Hn. apply andb_prop in Hn. destruct Hn as [Hn Hu].
    apply andb_prop in Hn. destruct Hn as [_ Hl]. apply negb_true_iff in Hl.
    destruct (upper_head_tests n Hu) as (Hne & _ & _ & _ & _ & Hc).
    split; auto. follow. reflexivity.
Qed.

Lemma sep_terms_length (names : list string) :
  names <> [] -> List.length (sep_terms names) = 2 * List.length names - 1.
Proof.
  induction names as [|t names IH]; [congruence|]. intros _.
  destruct names as [|t' names]; [reflexivity|].
  change (sep_terms (t :: t' :: names)) with (t :: "," :: sep_terms (t' :: names)).
  cbn [List.length]. rewrite IH by discriminate. cbn [List.length]. lia.
Qed.

(** The loop of [parse_predicate] over the arguments of a rendering. *)
Lemma terms_loop_flat ts : forall pre post fuel acc,
  ts <> [] ->
  forallb is_term ts = true -> forallb names_parsed ts = true ->
  List.length ts <= fuel ->
  terms_loop (pre ++ sep_terms (map repr ts) ++ ")" :: post) fuel acc
    (List.length pre)
  = (Ok (acc ++ ts), List.length pre + List.length (sep_terms (map repr ts))).
Proof.
  induction ts as [|t ts IH]; intros pre post fuel acc Hne Ht Hn Hf; [congruence|].
  cbn [forallb] in Ht, Hn. apply andb_prop in Ht, Hn.
  destruct Ht as [Ht Hts], Hn as [Hn Hns].
  destruct fuel as [|fuel]; [cbn in Hf; lia|]. cbn [List.length] in Hf.
  cbn [terms_loop map].
  destruct ts as [|t' ts].
  - cbn [map sep_terms app List.length].
    set (tokens := pre ++ repr t :: ")" :: post).
    assert (E0 : nth_error tokens (List.length pre) = Some (repr t)).
    { rewrite <- (Nat.add_0_r (List.length pre)). now apply nth_error_skip. }
    assert (E1 : nth_error tokens (List.length pre + 1) = Some ")").
    { now apply nth_error_skip. }
    destruct (parse_term_again tokens _ t Ht Hn E0) as [P _].
    unfold bind at 1. rewrite P. follow. reflexivity.
  - change (sep_terms (repr t :: map repr (t' :: ts)))
      with (repr t :: "," :: sep_terms (map repr (t' :: ts))).
    set (rest := sep_terms (map repr (t' :: ts))).
    cbn [app]. set (tokens := pre ++ repr t :: "," :: rest ++ ")" :: post).
    assert (E0 : nth_error tokens (List.length pre) = Some (repr t)).
    { rewrite <- (Nat.add_0_r (List.length pre)). now apply nth_error_skip. }
    assert (E1 : nth_error tokens (List.length pre + 1) = Some ",").
    { now apply nth_error_skip. }
    destruct (parse_term_again tokens _ t Ht Hn E0) as [P _].
    unfold bind at 1. rewrite P.
    assert (L : terms_loop tokens fuel (acc ++ [t]) (List.length pre + 1 + 1)
                = (Ok ((acc ++ [t]) ++ t' :: ts),
                   List.length (pre ++ [repr t; ","]) + List.length rest)).
    { replace (List.length pre + 1 + 1)
        with (List.length (pre ++ [repr t; ","]))
        by (rewrite length_app; cbn; lia).
      replace tokens with ((pre ++ [repr t; ","]) ++ rest ++ ")" :: post)
        by (unfold tokens; now rewrite <- app_assoc).
      apply IH; auto; try discriminate. lia. }
    follow. rewrite <- app_assoc. cbn [app]. f_equal.
    rewrite length_app. cbn [List.length]. lia.
Qed.

Lemma parse_predicate_flat name ts pre post fuel :
  head_isupper name = true ->
  forallb is_term ts = true -> forallb names_parsed ts = true ->
  List.length ts <= fuel ->
  parse_predicate (pre ++ flat (Predicate name ts) ++ post) fuel (List.length pre)
  = (Ok (Predicate name ts),
     List.length pre + List.length (flat (Predicate name ts))).
Proof.
  intros Hu Ht Hn Hf. unfold parse_predicate. cbn [flat].
  set (names := sep_terms (map repr ts)).
  set (tokens := pre ++ (name :: "(" :: names ++ [")"]) ++ post).
  assert (E0 : nth_error tokens (List.length pre) = Some name).
  { rewrite <- (Nat.add_0_r (List.length pre)). now apply nth_error_skip. }
  assert (E1 : nth_error tokens (List.length pre + 1) = Some "(").
  { now apply nth_error_skip. }
  assert (T : tokens = (pre ++ [name; "("]) ++ names ++ ")" :: post).
  { unfold tokens. rewrite <- !app_assoc. cbn [app]. now rewrite <- app_assoc. }
  assert (Lp : List.length (pre ++ [name; "("]) = List.length pre + 1 + 1).
  { rewrite length_app. cbn. lia. }
  destruct ts as [|t ts].
  - assert (E2 : nth_error tokens (List.length pre + 1 + 1) = Some ")").
    { rewrite T, <- Lp, <- (Nat.add_0_r (List.length (pre ++ _))).
      now apply nth_error_skip. }
    follow. f_equal. cbn. lia.
  - cbn [forallb] in Ht, Hn.
    pose proof Ht as Ht'. pose proof Hn as Hn'.
    apply andb_prop in Ht', Hn'. destruct Ht' as [Ht1 _], Hn' as [Hn1 _].
    assert (E2 : nth_error tokens (List.length pre + 1 + 1) = Some (repr t)).
    { rewrite T, <- Lp, <- (Nat.add_0_r (List.length (pre ++ _))).
      apply nth_error_skip. unfold names. cbn [map sep_terms].
      destruct (map repr ts); reflexivity. }
    destruct (parse_term_again tokens _ t Ht1 Hn1 E2) as [_ Hc].
    assert (L : terms_loop tokens fuel [] (List.length pre + 1 + 1)
                = (Ok (t :: ts),
                   List.length (pre ++ [name; "("]) + List.length names)).
    { rewrite <- Lp, T.
      apply (terms_loop_flat (t :: ts) (pre ++ [name; "("]) post fuel []);
        auto. discriminate. }
    assert (E3 : nth_error tokens
                   (List.length (pre ++ [name; "("]) + List.length names)
                 = Some ")").
    { rewrite T. rewrite <- (Nat.add_0_r (List.length names)).
      apply nth_error_skip. now apply nth_error_skip. }
    follow. f_equal. rewrite Lp. cbn [List.length]. rewrite length_app. cbn. lia.
Qed.

(** A parenthesized pair of sub-formulas that read back, with a legal
    operator between them. *)
Lemma parse_binary_flat (op : string) (mk : Formula -> Formula -> Formula) l r :
  (op = "&" /\ mk = Conjunction) \/ (op = "|" /\ mk = Disjunction)
  \/ (op = "->" /\ mk = Implication) ->
  (forall pre post fuel,
     List.length (flat l) <= fuel ->
     parse_formula (pre ++ flat l ++ post) fuel (List.length pre)
     = (Ok l, List.length pre + List.length (flat l))) ->
  (forall pre post fuel,
     List.length (flat r) <= fuel ->
     parse_formula (pre ++ flat r ++ post) fuel (List.length pre)
     = (Ok r, List.length pre + List.length (flat r))) ->
  forall pre post fuel,
    List.length (flat l) + List.length (flat r) + 3 <= fuel ->
    parse_formula (pre ++ ("(" :: flat l ++ op :: flat r ++ [")"]) ++ post)
      fuel (List.length pre)
    = (Ok (mk l r),
       List.length pre + (List.length (flat l) + List.length (flat r) + 3)).
Proof.
  intros Hop IHl IHr pre post fuel Hf.
  destruct fuel as [|fuel]; [lia|].
  set (tokens := pre ++ ("(" :: flat l ++ op :: flat r ++ [")"]) ++ post).
  set (pre1 := pre ++ ["("]).
  set (pre2 := pre1 ++ flat l ++ [op]).
  assert (T1 : tokens = pre1 ++ flat l ++ (op :: flat r ++ ")" :: post)).
  { unfold tokens, pre1.
    repeat first [rewrite <- app_assoc | progress cbn [app]]. reflexivity. }
  assert (T2 : tokens = pre2 ++ flat r ++ (")" :: post)).
  { unfold tokens, pre2, pre1.
    repeat first [rewrite <- app_assoc | progress cbn [app]]. reflexivity. }
  assert (L1 : List.length pre1 = List.length pre + 1).
  { unfold pre1. rewrite length_app. reflexivity. }
  assert (L2 : List.length pre2 = List.length pre1 + List.length (flat l) + 1).
  { unfold pre2. rewrite !length_app. cbn. lia. }
  assert (E0 : nth_error tokens (List.length pre) = Some "(").
  { rewrite <- (Nat.add_0_r (List.length pre)). now apply nth_error_skip. }
  assert (Pl : parse_formula tokens fuel (List.length pre + 1)
               = (Ok l, List.length pre1 + List.length (flat l))).
  { rewrite <- L1, T1. apply IHl. lia. }
  assert (E1 : nth_error tokens (List.length pre1 + List.length (flat l))
               = Some op).
  { rewrite T1. apply nth_error_skip.
    rewrite <- (Nat.add_0_r (List.length (flat l))). now apply nth_error_skip. }
  assert (Pr : parse_formula tokens fuel
                 (List.length pre1 + List.length (flat l) + 1)
               = (Ok r, List.length pre2 + List.length (flat r))).
  { rewrite <- L2, T2. apply IHr. lia. }
  assert (E2 : nth_error tokens (List.length pre2 + List.length (flat r))
               = Some ")").
  { rewrite T2. apply nth_error_skip.
    rewrite <- (Nat.add_0_r (List.length (flat r))). now apply nth_error_skip. }
  cbn [parse_formula]. fold tokens.
  destruct Hop as [[-> ->]|[[-> ->]|[-> ->]]];
    follow; f_equal; lia.
Qed.

(** [parse_formula] reads the tokens of a rendering back into the formula,
    wherever they stand in the token list. *)
Lemma parse_formula_flat f :
  plain f = true -> proper f = true -> names_parsed f = true ->
  forall pre post fuel,
    List.length (flat f) <= fuel ->
    parse_formula (pre ++ flat f ++ post) fuel (List.length pre)
    = (Ok f, List.length pre + List.length (flat f)).
Proof.
  induction f as [n|n|n ts|g IH|l IHl r IHr|l IHl r IHr|l IHl r IHr|v g IH|v g IH];
    try discriminate; intros Hpl Hpr Hn pre post fuel Hf.
  - cbn [proper] in Hpr. unfold names_parsed in Hn. cbn [names_sat] in Hn.
    apply andb_prop in Hn. destruct Hn as [Hp Hts].
    unfold pred_name in Hp. apply andb_prop in Hp. destruct Hp as [_ Hu].
    destruct fuel as [|fuel]; [cbn in Hf; lia|].
    assert (Hlen : List.length ts <= fuel).
    { cbn [flat List.length] in Hf. rewrite length_app in Hf. cbn in Hf.
      destruct ts as [|t ts]; [cbn; lia|].
      rewrite sep_terms_length in Hf by discriminate.
      rewrite length_map in Hf. cbn [List.length] in *. lia. }
    pose proof (parse_predicate_flat n ts pre post fuel Hu Hpr Hts Hlen) as P.
    destruct (upper_head_tests n Hu) as (Hne & T1 & T2 & T3 & T4 & _).
    cbn [parse_formula].
    assert (E0 : nth_error (pre ++ flat (Predicate n ts) ++ post) (List.length pre)
                 = Some n).
    { rewrite <- (Nat.add_0_r (List.length pre)). now apply nth_error_skip. }
    unfold bind at 1. rewrite peek_eq, E0. cbv beta iota.
    rewrite T1, T2, T3, T4, Hne, Hu. cbn [orb andb]. exact P.
  - cbn [plain proper] in Hpl, Hpr. unfold names_parsed in Hn.
    cbn [names_sat] in Hn. apply andb_prop in Hpl, Hpr, Hn.
    destruct Hpl as [Pl Pr], Hpr as [Ql Qr], Hn as [Nl Nr].
    assert (Hlen : List.length (flat (Conjunction l r))
                   = List.length (flat l) + List.length (flat r) + 3).
    { cbn [flat].
      repeat first [rewrite length_app | progress cbn [List.length]]. lia. }
    rewrite Hlen in *. cbn [flat].
    apply (parse_binary_flat "&" Conjunction); auto.
  - cbn [plain proper] in Hpl, Hpr. unfold names_parsed in Hn.
    cbn [names_sat] in Hn. apply andb_prop in Hpl, Hpr, Hn.
    destruct Hpl as [Pl Pr], Hpr as [Ql Qr], Hn as [Nl Nr].
    assert (Hlen : List.length (flat (Disjunction l r))
                   = List.length (flat l) + List.length (flat r) + 3).
    { cbn [flat].
      repeat first [rewrite length_app | progress cbn [List.length]]. lia. }
    rewrite Hlen in *. cbn [flat].
    apply (parse_binary_flat "|" Disjunction); auto.
  - cbn [plain proper] in Hpl, Hpr. unfold names_parsed in Hn.
    cbn [names_sat] in Hn. apply andb_prop in Hpl, Hpr, Hn.
    destruct Hpl as [Pl Pr], Hpr as [Ql Qr], Hn as [Nl Nr].
    assert (Hlen : List.length (flat (Implication l r))
                   = List.length (flat l) + List.length (flat r) + 3).
    { cbn [flat].
      repeat first [rewrite length_app | progress cbn [List.length]]. lia. }
    rewrite Hlen in *. cbn [flat].
    apply (parse_binary_flat "->" Implication); auto.
Qed.

Lemma parsed_proper text f : FOLParser_parse text = Ok f -> proper f = true.
Proof.
  unfold FOLParser_parse, run_parse, parse.
  run_formula; cbn [fst]; try discriminate. intros [= <-].
  eapply parse_formula_proper. eassumption.
Qed.

(** Parsing the rendering of a formula without negation and quantifier. *)
Lemma run_parse_repr f :
  plain f = true -> proper f = true -> names_parsed f = true ->
  run_parse (repr f) = (Ok f, List.length (flat f)).
Proof.
  intros Hpl Hpr Hn. unfold run_parse.
  rewrite (tokenize_repr f Hpl Hpr Hn). unfold parse, budget.
  pose proof (parse_formula_flat f Hpl Hpr Hn [] [] (S (List.length (flat f))))
    as P.
  rewrite app_nil_r in P. cbn [app List.length Nat.add] in P.
  unfold bind. rewrite P by lia. unfold get_pos, ret.
  now rewrite Nat.ltb_irrefl.
Qed.

(** ** The tokens of a text, match by match *)

Lemma lex_end g : no_match_in g "" -> lex g = filter keep [g].
Proof.
  intros Hg. unfold lex, re_split.
  replace (S (String.length g)) with (String.length g + 1) by lia.
  pose proof (split_loop_gap g 1 "" "" Hg) as E.
  rewrite sapp_nil_r in E. rewrite E. reflexivity.
Qed.

Lemma lex_step g s tok rest :
  no_match_in g s -> match_at s = Some (tok, rest) ->
  lex (g ++ s) = filter keep [g] ++ tok :: lex rest.
Proof.
  intros Hg E. unfold lex at 1. unfold re_split.
  rewrite slength_app.
  replace (S (String.length g + String.length s))
    with (String.length g + S (String.length s)) by lia.
  rewrite split_loop_gap by auto. cbn [append split_loop]. rewrite E.
  pose proof (match_at_shorter _ _ _ E) as Hs.
  pose proof (match_at_spec _ _ _ E) as (w1 & w2 & _ & _ & _ & Ht & _).
  cbn [filter]. rewrite (legal_token_keep _ Ht).
  rewrite (split_loop_fuel (String.length s) (S (String.length rest))) by lia.
  destruct (keep g); reflexivity.
Qed.

(** Every text has a leftmost match or none. *)
Lemma leftmost_match s :
  no_match_in s ""
  \/ exists g s' tok rest,
       s = (g ++ s')%string /\ no_match_in g s'
       /\ match_at s' = Some (tok, rest).
Proof.
  induction s as [|c r IH].
  - left. exact I.
  - destruct (match_at (String c r)) as [[tok rest]|] eqn:E.
    + right. exists "", (String c r), tok, rest. repeat split; auto.
    + destruct IH as [IH|(g & s' & tok & rest & -> & Hg & M)].
      * left. split; auto. now rewrite sapp_nil_r.
      * right. exists (String c g), s', tok, rest. repeat split; auto.
Qed.

Lemma tokenization_lex n : forall s,
  String.length s < n -> tokenization s (lex s).
Proof.
  induction n as [|n IH]; intros s Hn; [lia|].
  destruct (leftmost_match s) as [H|(g & s' & tok & rest & -> & Hg & M)].
  - rewrite (lex_end s H). now constructor.
  - rewrite (lex_step g s' tok rest Hg M). econstructor; eauto.
    apply IH. pose proof (match_at_shorter _ _ _ M) as L.
    rewrite slength_app in Hn. lia.
Qed.

Lemma tokenization_unique s l : tokenization s l -> l = lex s.
Proof.
  induction 1 as [g Hg|g s tok rest l Hg M Hl IH].
  - now rewrite lex_end.
  - now rewrite (lex_step g s tok rest Hg M), IH.
Qed.

(* ================================================================= *)
(** * The claims *)

(** The sample inputs of the module's [__main__] block. *)
Example sample_exists :
  FOLParser_parse "exists y. ~(P(y) & Q(y))"
  = Ok (Exists (Variable_ "y")
          (Negation (Conjunction (Predicate "P" [Variable_ "y"])
                                 (Predicate "Q" [Variable_ "y"])))).
Proof. vm_compute. reflexivity. Qed.

Example sample_predicate :
  FOLParser_parse "R(B, z)" = Ok (Predicate "R" [Constant "B"; Variable_ "z"]).
Proof. vm_compute. reflexivity. Qed.

Example sample_missing_paren :
  run_parse "(P(x) & Q(x)"
  = (Raise (mkParseError "Expected ')' but found 'None' at position 10"), 10).
Proof. vm_compute. reflexivity. Qed.

Example sample_trailing :
  run_parse "P() Q()"
  = (Raise (mkParseError "Unexpected token 'Q' at end of expression"), 3).
Proof. vm_compute. reflexivity. Qed.

(** C6: [parse("forall x. (P(x) -> Q(x, A))")] succeeds and returns
    [Forall(Variable("x"), Implication(Predicate("P",[Variable("x")]),
    Predicate("Q",[Variable("x"),Constant("A")])))], the argument lists in
    that order. *)
Theorem parse_forall_implication :
  FOLParser_parse "forall x. (P(x) -> Q(x, A))"
  = Ok (Forall (Variable_ "x")
          (Implication (Predicate "P" [Variable_ "x"])
                       (Predicate "Q" [Variable_ "x"; Constant "A"]))).
Proof. vm_compute. reflexivity. Qed.

(** C7: [parse("forall x P(x)")] fails with the mismatch error of
    [_consume('.')], and the position it reports, which is also where the
    cursor stops, is the index of the token [P], the first token after the
    bound variable. *)
Theorem parse_missing_dot :
  let tokens := _tokenize "forall x P(x)" in
  run_parse "forall x P(x)"
  = (Raise (mkParseError "Expected '.' but found 'P' at position 2"), 2)
  /\ nth_error tokens 1 = Some "x"
  /\ nth_error tokens 2 = Some "P".
Proof. vm_compute. repeat split; reflexivity. Qed.

(** C8, as the code has it: for every input [parse] terminates.  The
    tokenizer's loop and the parser's recursion finish within the budgets
    the entry points hand out, and a larger budget gives the same outcome;
    every production that returns has moved the cursor forward, so each
    recursive call starts further right; and a call of [parse_formula]
    that leaves the cursor where it was has failed at once, without
    calling any production.  The converse is not claimed: a call may fail
    after it has moved the cursor. *)
Theorem parse_terminates (text : string) :
  let tokens := _tokenize text in
  (forall fuel s, String.length s < fuel -> split_loop fuel "" s = re_split s)
  /\ fst (run_parse text) <> Fuel
  /\ (forall fuel, budget tokens <= fuel -> parse tokens fuel 0 = run_parse text)
  /\ (forall fuel pos,
        List.length tokens - pos < fuel ->
        fst (parse_formula tokens fuel pos) <> Fuel)
  /\ (forall fuel pos,
        cursor_ok tokens pos (parse_formula tokens fuel pos)
        /\ cursor_ok tokens pos
             (parse_quantifier tokens (parse_formula tokens fuel) pos)
        /\ cursor_ok tokens pos (parse_predicate tokens fuel pos)
        /\ cursor_ok tokens pos (parse_term tokens pos))
  /\ (forall fuel pos r,
        parse_formula tokens (S fuel) pos = (r, pos) ->
        exists e, r = Raise e /\ parse_formula tokens 1 pos = (Raise e, pos)).
Proof.
  intros tokens.
  assert (Hstable : forall fuel, budget tokens <= fuel ->
            parse tokens fuel 0 = parse tokens (budget tokens) 0).
  { intros fuel Hf. unfold parse, bind.
    rewrite (parse_formula_stable tokens (budget tokens) fuel 0);
      unfold budget in *; auto; lia. }
  repeat split.
  - intros fuel s Hf. unfold re_split. apply split_loop_fuel; auto.
  - unfold run_parse. fold tokens.
    pose proof (parse_formula_enough tokens (budget tokens) 0) as H.
    unfold parse. run_formula; cbn [fst]; try congruence.
    exfalso. apply H; [unfold budget; lia | reflexivity].
  - exact Hstable.
  - apply parse_formula_enough.
  - apply parse_formula_cursor.
  - apply parse_formula_cursor.
  - apply parse_formula_cursor.
  - apply parse_quantifier_cursor. apply parse_formula_cursor.
  - apply parse_quantifier_cursor. apply parse_formula_cursor.
  - apply parse_quantifier_cursor. apply parse_formula_cursor.
  - apply parse_predicate_cursor.
  - apply parse_predicate_cursor.
  - apply parse_predicate_cursor.
  - destruct (parse_term tokens pos) as [r p] eqn:E.
    apply parse_term_cursor in E. cbn. tauto.
  - destruct (parse_term tokens pos) as [r p] eqn:E.
    apply parse_term_cursor in E. cbn. tauto.
  - destruct (parse_term tokens pos) as [r p] eqn:E.
    apply parse_term_cursor in E. cbn. intros a ->. destruct E as (_ & _ & E & _).
    eauto.
  - apply parse_formula_stuck.
Qed.

(** C8 fails as stated in its last clause: the failing paths are not
    exactly the ones that leave the cursor in place.  On the tokens of
    [(P() x)] the call of [parse_formula] at 0 fails with the cursor at 5,
    and on those of [forall x P(x)] with the cursor at 2; on [x] alone it
    fails with the cursor still at 0. *)
Lemma error_after_advance :
  parse_formula (_tokenize "(P() x)") (budget (_tokenize "(P() x)")) 0
  = (Raise (mkParseError "Unexpected token for a formula: )"), 5)
  /\ parse_formula (_tokenize "forall x P(x)")
       (budget (_tokenize "forall x P(x)")) 0
     = (Raise (mkParseError "Expected '.' but found 'P' at position 2"), 2)
  /\ parse_formula (_tokenize "x") (budget (_tokenize "x")) 0
     = (Raise (mkParseError "Unexpected token for a formula: x"), 0).
Proof. vm_compute. repeat split; reflexivity. Qed.

(** C9: the top-level [parse] wants the whole token list consumed by one
    formula.  When [parse_formula] returns with a token left, [parse]
    raises "Unexpected token '...' at end of expression" naming that token,
    and does not return the formula; when [parse] returns a formula, the
    cursor is at the end of the list.  The empty input has no token, and
    with no token [parse] raises "Unexpected token for a formula: None". *)
Theorem parse_consumes_all (text : string) :
  let tokens := _tokenize text in
  (forall f p,
     parse_formula tokens (budget tokens) 0 = (Ok f, p) ->
     p < List.length tokens ->
     exists t,
       nth_error tokens p = Some t
       /\ run_parse text
          = (Raise (mkParseError
                      ("Unexpected token '" ++ t ++ "' at end of expression")), p))
  /\ (forall f,
        FOLParser_parse text = Ok f ->
        run_parse text = (Ok f, List.length tokens)
        /\ parse_formula tokens (budget tokens) 0 = (Ok f, List.length tokens))
  /\ (tokens = [] ->
      run_parse text
      = (Raise (mkParseError "Unexpected token for a formula: None"), 0))
  /\ _tokenize "" = [].
Proof.
  intros tokens. repeat split.
  - intros f p Hf Hp. unfold run_parse. fold tokens. unfold parse, bind.
    rewrite Hf. unfold get_pos.
    destruct (Nat.ltb_spec p (List.length tokens)) as [_|H]; [|lia].
    rewrite peek_eq. destruct (nth_error tokens p) as [t|] eqn:E.
    + exists t. split; reflexivity.
    + apply nth_error_None in E. lia.
  - revert H. unfold FOLParser_parse, run_parse. fold tokens. unfold parse.
    pose proof (parse_formula_cursor tokens (budget tokens) 0) as (_ & Hc & _).
    run_formula; cbn [fst]; try discriminate. intros [= <-].
    f_equal.
    cbn [fst snd] in Hc. specialize (Hc (Nat.le_0_l _)).
    match goal with E : (_ <? _) = false |- _ => apply Nat.ltb_ge in E end. lia.
  - revert H. unfold FOLParser_parse, run_parse. fold tokens. unfold parse.
    pose proof (parse_formula_cursor tokens (budget tokens) 0) as (_ & Hc & _).
    run_formula; cbn [fst]; try discriminate. intros [= <-].
    f_equal.
    cbn [fst snd] in Hc. specialize (Hc (Nat.le_0_l _)).
    match goal with E : (_ <? _) = false |- _ => apply Nat.ltb_ge in E end. lia.
  - intros E. unfold run_parse. fold tokens. rewrite E. reflexivity.
Qed.

(** C9, at a concrete input with a token left over. *)
Lemma parse_consumes_all_witness :
  exists t,
    nth_error (_tokenize "P() Q()") 3 = Some t
    /\ run_parse "P() Q()"
       = (Raise (mkParseError
                   ("Unexpected token '" ++ t ++ "' at end of expression")), 3).
Proof.
  apply (proj1 (parse_consumes_all "P() Q()") (Predicate "P" []) 3).
  - vm_compute. reflexivity.
  - vm_compute. lia.
Defined.

(** C10: in a formula returned by the top-level [parse], the root and every
    formula position (the operand of a [Negation], each side of a binary
    connective, the body of a quantifier) hold a
    [Predicate], [Negation], [Conjunction], [Disjunction], [Implication],
    [Forall] or [Exists] node, never a bare [Variable] or [Constant]; a
    term list holds only [Variable] and [Constant] nodes and a bound
    variable is a [Variable], so these two kinds occur nowhere else. *)
Theorem parsed_formula_proper (text : string) (f : Formula) :
  FOLParser_parse text = Ok f -> proper f = true.
Proof. apply parsed_proper. Qed.

Lemma parsed_formula_proper_witness :
  proper (Forall (Variable_ "x")
            (Implication (Predicate "P" [Variable_ "x"])
                         (Predicate "Q" [Variable_ "x"; Constant "A"]))) = true.
Proof.
  apply (parsed_formula_proper "forall x. (P(x) -> Q(x, A))").
  vm_compute. reflexivity.
Defined.

(** C2, as the code has it: the tokenizer is total, its loop finishing
    within the budget [re_split] hands out.  Text that matches no lexical
    rule is not dropped: the padded text is split at the leftmost matches
    of the pattern, and the text in front of a match in which no match
    starts is kept whole, whitespace inside it included, as a token of its
    own unless it is empty or blank; this fixes the token list, no other
    list splits the text so.  Only whitespace disappears, and every token
    is of a legal shape or a non-blank run of text in which no lexical
    rule matches. *)
Theorem tokenize_keeps_unmatched (text : string) :
  (forall fuel s, String.length s < fuel -> split_loop fuel "" s = re_split s)
  /\ tokenization (replace3 text) (_tokenize text)
  /\ (forall l, tokenization (replace3 text) l -> l = _tokenize text)
  /\ visible (concat_all (_tokenize text)) = visible text
  /\ List.Forall (fun t => legal_token t = true \/ unmatched_run t = true)
       (_tokenize text).
Proof.
  split; [|split; [|split; [|split]]].
  - intros fuel s Hf. unfold re_split. apply split_loop_fuel; auto.
  - rewrite tokenize_lex.
    apply (tokenization_lex (S (String.length (replace3 text)))). lia.
  - intros l H. rewrite tokenize_lex. now apply tokenization_unique.
  - apply tokenize_visible.
  - apply tokenize_shapes.
Qed.

(** The split of a text with unmatched text in it, an instance of the two
    rules: the underscore and the digit stay together with the blank
    between them. *)
Example tokenize_inner_blank :
  _tokenize "forall x1. (P(x_ 9) -> Q2)"
  = ["forall"; "x1"; "."; "("; "P"; "("; "x"; "_ 9"; ")"; "->"; "Q2"; ")"]
  /\ no_match_in "_ 9" " ) "
  /\ match_at " )  ->  Q2 ) " = Some (")", "->  Q2 ) ").
Proof. vm_compute. intuition congruence. Qed.

(** C2 fails as stated: the underscore of [P(x_y)] matches no lexical rule
    and comes out as a token. *)
Lemma tokenize_underscore :
  _tokenize "P(x_y)" = ["P"; "("; "x"; "_"; "y"; ")"]
  /\ legal_token "_" = false.
Proof. vm_compute. split; reflexivity. Qed.

(** C5, as the code has it: on ASCII input every [Variable] name has the
    lowercase identifier shape and every [Constant] name the uppercase one,
    in every formula [parse_formula] returns, in every term [parse_term]
    returns, and so in every formula [parse] returns.  The shapes come
    from the tokens and the tests of the parser; the constructors check
    nothing. *)
Theorem ascii_names_ok (text : string) :
  str_forallb is_ascii text = true ->
  let tokens := _tokenize text in
  (forall fuel pos f p,
     parse_formula tokens fuel pos = (Ok f, p) -> names_ok f = true)
  /\ (forall pos t p, parse_term tokens pos = (Ok t, p) -> names_ok t = true)
  /\ (forall f, FOLParser_parse text = Ok f -> names_ok f = true).
Proof.
  intros Ha tokens.
  assert (Hshape : forall i t, nth_error tokens i = Some t ->
            (head_islower t = true -> lower_ident t = true)
            /\ (head_isupper t = true -> upper_ident t = true)
            /\ (str_islower t = true -> lower_ident t = true)).
  { intros i t Hi. apply nth_error_In in Hi.
    pose proof (tokenize_shapes text) as H1.
    pose proof (tokenize_chars is_ascii text eq_refl Ha) as H2.
    rewrite Forall_forall in H1, H2.
    apply ascii_token_shapes; [apply H1 | apply H2]; exact Hi. }
  assert (Hf : forall fuel pos f p,
            parse_formula tokens fuel pos = (Ok f, p) -> names_ok f = true).
  { intros fuel pos f p H. unfold names_ok.
    eapply parse_formula_names; [| | | |exact H]; intros i t Hi _;
      destruct (Hshape i t Hi) as (A & B & C); auto. }
  repeat split.
  - exact Hf.
  - intros pos t p. unfold parse_term.
    run_formula; try discriminate; intros [= <- <-]; cbn;
      match goal with H : nth_error tokens _ = Some _ |- _ =>
        destruct (Hshape _ _ H) as (A & B & C) end; auto.
  - intros f. unfold FOLParser_parse, run_parse, parse. fold tokens.
    run_formula; cbn [fst]; try discriminate. intros [= <-].
    eapply Hf. eassumption.
Qed.

Lemma ascii_names_ok_witness :
  names_ok (Predicate "R" [Constant "B"; Variable_ "z"]) = true.
Proof.
  apply (proj2 (proj2 (ascii_names_ok "R(B, z)" eq_refl))).
  vm_compute. reflexivity.
Defined.

(** C5 fails as stated: a capital letter outside A-Z matches no lexical
    rule, is kept as a token, passes [token[0].isupper()] in [parse_term]
    and becomes the name of a [Constant]. *)
Lemma constant_outside_shape :
  FOLParser_parse ("P(" ++ String A_grave ")")
  = Ok (Predicate "P" [Constant (String A_grave "")])
  /\ upper_ident (String A_grave "") = false.
Proof. vm_compute. split; reflexivity. Qed.




(** C4, as the code has it: in the parenthesized form one token is consumed
    as the operator after the left formula, and it is examined only after
    the right formula and the closing parenthesis have been parsed.  When
    it is none of [&], [|], [->], [parse_formula] returns no formula: it
    raises "Unknown binary operator" if the right formula and the
    parenthesis parse, and otherwise the error of the right formula or of
    the missing parenthesis. *)
Theorem binary_operator_check (tokens : list string) (fuel pos : nat)
    (left : Formula) (p1 : nat) (op : string) :
  nth_error tokens pos = Some "(" ->
  parse_formula tokens fuel (pos + 1) = (Ok left, p1) ->
  nth_error tokens p1 = Some op ->
  op <> "&" -> op <> "|" -> op <> "->" ->
  let r := parse_formula tokens (S fuel) pos in
  (forall f, fst r <> Ok f)
  /\ match parse_formula tokens fuel (p1 + 1) with
     | (Ok _, p2) =>
         if tok_eqb (nth_error tokens p2) ")" then
           r = (Raise (mkParseError ("Unknown binary operator: " ++ op)), p2 + 1)
         else
           r = (Raise (mkParseError
                         (expected_message ")" (nth_error tokens p2) p2)), p2)
     | (Raise e, p2) => r = (Raise e, p2)
     | (Fuel, p2) => r = (Fuel, p2)
     end.
Proof.
  intros Hpar Hleft Hop H1 H2 H3 r.
  apply String.eqb_neq in H1, H2, H3.
  assert (Er : r = parse_formula tokens (S fuel) pos) by reflexivity.
  clearbody r. cbn [parse_formula] in Er. unfold bind in Er.
  repeat first
    [ rewrite peek_eq in Er | rewrite consume_any in Er
    | rewrite Hpar in Er | rewrite Hleft in Er | rewrite Hop in Er
    | progress change (tok_eqb (Some "(") "(") with true in Er
    | progress cbv beta iota in Er
    | rewrite consume_expected in Er by reflexivity ].
  destruct (parse_formula tokens fuel (p1 + 1)) as [[rhs| |] p2].
  2,3: subst r; split; [intros f; cbn; discriminate|reflexivity].
  rewrite consume_expected in Er by reflexivity.
  destruct (tok_eqb (nth_error tokens p2) ")").
  - rewrite H1, H2, H3 in Er. subst r.
    split; [intros f; cbn; discriminate|reflexivity].
  - subst r. split; [intros f; cbn; discriminate|reflexivity].
Qed.

Lemma binary_operator_check_witness :
  parse_formula (_tokenize "(P() , Q())") 12 0
  = (Raise (mkParseError "Unknown binary operator: ,"), 9).
Proof.
  pose proof (binary_operator_check (_tokenize "(P() , Q())") 11 0
                (Predicate "P" []) 4 ","
                eq_refl eq_refl eq_refl) as H.
  assert (Hne : forall s : string, String.eqb "," s = false -> "," <> s)
    by (intros s Hs; now apply String.eqb_neq).
  specialize (H (Hne "&" eq_refl) (Hne "|" eq_refl) (Hne "->" eq_refl)).
  destruct H as [_ H]. exact H.
Defined.

(** C4 fails as stated: in [(P() x)] the token taken as operator is [x],
    and the error is the one the right formula raises on [)]. *)
Lemma operator_error_masked :
  let tokens := _tokenize "(P() x)" in
  nth_error tokens 0 = Some "("
  /\ parse_formula tokens (budget tokens) 1 = (Ok (Predicate "P" []), 4)
  /\ nth_error tokens 4 = Some "x"
  /\ run_parse "(P() x)"
     = (Raise (mkParseError "Unexpected token for a formula: )"), 5).
Proof. vm_compute. repeat split; reflexivity. Qed.

(** C1, as the code has it: when [parse] succeeds on an input and the
    formula it returns has no [Negation], [Forall] or [Exists] node,
    tokenizing and parsing the canonical rendering of that formula
    succeeds, consumes every token and returns the same formula. *)
Theorem reparse_rendering (text : string) (f : Formula) :
  FOLParser_parse text = Ok f ->
  plain f = true ->
  run_parse (repr f) = (Ok f, List.length (_tokenize (repr f)))
  /\ FOLParser_parse (repr f) = Ok f.
Proof.
  intros Hf Hpl.
  pose proof (parsed_proper _ _ Hf) as Hpr.
  pose proof (parsed_names _ _ Hf) as Hn.
  pose proof (run_parse_repr f Hpl Hpr Hn) as R.
  rewrite (tokenize_repr f Hpl Hpr Hn).
  split; [exact R|]. unfold FOLParser_parse. now rewrite R.
Qed.

Lemma reparse_rendering_witness :
  FOLParser_parse "((P(x) & Q(A, y)) -> R())"
  = Ok (Implication
          (Conjunction (Predicate "P" [Variable_ "x"])
                       (Predicate "Q" [Constant "A"; Variable_ "y"]))
          (Predicate "R" [])).
Proof.
  exact (proj2 (reparse_rendering "( (P(x)&Q(A,y))->R( ) )"
                  (Implication
                     (Conjunction (Predicate "P" [Variable_ "x"])
                                  (Predicate "Q" [Constant "A"; Variable_ "y"]))
                     (Predicate "R" []))
                  eq_refl eq_refl)).
Defined.

(** C1 fails as stated: [__repr__] wraps the operand of a negation and the
    body of a quantifier in parentheses, and [parse_formula] reads an
    opening parenthesis as the start of a binary form.  The rendering of
    [~P(x)] and that of the sample input of the module do not parse. *)
Lemma rendering_not_reparsed :
  FOLParser_parse "~P(x)" = Ok (Negation (Predicate "P" [Variable_ "x"]))
  /\ repr (Negation (Predicate "P" [Variable_ "x"])) = "~(P(x))"
  /\ FOLParser_parse "~(P(x))"
     = Raise (mkParseError "Unexpected token for a formula: None")
  /\ repr (Forall (Variable_ "x")
             (Implication (Predicate "P" [Variable_ "x"])
                          (Predicate "Q" [Variable_ "x"; Constant "A"])))
     = "forall x. ((P(x) -> Q(x, A)))"
  /\ FOLParser_parse "forall x. ((P(x) -> Q(x, A)))"
     = Raise (mkParseError "Unexpected token for a formula: None").
Proof. vm_compute. repeat split; reflexivity. Qed.

(* ================================================================= *)
(** * Further properties *)

(** ** The tokens a production has consumed *)

Lemma app_same_length {A} (a b c d : list A) :
  a ++ b = c ++ d -> List.length a = List.length c -> a = c /\ b = d.
Proof.
  revert c. induction a as [|x a IH]; intros [|y c] H L; try discriminate.
  - auto.
  - cbn in H, L. injection H as -> H. injection L as L.
    destruct (IH c H L) as [-> ->]. auto.
Qed.

Lemma reads_one tokens pos t :
  nth_error tokens pos = Some t -> reads tokens pos [t] (pos + 1).
Proof.
  intros H. apply nth_error_split in H. destruct H as (l1 & l2 & -> & L).
  exists l1, l2. auto.
Qed.

Lemma reads_app tokens pos l1 q l2 p :
  reads tokens pos l1 q -> reads tokens q l2 p -> reads tokens pos (l1 ++ l2) p.
Proof.
  intros (pre1 & post1 & E1 & L1 & ->) (pre2 & post2 & E2 & L2 & ->).
  rewrite E1 in E2. rewrite app_assoc in E2.
  apply app_same_length in E2; [|rewrite length_app; lia].
  destruct E2 as [_ ->].
  exists pre1, post2. rewrite <- app_assoc, length_app. repeat split; auto. lia.
Qed.

Lemma reads_cons tokens pos t l p :
  nth_error tokens pos = Some t -> reads tokens (pos + 1) l p ->
  reads tokens pos (t :: l) p.
Proof. intros H R. apply (reads_app _ _ [t] _ _ _ (reads_one _ _ _ H) R). Qed.

Lemma reads_snoc tokens pos l q t :
  reads tokens pos l q -> nth_error tokens q = Some t ->
  reads tokens pos (l ++ [t]) (q + 1).
Proof. intros R H. exact (reads_app _ _ _ _ _ _ R (reads_one _ _ _ H)). Qed.

Lemma reads_all tokens l :
  reads tokens 0 l (List.length tokens) -> tokens = l.
Proof.
  intros (pre & post & E & L & P). destruct pre; [|discriminate].
  cbn in E. subst tokens. rewrite length_app in P.
  destruct post; [now rewrite app_nil_r|]. cbn in P. lia.
Qed.

(** Turns the tests that have succeeded into the tokens they have seen. *)
Ltac token_facts :=
  repeat match goal with
    | H : tok_eqb (Some ?s) _ = true |- _ =>
        apply tok_eqb_true in H; injection H as H;
        first [subst s | idtac]
    | H : tok_eqb (nth_error _ _) _ = true |- _ => apply tok_eqb_true in H
    | H : negb _ = false |- _ => apply negb_false_iff in H
    | H : negb _ = true |- _ => apply negb_true_iff in H
    end.

Section Consumed.

Variable tokens : list string.

Lemma terms_loop_reads fuel : forall acc pos ts p,
  terms_loop tokens fuel acc pos = (Ok ts, p) ->
  exists new,
    ts = acc ++ new /\ new <> [] /\ forallb is_term new = true
    /\ forallb names_tested new = true
    /\ reads tokens pos (sep_terms (map repr new)) p.
Proof.
  induction fuel as [|fuel IH]; intros acc pos ts p; [discriminate|].
  cbn [terms_loop].
  run_method; try discriminate; token_facts.
  - intros [= <- <-]. exists [Variable_ s]. repeat split; auto; try discriminate.
    + unfold names_tested. cbn. now rewrite andb_true_r.
    + now apply reads_one.
  - intros H. apply IH in H.
    destruct H as (new & -> & Hne & Ht & Hn & R).
    exists (Variable_ s :: new). repeat split; try discriminate.
    + now rewrite <- app_assoc.
    + exact Ht.
    + cbn [forallb]. rewrite Hn. unfold names_tested. cbn.
      now rewrite andb_true_r.
    + cbn [map]. destruct new as [|t new]; [congruence|].
      change (sep_terms (repr (Variable_ s) :: map repr (t :: new)))
        with (s :: "," :: sep_terms (map repr (t :: new))).
      apply reads_cons; auto. apply reads_cons; auto.
  - intros [= <- <-]. exists [Constant s]. repeat split; auto; try discriminate.
    + unfold names_tested, upper_only. cbn. rewrite Heqb0, Heqb1. reflexivity.
    + now apply reads_one.
  - intros H. apply IH in H.
    destruct H as (new & -> & Hne & Ht & Hn & R).
    exists (Constant s :: new). repeat split; try discriminate.
    + now rewrite <- app_assoc.
    + exact Ht.
    + cbn [forallb]. rewrite Hn. unfold names_tested, upper_only. cbn.
      rewrite Heqb0, Heqb1. reflexivity.
    + cbn [map]. destruct new as [|t new]; [congruence|].
      change (sep_terms (repr (Constant s) :: map repr (t :: new)))
        with (s :: "," :: sep_terms (map repr (t :: new))).
      apply reads_cons; auto. apply reads_cons; auto.
Qed.

End Consumed.

Section ConsumedFormula.

Variable tokens : list string.

Lemma parse_predicate_reads fuel pos f p :
  parse_predicate tokens fuel pos = (Ok f, p) ->
  reads tokens pos (tokens_of f) p.
Proof.
  unfold parse_predicate.
  run_formula; try discriminate; token_facts; intros [= <- <-]; cbn [tokens_of].
  - match goal with H : terms_loop _ _ _ _ = _ |- _ =>
      apply terms_loop_reads in H;
      destruct H as (new & -> & Hne & Ht & Hn & R) end.
    cbn [app]. apply reads_cons; auto. apply reads_cons; auto.
    now apply reads_snoc.
  - cbn [map sep_terms app].
    apply reads_cons; auto. apply reads_cons; auto. now apply reads_one.
Qed.

Lemma parse_formula_reads fuel : forall pos f p,
  parse_formula tokens fuel pos = (Ok f, p) ->
  reads tokens pos (tokens_of f) p.
Proof.
  induction fuel as [|fuel IH]; intros pos f p; [discriminate|].
  cbn [parse_formula].
  run_formula; try discriminate; try apply parse_predicate_reads;
    token_facts;
    repeat match goal with
      | H : (_ =? _)%string = true |- _ => apply String.eqb_eq in H; subst
      | H : parse_formula _ _ _ = (Ok _, _) |- _ => apply IH in H
      end;
    intros [= <- <-]; cbn [tokens_of repr].
  all: try (apply reads_cons; auto;
            match goal with
            | Hl : reads _ _ (tokens_of ?l) ?q, Hr : reads _ _ (tokens_of ?r) _
              |- reads _ _ (tokens_of ?l ++ _) _ =>
                apply (reads_app _ _ _ q); auto;
                apply reads_cons; auto; now apply reads_snoc
            end).
  all: repeat (apply reads_cons; auto).
  rewrite Heqo. f_equal.
  apply orb_prop in Heqb1. destruct Heqb1 as [H|H]; cbn [tok_eqb] in H.
  - congruence.
  - now apply String.eqb_eq in H.
Qed.

(** A successful [parse] has read the whole token list off its formula. *)
Lemma parse_reads fuel f p :
  parse tokens fuel 0 = (Ok f, p) -> tokens = tokens_of f.
Proof.
  unfold parse.
  pose proof (parse_formula_cursor tokens fuel 0) as (_ & Hc & _).
  specialize (Hc (Nat.le_0_l _)).
  run_formula; cbn [fst snd] in *; try discriminate. intros [= <- <-].
  match goal with H : parse_formula _ _ _ = _ |- _ =>
    apply parse_formula_reads in H; rename H into R end.
  match goal with H : (_ <? _) = false |- _ => apply Nat.ltb_ge in H end.
  apply reads_all. now replace (List.length tokens) with n by lia.
Qed.

End ConsumedFormula.

(** ** Names pass the tests of the parser *)

Lemma parse_formula_tested tokens fuel pos f p :
  parse_formula tokens fuel pos = (Ok f, p) -> names_tested f = true.
Proof.
  intros H. unfold names_tested.
  eapply parse_formula_names; [| | | |exact H]; intros i t _ _; auto.
  unfold upper_only. now intros -> ->.
Qed.

(** ** Parsing the tokens of a formula *)

Lemma parse_term_tested tokens pos t :
  is_term t = true -> names_tested t = true ->
  nth_error tokens pos = Some (repr t) ->
  parse_term tokens pos = (Ok t, pos + 1)
  /\ tok_eqb (Some (repr t)) ")" = false.
Proof.
  intros Ht Hn E. unfold parse_term.
  destruct t as [n|n| | | | | | |]; try discriminate; cbn [repr] in *;
    unfold names_tested in Hn; cbn [names_sat] in Hn.
  - destruct (lower_head_tests n Hn) as [Hne Hc].
    split; auto. follow. reflexivity.
  - unfold upper_only in Hn. apply andb_prop in Hn. destruct Hn as [Hl Hu].
    apply negb_true_iff in Hl.
    destruct (upper_head_tests n Hu) as (Hne & _ & _ & _ & _ & Hc).
    split; auto. follow. reflexivity.
Qed.

Lemma terms_loop_tokens ts : forall pre post fuel acc,
  ts <> [] ->
  forallb is_term ts = true -> forallb names_tested ts = true ->
  List.length ts <= fuel ->
  terms_loop (pre ++ sep_terms (map repr ts) ++ ")" :: post) fuel acc
    (List.length pre)
  = (Ok (acc ++ ts), List.length pre + List.length (sep_terms (map repr ts))).
Proof.
  induction ts as [|t ts IH]; intros pre post fuel acc Hne Ht Hn Hf; [congruence|].
  cbn [forallb] in Ht, Hn. apply andb_prop in Ht, Hn.
  destruct Ht as [Ht Hts], Hn as [Hn Hns].
  destruct fuel as [|fuel]; [cbn in Hf; lia|]. cbn [List.length] in Hf.
  cbn [terms_loop map].
  destruct ts as [|t' ts].
  - cbn [map sep_terms app List.length].
    set (tokens := pre ++ repr t :: ")" :: post).
    assert (E0 : nth_error tokens (List.length pre) = Some (repr t)).
    { rewrite <- (Nat.add_0_r (List.length pre)). now apply nth_error_skip. }
    assert (E1 : nth_error tokens (List.length pre + 1) = Some ")").
    { now apply nth_error_skip. }
    destruct (parse_term_tested tokens _ t Ht Hn E0) as [P _].
    unfold bind at 1. rewrite P. follow. reflexivity.
  - change (sep_terms (repr t :: map repr (t' :: ts)))
      with (repr t :: "," :: sep_terms (map repr (t' :: ts))).
    set (rest := sep_terms (map repr (t' :: ts))).
    cbn [app]. set (tokens := pre ++ repr t :: "," :: rest ++ ")" :: post).
    assert (E0 : nth_error tokens (List.length pre) = Some (repr t)).
    { rewrite <- (Nat.add_0_r (List.length pre)). now apply nth_error_skip. }
    assert (E1 : nth_error tokens (List.length pre + 1) = Some ",").
    { now apply nth_error_skip. }
    destruct (parse_term_tested tokens _ t Ht Hn E0) as [P _].
    unfold bind at 1. rewrite P.
    assert (L : terms_loop tokens fuel (acc ++ [t]) (List.length pre + 1 + 1)
                = (Ok ((acc ++ [t]) ++ t' :: ts),
                   List.length (pre ++ [repr t; ","]) + List.length rest)).
    { replace (List.length pre + 1 + 1)
        with (List.length (pre ++ [repr t; ","]))
        by (rewrite length_app; cbn; lia).
      replace tokens with ((pre ++ [repr t; ","]) ++ rest ++ ")" :: post)
        by (unfold tokens; now rewrite <- app_assoc).
      apply IH; auto; try discriminate. lia. }
    follow. rewrite <- app_assoc. cbn [app]. f_equal.
    rewrite length_app. cbn [List.length]. lia.
Qed.

Lemma parse_predicate_tokens name ts pre post fuel :
  head_isupper name = true ->
  forallb is_term ts = true -> forallb names_tested ts = true ->
  List.length ts <= fuel ->
  parse_predicate (pre ++ tokens_of (Predicate name ts) ++ post) fuel
    (List.length pre)
  = (Ok (Predicate name ts),
     List.length pre + List.length (tokens_of (Predicate name ts))).
Proof.
  intros Hu Ht Hn Hf. unfold parse_predicate. cbn [tokens_of].
  set (names := sep_terms (map repr ts)).
  set (tokens := pre ++ (name :: "(" :: names ++ [")"]) ++ post).
  assert (E0 : nth_error tokens (List.length pre) = Some name).
  { rewrite <- (Nat.add_0_r (List.length pre)). now apply nth_error_skip. }
  assert (E1 : nth_error tokens (List.length pre + 1) = Some "(").
  { now apply nth_error_skip. }
  assert (T : tokens = (pre ++ [name; "("]) ++ names ++ ")" :: post).
  { unfold tokens. rewrite <- !app_assoc. cbn [app]. now rewrite <- app_assoc. }
  assert (Lp : List.length (pre ++ [name; "("]) = List.length pre + 1 + 1).
  { rewrite length_app. cbn. lia. }
  destruct ts as [|t ts].
  - assert (E2 : nth_error tokens (List.length pre + 1 + 1) = Some ")").
    { rewrite T, <- Lp, <- (Nat.add_0_r (List.length (pre ++ _))).
      now apply nth_error_skip. }
    follow. f_equal. cbn. lia.
  - cbn [forallb] in Ht, Hn.
    pose proof Ht as Ht'. pose proof Hn as Hn'.
    apply andb_prop in Ht', Hn'. destruct Ht' as [Ht1 _], Hn' as [Hn1 _].
    assert (E2 : nth_error tokens (List.length pre + 1 + 1) = Some (repr t)).
    { rewrite T, <- Lp, <- (Nat.add_0_r (List.length (pre ++ _))).
      apply nth_error_skip. unfold names. cbn [map sep_terms].
      destruct (map repr ts); reflexivity. }
    destruct (parse_term_tested tokens _ t Ht1 Hn1 E2) as [_ Hc].
    assert (L : terms_loop tokens fuel [] (List.length pre + 1 + 1)
                = (Ok (t :: ts),
                   List.length (pre ++ [name; "("]) + List.length names)).
    { rewrite <- Lp, T.
      apply (terms_loop_tokens (t :: ts) (pre ++ [name; "("]) post fuel []);
        auto. discriminate. }
    assert (E3 : nth_error tokens
                   (List.length (pre ++ [name; "("]) + List.length names)
                 = Some ")").
    { rewrite T. rewrite <- (Nat.add_0_r (List.length names)).
      apply nth_error_skip. now apply nth_error_skip. }
    follow. f_equal. rewrite Lp. cbn [List.length]. rewrite length_app. cbn. lia.
Qed.

(** The parenthesized form around two token lists that parse. *)
Lemma parse_binary_tokens (op : string) (mk : Formula -> Formula -> Formula)
    (l r : Formula) (tl tr : list string) :
  (op = "&" /\ mk = Conjunction) \/ (op = "|" /\ mk = Disjunction)
  \/ (op = "->" /\ mk = Implication) ->
  (forall pre post fuel,
     List.length tl <= fuel ->
     parse_formula (pre ++ tl ++ post) fuel (List.length pre)
     = (Ok l, List.length pre + List.length tl)) ->
  (forall pre post fuel,
     List.length tr <= fuel ->
     parse_formula (pre ++ tr ++ post) fuel (List.length pre)
     = (Ok r, List.length pre + List.length tr)) ->
  forall pre post fuel,
    List.length tl + List.length tr + 3 <= fuel ->
    parse_formula (pre ++ ("(" :: tl ++ op :: tr ++ [")"]) ++ post)
      fuel (List.length pre)
    = (Ok (mk l r), List.length pre + (List.length tl + List.length tr + 3)).
Proof.
  intros Hop IHl IHr pre post fuel Hf.
  destruct fuel as [|fuel]; [lia|].
  set (tokens := pre ++ ("(" :: tl ++ op :: tr ++ [")"]) ++ post).
  set (pre1 := pre ++ ["("]).
  set (pre2 := pre1 ++ tl ++ [op]).
  assert (T1 : tokens = pre1 ++ tl ++ (op :: tr ++ ")" :: post)).
  { unfold tokens, pre1.
    repeat first [rewrite <- app_assoc | progress cbn [app]]. reflexivity. }
  assert (T2 : tokens = pre2 ++ tr ++ (")" :: post)).
  { unfold tokens, pre2, pre1.
    repeat first [rewrite <- app_assoc | progress cbn [app]]. reflexivity. }
  assert (L1 : List.length pre1 = List.length pre + 1).
  { unfold pre1. rewrite length_app. reflexivity. }
  assert (L2 : List.length pre2 = List.length pre1 + List.length tl + 1).
  { unfold pre2. rewrite !length_app. cbn. lia. }
  assert (E0 : nth_error tokens (List.length pre) = Some "(").
  { rewrite <- (Nat.add_0_r (List.length pre)). now apply nth_error_skip. }
  assert (Pl : parse_formula tokens fuel (List.length pre + 1)
               = (Ok l, List.length pre1 + List.length tl)).
  { rewrite <- L1, T1. apply IHl. lia. }
  assert (E1 : nth_error tokens (List.length pre1 + List.length tl) = Some op).
  { rewrite T1. apply nth_error_skip.
    rewrite <- (Nat.add_0_r (List.length tl)). now apply nth_error_skip. }
  assert (Pr : parse_formula tokens fuel (List.length pre1 + List.length tl + 1)
               = (Ok r, List.length pre2 + List.length tr)).
  { rewrite <- L2, T2. apply IHr. lia. }
  assert (E2 : nth_error tokens (List.length pre2 + List.length tr) = Some ")").
  { rewrite T2. apply nth_error_skip.
    rewrite <- (Nat.add_0_r (List.length tr)). now apply nth_error_skip. }
  cbn [parse_formula]. fold tokens.
  destruct Hop as [[-> ->]|[[-> ->]|[-> ->]]];
    follow; f_equal; lia.
Qed.

(** A quantifier in front of a token list that parses. *)
Lemma parse_quantifier_tokens (kw name : string)
    (mk : Formula -> Formula -> Formula) (g : Formula) (tg : list string) :
  (kw = "forall" /\ mk = Forall) \/ (kw = "exists" /\ mk = Exists) ->
  str_islower name = true ->
  (forall pre post fuel,
     List.length tg <= fuel ->
     parse_formula (pre ++ tg ++ post) fuel (List.length pre)
     = (Ok g, List.length pre + List.length tg)) ->
  forall pre post fuel,
    List.length tg + 3 <= fuel ->
    parse_formula (pre ++ (kw :: name :: "." :: tg) ++ post) fuel
      (List.length pre)
    = (Ok (mk (Variable_ name) g), List.length pre + (List.length tg + 3)).
Proof.
  intros Hkw Hlow IHg pre post fuel Hf.
  destruct fuel as [|fuel]; [lia|].
  set (tokens := pre ++ (kw :: name :: "." :: tg) ++ post).
  set (pre1 := pre ++ [kw; name; "."]).
  assert (T1 : tokens = pre1 ++ tg ++ post).
  { unfold tokens, pre1.
    repeat first [rewrite <- app_assoc | progress cbn [app]]. reflexivity. }
  assert (L1 : List.length pre1 = List.length pre + 1 + 1 + 1).
  { unfold pre1. rewrite length_app. cbn. lia. }
  assert (E0 : nth_error tokens (List.length pre) = Some kw).
  { rewrite <- (Nat.add_0_r (List.length pre)). now apply nth_error_skip. }
  assert (E1 : nth_error tokens (List.length pre + 1) = Some name).
  { now apply nth_error_skip. }
  assert (E2 : nth_error tokens (List.length pre + 1 + 1) = Some ".").
  { rewrite <- Nat.add_assoc. now apply nth_error_skip. }
  assert (Pg : parse_formula tokens fuel (List.length pre + 1 + 1 + 1)
               = (Ok g, List.length pre1 + List.length tg)).
  { rewrite <- L1, T1. apply IHg. lia. }
  cbn [parse_formula]. fold tokens. unfold parse_quantifier.
  destruct Hkw as [[-> ->]|[-> ->]]; follow; f_equal; lia.
Qed.

(** [parse_formula] builds [f] from its tokens, wherever they stand in the
    token list, when [f] has the shape and the names the parser produces. *)
Lemma parse_formula_tokens f :
  proper f = true -> names_tested f = true ->
  forall pre post fuel,
    List.length (tokens_of f) <= fuel ->
    parse_formula (pre ++ tokens_of f ++ post) fuel (List.length pre)
    = (Ok f, List.length pre + List.length (tokens_of f)).
Proof.
  induction f
    as [n|n|n ts|g IH|l IHl r IHr|l IHl r IHr|l IHl r IHr|v IHv g IH|v IHv g IH];
    try discriminate; intros Hpr Hn pre post fuel Hf;
    unfold names_tested in Hn; cbn [names_sat proper] in Hn, Hpr.
  - apply andb_prop in Hn. destruct Hn as [Hu Hts].
    destruct fuel as [|fuel]; [cbn in Hf; lia|].
    assert (Hlen : List.length ts <= fuel).
    { cbn [tokens_of List.length] in Hf. rewrite length_app in Hf. cbn in Hf.
      destruct ts as [|t ts]; [cbn; lia|].
      rewrite sep_terms_length in Hf by discriminate.
      rewrite length_map in Hf. cbn [List.length] in *. lia. }
    pose proof (parse_predicate_tokens n ts pre post fuel Hu Hpr Hts Hlen) as P.
    destruct (upper_head_tests n Hu) as (Hne & T1 & T2 & T3 & T4 & _).
    cbn [parse_formula].
    assert (E0 : nth_error (pre ++ tokens_of (Predicate n ts) ++ post)
                   (List.length pre) = Some n).
    { rewrite <- (Nat.add_0_r (List.length pre)). now apply nth_error_skip. }
    unfold bind at 1. rewrite peek_eq, E0. cbv beta iota.
    rewrite T1, T2, T3, T4, Hne, Hu. cbn [orb andb]. exact P.
  - destruct fuel as [|fuel]; [cbn in Hf; lia|]. cbn [tokens_of List.length] in Hf.
    cbn [tokens_of].
    set (tokens := pre ++ ("~" :: tokens_of g) ++ post).
    assert (E0 : nth_error tokens (List.length pre) = Some "~").
    { rewrite <- (Nat.add_0_r (List.length pre)). now apply nth_error_skip. }
    assert (Pg : parse_formula tokens fuel (List.length pre + 1)
                 = (Ok g, List.length (pre ++ ["~"]) + List.length (tokens_of g))).
    { replace (List.length pre + 1) with (List.length (pre ++ ["~"]))
        by (rewrite length_app; reflexivity).
      replace tokens with ((pre ++ ["~"]) ++ tokens_of g ++ post)
        by (unfold tokens; now rewrite <- app_assoc).
      apply IH; auto. lia. }
    cbn [parse_formula]. follow. f_equal. rewrite length_app. cbn. lia.
  - apply andb_prop in Hpr, Hn. destruct Hpr as [Ql Qr], Hn as [Nl Nr].
    assert (Hlen : List.length (tokens_of (Conjunction l r))
                   = List.length (tokens_of l) + List.length (tokens_of r) + 3).
    { cbn [tokens_of].
      repeat first [rewrite length_app | progress cbn [List.length]]. lia. }
    rewrite Hlen in *. cbn [tokens_of].
    apply (parse_binary_tokens "&" Conjunction); auto.
  - apply andb_prop in Hpr, Hn. destruct Hpr as [Ql Qr], Hn as [Nl Nr].
    assert (Hlen : List.length (tokens_of (Disjunction l r))
                   = List.length (tokens_of l) + List.length (tokens_of r) + 3).
    { cbn [tokens_of].
      repeat first [rewrite length_app | progress cbn [List.length]]. lia. }
    rewrite Hlen in *. cbn [tokens_of].
    apply (parse_binary_tokens "|" Disjunction); auto.
  - apply andb_prop in Hpr, Hn. destruct Hpr as [Ql Qr], Hn as [Nl Nr].
    assert (Hlen : List.length (tokens_of (Implication l r))
                   = List.length (tokens_of l) + List.length (tokens_of r) + 3).
    { cbn [tokens_of].
      repeat first [rewrite length_app | progress cbn [List.length]]. lia. }
    rewrite Hlen in *. cbn [tokens_of].
    apply (parse_binary_tokens "->" Implication); auto.
  - apply andb_prop in Hpr, Hn. destruct Hpr as [Qv Qg], Hn as [Nv Ng].
    destruct v as [name| | | | | | | |]; try discriminate. cbn [bound_sat] in Nv.
    assert (Hlen : List.length (tokens_of (Forall (Variable_ name) g))
                   = List.length (tokens_of g) + 3).
    { cbn [tokens_of List.length]. lia. }
    rewrite Hlen in *. cbn [tokens_of repr].
    apply (parse_quantifier_tokens "forall" name Forall); auto.
  - apply andb_prop in Hpr, Hn. destruct Hpr as [Qv Qg], Hn as [Nv Ng].
    destruct v as [name| | | | | | | |]; try discriminate. cbn [bound_sat] in Nv.
    assert (Hlen : List.length (tokens_of (Exists (Variable_ name) g))
                   = List.length (tokens_of g) + 3).
    { cbn [tokens_of List.length]. lia. }
    rewrite Hlen in *. cbn [tokens_of repr].
    apply (parse_quantifier_tokens "exists" name Exists); auto.
Qed.

Lemma tokens_of_closed f :
  proper f = true ->
  exists front, tokens_of f = front ++ [")"] /\ 2 <= List.length front.
Proof.
  induction f
    as [n|n|n ts|g IH|l IHl r IHr|l IHl r IHr|l IHl r IHr|v IHv g IH|v IHv g IH];
    try discriminate; cbn [proper tokens_of]; intros H.
  - exists (n :: "(" :: sep_terms (map repr ts)). split; [reflexivity|cbn; lia].
  - destruct (IH H) as (front & -> & L). exists ("~" :: front).
    split; [reflexivity|cbn; lia].
  - exists ("(" :: tokens_of l ++ "&" :: tokens_of r). split.
    + cbn [app]. f_equal. now rewrite <- app_assoc.
    + cbn [List.length]. rewrite length_app. cbn. lia.
  - exists ("(" :: tokens_of l ++ "|" :: tokens_of r). split.
    + cbn [app]. f_equal. now rewrite <- app_assoc.
    + cbn [List.length]. rewrite length_app. cbn. lia.
  - exists ("(" :: tokens_of l ++ "->" :: tokens_of r). split.
    + cbn [app]. f_equal. now rewrite <- app_assoc.
    + cbn [List.length]. rewrite length_app. cbn. lia.
  - apply andb_prop in H. destruct H as [_ H].
    destruct (IH H) as (front & -> & L). exists ("forall" :: repr v :: "." :: front).
    split; [reflexivity|cbn; lia].
  - apply andb_prop in H. destruct H as [_ H].
    destruct (IH H) as (front & -> & L). exists ("exists" :: repr v :: "." :: front).
    split; [reflexivity|cbn; lia].
Qed.

Lemma parse_ok_formula tokens fuel f p :
  parse tokens fuel 0 = (Ok f, p) ->
  exists q, parse_formula tokens fuel 0 = (Ok f, q).
Proof.
  unfold parse. run_formula; try discriminate. intros [= <- <-]. eauto.
Qed.

Lemma parse_tokens_of f :
  proper f = true -> names_tested f = true ->
  forall post fuel,
    List.length (tokens_of f) <= fuel ->
    parse_formula (tokens_of f ++ post) fuel 0
    = (Ok f, List.length (tokens_of f)).
Proof.
  intros Hpr Hn post fuel Hf.
  exact (parse_formula_tokens f Hpr Hn [] post fuel Hf).
Qed.

(** X1: when [parse] returns a formula, the token list is exactly the token
    sequence of that formula under the grammar, the cursor is at its end,
    and the formula has the shape and the names the productions test for. *)
Theorem parse_reads_tokens (tokens : list string) (fuel : nat) (f : Formula)
    (p : nat) :
  parse tokens fuel 0 = (Ok f, p) ->
  tokens = tokens_of f /\ p = List.length tokens
  /\ proper f = true /\ names_tested f = true.
Proof.
  intros H. pose proof (parse_reads tokens fuel f p H) as E.
  destruct (parse_ok_formula _ _ _ _ H) as (q & Hq).
  repeat split; auto.
  - revert H. unfold parse.
    pose proof (parse_formula_cursor tokens fuel 0) as (_ & Hc & _).
    specialize (Hc (Nat.le_0_l _)).
    run_formula; cbn [fst snd] in *; try discriminate. intros [= <- <-].
    match goal with H : (_ <? _) = false |- _ => apply Nat.ltb_ge in H end. lia.
  - eapply parse_formula_proper; eauto.
  - eapply parse_formula_tested; eauto.
Qed.

Lemma parse_reads_tokens_witness :
  _tokenize "exists y. ~(P(y) & Q(y))"
  = tokens_of (Exists (Variable_ "y")
                 (Negation (Conjunction (Predicate "P" [Variable_ "y"])
                                        (Predicate "Q" [Variable_ "y"])))).
Proof.
  exact (proj1 (parse_reads_tokens (_tokenize "exists y. ~(P(y) & Q(y))")
                  16 _ 15 eq_refl)).
Defined.

(** X2: every formula of the shape the parser produces, with names that
    pass the parser's tests, is returned by [parse] from its token
    sequence, with every token consumed. *)
Theorem parse_builds_formula (f : Formula) :
  proper f = true -> names_tested f = true ->
  parse (tokens_of f) (budget (tokens_of f)) 0
  = (Ok f, List.length (tokens_of f)).
Proof.
  intros Hpr Hn. unfold parse, bind.
  pose proof (parse_tokens_of f Hpr Hn [] (budget (tokens_of f))) as P.
  rewrite app_nil_r in P. rewrite P by (unfold budget; lia).
  unfold get_pos, ret. now rewrite Nat.ltb_irrefl.
Qed.

Lemma parse_builds_formula_witness :
  parse ["forall"; "x"; "."; "~"; "P"; "("; "x"; ","; "A"; ")"] 11 0
  = (Ok (Forall (Variable_ "x")
           (Negation (Predicate "P" [Variable_ "x"; Constant "A"]))), 10).
Proof.
  exact (parse_builds_formula
           (Forall (Variable_ "x")
              (Negation (Predicate "P" [Variable_ "x"; Constant "A"])))
           eq_refl eq_refl).
Defined.

(** X3: [parse] is injective on token lists: two token lists from which it
    returns the same formula are equal. *)
Theorem parse_injective (tokens1 tokens2 : list string) (fuel1 fuel2 : nat)
    (f : Formula) (p1 p2 : nat) :
  parse tokens1 fuel1 0 = (Ok f, p1) ->
  parse tokens2 fuel2 0 = (Ok f, p2) ->
  tokens1 = tokens2.
Proof.
  intros H1 H2. apply parse_reads in H1, H2. congruence.
Qed.

Lemma parse_injective_witness :
  _tokenize "R(B,z)" = _tokenize " R ( B , z ) ".
Proof.
  exact (parse_injective (_tokenize "R(B,z)") (_tokenize " R ( B , z ) ") 7 7
           (Predicate "R" [Constant "B"; Variable_ "z"]) 6 6 eq_refl eq_refl).
Defined.

(** X4: a token list from which [parse] returns a formula cannot be
    extended: with any token appended, and anything after it, [parse]
    raises the end-of-expression error naming that token, the cursor at
    the end of the accepted list. *)
Theorem parse_rejects_extension (tokens : list string) (fuel : nat)
    (f : Formula) (p : nat) (t : string) (rest : list string) :
  parse tokens fuel 0 = (Ok f, p) ->
  parse (tokens ++ t :: rest) (budget (tokens ++ t :: rest)) 0
  = (Raise (mkParseError ("Unexpected token '" ++ t ++ "' at end of expression")),
     List.length tokens).
Proof.
  intros H. pose proof (parse_reads tokens fuel f p H) as E.
  destruct (parse_ok_formula _ _ _ _ H) as (q & Hq).
  pose proof (parse_formula_proper _ _ _ _ _ Hq) as Hpr.
  pose proof (parse_formula_tested _ _ _ _ _ Hq) as Hn.
  subst tokens.
  pose proof (parse_tokens_of f Hpr Hn (t :: rest)
                (budget (tokens_of f ++ t :: rest))) as P.
  unfold parse, bind. rewrite P by (unfold budget; rewrite length_app; lia).
  unfold get_pos.
  assert (L : (List.length (tokens_of f)
               <? List.length (tokens_of f ++ t :: rest)) = true).
  { apply Nat.ltb_lt. rewrite length_app. cbn. lia. }
  rewrite L, peek_eq.
  assert (E : nth_error (tokens_of f ++ t :: rest) (List.length (tokens_of f))
              = Some t).
  { rewrite <- (Nat.add_0_r (List.length (tokens_of f))).
    now apply nth_error_skip. }
  rewrite E. reflexivity.
Qed.

Lemma parse_rejects_extension_witness :
  parse (_tokenize "P(x)" ++ ["&"; "Q"]) 7 0
  = (Raise (mkParseError "Unexpected token '&' at end of expression"), 4).
Proof.
  exact (parse_rejects_extension (_tokenize "P(x)") 5
           (Predicate "P" [Variable_ "x"]) 4 "&" ["Q"] eq_refl).
Defined.

(** X5: for every input, in a formula returned by [parse_formula] each
    predicate name begins with an uppercase character, each [Variable] of a
    term list has a name that begins with a lowercase character, each
    [Constant] a name that begins with an uppercase and not a lowercase
    character, and each quantifier binds a [Variable] whose name passes
    [islower()]. *)
Theorem parsed_names_tested (tokens : list string) (fuel pos : nat)
    (f : Formula) (p : nat) :
  parse_formula tokens fuel pos = (Ok f, p) -> names_tested f = true.
Proof. apply parse_formula_tested. Qed.

Lemma parsed_names_tested_witness :
  names_tested (Forall (Variable_ "x")
                  (Implication (Predicate "P" [Variable_ "x"])
                     (Predicate "Q" [Variable_ "x"; Constant "A"]))) = true.
Proof.
  exact (parsed_names_tested (_tokenize "forall x. (P(x) -> Q(x, A))") 17 0 _ 16
           eq_refl).
Defined.

(** X6: a token list from which [parse] returns a formula ends with a
    closing parenthesis and has at least three tokens. *)
Theorem accepted_ends_closed (tokens : list string) (fuel : nat) (f : Formula)
    (p : nat) :
  parse tokens fuel 0 = (Ok f, p) ->
  exists front, tokens = front ++ [")"] /\ 2 <= List.length front.
Proof.
  intros H. pose proof (parse_reads tokens fuel f p H) as E.
  destruct (parse_ok_formula _ _ _ _ H) as (q & Hq).
  rewrite E. apply tokens_of_closed. eapply parse_formula_proper; eauto.
Qed.

Lemma accepted_ends_closed_witness :
  exists front, _tokenize "~P()" = front ++ [")"] /\ 2 <= List.length front.
Proof.
  exact (accepted_ends_closed (_tokenize "~P()") 5
           (Negation (Predicate "P" [])) 4 eq_refl).
Defined.

(** ** Blank text *)

Lemma visible_empty_blank s : visible s = "" -> str_forallb isspace s = true.
Proof.
  induction s as [|c s IH]; cbn; auto.
  destruct (isspace c); cbn; auto. discriminate.
Qed.

Lemma keep_visible t : keep t = true -> visible t <> "".
Proof.
  intros H E. apply visible_empty_blank in E.
  unfold keep, str_isspace in H. rewrite E in H.
  destruct t; cbn in H; discriminate.
Qed.

Lemma sapp_empty (a b : string) : (a ++ b)%string = "" -> a = "" /\ b = "".
Proof. destruct a; cbn; [auto|discriminate]. Qed.

Lemma blank_no_token text :
  str_forallb isspace text = true -> _tokenize text = [].
Proof.
  intros B. pose proof (tokenize_visible text) as V.
  rewrite (visible_blank _ B) in V.
  destruct (_tokenize text) as [|t ts] eqn:E; auto. exfalso.
  assert (K : keep t = true).
  { assert (Hin : List.In t (_tokenize text)) by (rewrite E; now left).
    unfold _tokenize in Hin. apply filter_In in Hin. tauto. }
  rewrite concat_all_cons, visible_app in V.
  apply sapp_empty in V. destruct V as [V _].
  now apply keep_visible in K.
Qed.

(** X7: the tokenizer returns no token exactly when the text is empty or
    consists of whitespace only. *)
Theorem tokenize_blank (text : string) :
  _tokenize text = [] <-> str_forallb isspace text = true.
Proof.
  split.
  - intros E. apply visible_empty_blank.
    rewrite <- tokenize_visible, E. reflexivity.
  - apply blank_no_token.
Qed.

(** ** Tokens joined by blanks *)

Lemma match_padded w1 p w2 s :
  str_forallb isspace w1 = true -> str_forallb isspace w2 = true ->
  match_group (p ++ w2 ++ s) = Some (p, (w2 ++ s)%string) ->
  match_at (w1 ++ p ++ w2 ++ s) = Some (p, skip_space s).
Proof.
  intros H1 H2 Hg. unfold match_at. rewrite span_blank by auto.
  pose proof (match_group_spec _ _ _ Hg) as (_ & Hl).
  apply legal_token_nonempty in Hl.
  assert (Hsk : snd (span isspace (p ++ w2 ++ s)) = (p ++ w2 ++ s)%string).
  { destruct p as [|c p]; [discriminate|]. cbn [append].
    destruct (isspace c) eqn:Ec.
    - exfalso. cbn [append] in Hg.
      assert (Ho : opens (String c (p ++ w2 ++ s)) = false).
      { cbn. now rewrite (space_not_start _ Ec), (space_not_dash _ Ec). }
      apply match_group_opens in Ho. congruence.
    - now rewrite span_head_false. }
  rewrite Hsk, Hg. unfold skip_space. now rewrite span_blank.
Qed.

Lemma span_all p a : str_forallb p a = true -> span p a = (a, "").
Proof.
  induction a as [|c a IH]; cbn; auto.
  intros H. apply andb_prop in H. destruct H as [Hc Ha].
  now rewrite Hc, IH.
Qed.

Lemma span_before_space p a K :
  str_forallb p a = true -> p " "%char = false ->
  K = "" \/ (exists K', K = String " " K') ->
  span p (a ++ K) = (a, K).
Proof.
  intros Ha Hs [->|[K' ->]].
  - rewrite sapp_nil_r. now apply span_all.
  - now apply span_stop.
Qed.

(** A token of a legal shape, padded as the tokenizer pads it, in front of
    a blank or the end of the text. *)
Lemma legal_match t K :
  legal_token t = true ->
  K = "" \/ (exists K', K = String " " K') ->
  match_at (replace3 t ++ K) = Some (t, skip_space K).
Proof.
  intros H HK. unfold legal_token in H.
  apply orb_prop in H. destruct H as [H|H]; [apply orb_prop in H; destruct H as [H|H]|].
  - apply punct_cases in H. cbn [List.In] in H.
    destruct H as [<-|[<-|[<-|[<-|[<-|[<-|[<-|[<-|[]]]]]]]]].
    + exact (match_padded " " "(" " " K eq_refl eq_refl eq_refl).
    + exact (match_padded " " ")" " " K eq_refl eq_refl eq_refl).
    + exact (match_padded " " "." " " K eq_refl eq_refl eq_refl).
    + exact (match_padded "" "," "" K eq_refl eq_refl eq_refl).
    + exact (match_padded "" "~" "" K eq_refl eq_refl eq_refl).
    + exact (match_padded "" "&" "" K eq_refl eq_refl eq_refl).
    + exact (match_padded "" "|" "" K eq_refl eq_refl eq_refl).
    + exact (match_padded "" "->" "" K eq_refl eq_refl eq_refl).
  - destruct t as [|c n]; [discriminate|]. cbn in H.
    apply andb_prop in H. destruct H as [Hc Hn].
    rewrite replace3_clean.
    + unfold match_at. cbn [append].
      rewrite span_head_false by now apply lower_az_visible.
      cbn [snd]. rewrite lower_az_group by auto.
      rewrite span_before_space by auto. reflexivity.
    + cbn. rewrite (lower_az_free _ Hc). cbn.
      revert Hn. apply str_forallb_impl, tail_lower_free.
  - destruct t as [|c n]; [discriminate|]. cbn in H.
    apply andb_prop in H. destruct H as [Hc Hn].
    rewrite replace3_clean.
    + unfold match_at. cbn [append].
      rewrite span_head_false by now apply upper_AZ_visible.
      cbn [snd]. rewrite upper_AZ_group by auto.
      rewrite span_before_space by auto. reflexivity.
    + cbn. rewrite (upper_AZ_free _ Hc). cbn.
      revert Hn. apply str_forallb_impl, tail_upper_free.
Qed.

Lemma lex_join ts :
  List.Forall (fun t => legal_token t = true) ts ->
  lex (replace3 (join " " ts)) = ts
  /\ headed (replace3 (join " " ts)).
Proof.
  induction 1 as [|t ts Ht Hts IH].
  - split; reflexivity.
  - destruct ts as [|t' ts].
    + cbn [join].
      pose proof (legal_match t "" Ht (or_introl eq_refl)) as M.
      rewrite sapp_nil_r in M. split.
      * now rewrite (lex_match _ _ _ M).
      * eapply headed_match; eauto.
    + change (join " " (t :: t' :: ts))
        with (t ++ " " ++ join " " (t' :: ts))%string.
      rewrite !replace3_app. change (replace3 " ") with " ".
      destruct IH as [IHl IHh].
      set (X := replace3 (join " " (t' :: ts))) in *.
      pose proof (legal_match t (" " ++ X) Ht
                    (or_intror (ex_intro _ X eq_refl))) as M.
      split.
      * rewrite (lex_match _ _ _ M). f_equal.
        change (skip_space (" " ++ X)) with (skip_space (String " " X)).
        unfold skip_space. rewrite span_head_true by reflexivity.
        fold (skip_space X). rewrite IHh. exact IHl.
      * eapply headed_match; eauto.
Qed.

(** X8: tokens of legal shapes survive the tokenizer: for every list of
    tokens of the shapes of the pattern, tokenizing the tokens joined by
    single blanks returns the list. *)
Theorem tokenize_join (ts : list string) :
  List.Forall (fun t => legal_token t = true) ts ->
  _tokenize (join " " ts) = ts.
Proof. intros H. rewrite tokenize_lex. now apply lex_join. Qed.

Lemma tokenize_join_witness :
  _tokenize (join " " ["forall"; "x1"; "."; "("; "P"; "->"; "Q2"; ")"])
  = ["forall"; "x1"; "."; "("; "P"; "->"; "Q2"; ")"].
Proof.
  apply tokenize_join. repeat constructor.
Defined.

(** ** The documented syntax *)

Lemma lower_ident_tests n :
  lower_ident n = true -> head_islower n = true /\ str_islower n = true.
Proof.
  destruct n as [|c n]; [discriminate|]. cbn [lower_ident head_islower].
  intros H. apply andb_prop in H. destruct H as [Hc Hn].
  split; [now apply lower_az_lower|].
  unfold str_islower. cbn [str_existsb].
  rewrite (lower_az_lower _ Hc), (lower_az_not_upper _ Hc). cbn.
  rewrite andb_true_r. apply negb_true_iff.
  induction n as [|d n IH]; auto. cbn in Hn |- *.
  apply andb_prop in Hn. destruct Hn as [Hd Hn]. rewrite (IH Hn), orb_false_r.
  revert Hd. clear. by_cases d.
Qed.

Lemma upper_ident_tests n :
  upper_ident n = true -> upper_only n = true.
Proof.
  destruct n as [|c n]; [discriminate|]. cbn [upper_ident]. unfold upper_only.
  cbn [head_islower head_isupper].
  intros H. apply andb_prop in H. destruct H as [Hc _].
  now rewrite (upper_AZ_upper _ Hc), (upper_AZ_not_lower _ Hc).
Qed.

Lemma legal_lower n : lower_ident n = true -> legal_token n = true.
Proof. intros H. unfold legal_token. rewrite H. now rewrite orb_true_r. Qed.

Lemma legal_upper n : upper_ident n = true -> legal_token n = true.
Proof. intros H. unfold legal_token. rewrite H. now rewrite !orb_true_r. Qed.

Lemma grammar_terms ts :
  forallb is_term ts = true -> forallb grammar_names ts = true ->
  forallb names_tested ts = true
  /\ List.Forall (fun t => legal_token t = true) (sep_terms (map repr ts)).
Proof.
  induction ts as [|t ts IH]; [split; [reflexivity|constructor]|].
  cbn [forallb]. intros Ht Hg. apply andb_prop in Ht, Hg.
  destruct Ht as [Ht Hts], Hg as [Hg Hgs].
  destruct (IH Hts Hgs) as [IHn IHl].
  assert (Hrepr : names_tested t = true /\ legal_token (repr t) = true).
  { destruct t; try discriminate; unfold grammar_names, names_tested in *;
      cbn [names_sat repr] in *.
    - split; [apply lower_ident_tests|apply legal_lower]; auto.
    - split; [apply upper_ident_tests|apply legal_upper]; auto. }
  destruct Hrepr as [Hn Hl]. split.
  - now rewrite Hn, IHn.
  - cbn [map]. destruct ts as [|t' ts].
    + cbn. now constructor.
    + change (sep_terms (repr t :: map repr (t' :: ts)))
        with (repr t :: "," :: sep_terms (map repr (t' :: ts))).
      constructor; auto.
Qed.

Ltac legal_list :=
  repeat first [apply Forall_nil | apply Forall_cons | (apply Forall_app; split)];
  try reflexivity; auto using legal_lower, legal_upper.

Lemma grammar_tokens f :
  proper f = true -> grammar_names f = true ->
  names_tested f = true
  /\ List.Forall (fun t => legal_token t = true) (tokens_of f).
Proof.
  induction f
    as [n|n|n ts|g IH|l IHl r IHr|l IHl r IHr|l IHl r IHr|v IHv g IH|v IHv g IH];
    try discriminate; intros Hpr Hg;
    unfold grammar_names, names_tested in *;
    cbn [names_sat proper tokens_of] in *.
  - apply andb_prop in Hg. destruct Hg as [Hu Hts].
    destruct (grammar_terms ts Hpr Hts) as [Hn Hl].
    pose proof (upper_ident_tests n Hu) as Ho. unfold upper_only in Ho.
    apply andb_prop in Ho. destruct Ho as [_ Ho]. split.
    + unfold names_tested in Hn. now rewrite Ho, Hn.
    + legal_list.
  - destruct (IH Hpr Hg) as [Hn Hl]. split; auto; legal_list.
  - apply andb_prop in Hpr, Hg. destruct Hpr as [Ql Qr], Hg as [Gl Gr].
    destruct (IHl Ql Gl) as [Nl Ll]. destruct (IHr Qr Gr) as [Nr Lr].
    split; [now rewrite Nl, Nr|]. legal_list.
  - apply andb_prop in Hpr, Hg. destruct Hpr as [Ql Qr], Hg as [Gl Gr].
    destruct (IHl Ql Gl) as [Nl Ll]. destruct (IHr Qr Gr) as [Nr Lr].
    split; [now rewrite Nl, Nr|]. legal_list.
  - apply andb_prop in Hpr, Hg. destruct Hpr as [Ql Qr], Hg as [Gl Gr].
    destruct (IHl Ql Gl) as [Nl Ll]. destruct (IHr Qr Gr) as [Nr Lr].
    split; [now rewrite Nl, Nr|]. legal_list.
  - apply andb_prop in Hpr, Hg. destruct Hpr as [Qv Qg], Hg as [Gv Gg].
    destruct (IH Qg Gg) as [Ng Lg].
    destruct v; try discriminate. cbn [bound_sat repr] in *.
    destruct (lower_ident_tests _ Gv) as [_ Hs]. split; [now rewrite Hs, Ng|].
    legal_list.
  - apply andb_prop in Hpr, Hg. destruct Hpr as [Qv Qg], Hg as [Gv Gg].
    destruct (IH Qg Gg) as [Ng Lg].
    destruct v; try discriminate. cbn [bound_sat repr] in *.
    destruct (lower_ident_tests _ Gv) as [_ Hs]. split; [now rewrite Hs, Ng|].
    legal_list.
Qed.

(** X9: the parser accepts the documented syntax: for every formula in
    which no bare term stands for a formula and whose names are identifiers
    (lowercase shape for variables, uppercase shape for constants and
    predicates), [parse] on the tokens of the formula joined by single
    blanks returns the formula. *)
Theorem parse_documented_syntax (f : Formula) :
  proper f = true -> grammar_names f = true ->
  _tokenize (join " " (tokens_of f)) = tokens_of f
  /\ FOLParser_parse (join " " (tokens_of f)) = Ok f.
Proof.
  intros Hpr Hg. destruct (grammar_tokens f Hpr Hg) as [Hn Hl].
  assert (T : _tokenize (join " " (tokens_of f)) = tokens_of f).
  { rewrite tokenize_lex. now apply lex_join. }
  split; auto. unfold FOLParser_parse, run_parse. rewrite T.
  unfold parse, bind.
  pose proof (parse_tokens_of f Hpr Hn [] (budget (tokens_of f))) as P.
  rewrite app_nil_r in P. rewrite P by (unfold budget; lia).
  unfold get_pos, ret. now rewrite Nat.ltb_irrefl.
Qed.

Lemma parse_documented_syntax_witness :
  FOLParser_parse "( forall x . P ( x , C1 ) | ~ exists y . Q ( y ) )"
  = Ok (Disjunction
          (Forall (Variable_ "x") (Predicate "P" [Variable_ "x"; Constant "C1"]))
          (Negation (Exists (Variable_ "y") (Predicate "Q" [Variable_ "y"])))).
Proof.
  exact (proj2 (parse_documented_syntax
                  (Disjunction
                     (Forall (Variable_ "x")
                        (Predicate "P" [Variable_ "x"; Constant "C1"]))
                     (Negation
                        (Exists (Variable_ "y") (Predicate "Q" [Variable_ "y"]))))
                  eq_refl eq_refl)).
Defined.

(** ** Tokens after the first *)

Lemma legal_head_visible t : legal_token t = true -> head_visible t = true.
Proof.
  unfold legal_token. intros H.
  apply orb_prop in H. destruct H as [H|H]; [apply orb_prop in H; destruct H as [H|H]|].
  - apply punct_cases in H. cbn [List.In] in H.
    repeat (destruct H as [<-|H]; [reflexivity|]). contradiction.
  - destruct t as [|c t]; [discriminate|]. cbn in *.
    apply andb_prop in H. destruct H as [H _].
    now rewrite (lower_az_visible _ H).
  - destruct t as [|c t]; [discriminate|]. cbn in *.
    apply andb_prop in H. destruct H as [H _].
    now rewrite (upper_AZ_visible _ H).
Qed.

Lemma head_visible_starts t : head_visible t = true -> starts_ok t = true.
Proof. destruct t; [discriminate|auto]. Qed.

Lemma split_loop_starts fuel : forall gap s,
  starts_ok gap = true ->
  (gap = "" -> skip_space s = s) ->
  List.Forall (fun g => starts_ok g = true) (split_loop fuel gap s).
Proof.
  induction fuel as [|fuel IH]; intros gap s Hg Hs; cbn.
  - repeat constructor. auto.
  - destruct (match_at s) as [[tok rest]|] eqn:E.
    + pose proof (match_at_spec _ _ _ E) as (w1 & w2 & _ & _ & _ & Ht & _ & Hr).
      constructor; auto. constructor.
      * now apply head_visible_starts, legal_head_visible.
      * apply IH; auto.
    + destruct s as [|d r].
      * repeat constructor. auto.
      * apply IH.
        -- destruct gap as [|c gap]; [|exact Hg]. cbn.
           specialize (Hs eq_refl). unfold skip_space in Hs.
           destruct (isspace d) eqn:Ed; auto.
           exfalso. rewrite span_head_true in Hs by auto.
           pose proof (span_length isspace r) as L. rewrite Hs in L.
           cbn in L. lia.
        -- intros Hc. destruct gap; discriminate.
Qed.

Lemma split_loop_tail fuel : forall gap s,
  List.Forall (fun g => starts_ok g = true) (List.tl (split_loop fuel gap s)).
Proof.
  induction fuel as [|fuel IH]; intros gap s; cbn.
  - constructor.
  - destruct (match_at s) as [[tok rest]|] eqn:E.
    + pose proof (match_at_spec _ _ _ E) as (w1 & w2 & _ & _ & _ & Ht & _ & Hr).
      cbn [List.tl]. constructor.
      * now apply head_visible_starts, legal_head_visible.
      * apply split_loop_starts; auto.
    + destruct s as [|d r]; [constructor|]. apply IH.
Qed.

Lemma filter_tail_keep l :
  List.Forall (fun g => starts_ok g = true) (List.tl l) ->
  List.Forall (fun t => head_visible t = true) (List.tl (filter keep l)).
Proof.
  intros H.
  assert (G : forall l', List.Forall (fun g => starts_ok g = true) l' ->
                List.Forall (fun t => head_visible t = true) (filter keep l')).
  { induction 1 as [|g l' Hg Hl IH]; cbn; [constructor|].
    destruct (keep g) eqn:K; auto. constructor; auto.
    destruct g as [|c g]; [discriminate|]. exact Hg. }
  destruct l as [|x l]; [constructor|]. cbn [List.tl filter] in *.
  destruct (keep x); cbn [List.tl]; auto.
  specialize (G l H). destruct (filter keep l); [constructor|].
  now inversion G.
Qed.

Lemma tokenize_tail_visible text :
  List.Forall (fun t => head_visible t = true) (List.tl (_tokenize text)).
Proof. unfold _tokenize. apply filter_tail_keep. apply split_loop_tail. Qed.

(** ** The bound variables of a parsed formula *)

Lemma all_but_last_all {A} (P : A -> Prop) front x :
  all_but_last P (front ++ [x]) -> P x -> List.Forall P (front ++ [x]).
Proof.
  induction front as [|y front IH]; intros H Hx.
  - repeat constructor. auto.
  - cbn [app all_but_last] in *. destruct (front ++ [x]) as [|z l] eqn:E.
    + destruct front; discriminate.
    + destruct H as [Hy Hr]. constructor; auto.
Qed.

Lemma Forall_tl {A} (P : A -> Prop) l :
  List.Forall P l -> List.Forall P (List.tl l).
Proof. intros H. destruct l; [constructor|now inversion H]. Qed.

(** In a token list that ends with a parenthesis, every token after the
    first is one that tokens can surround. *)
Lemma tokenize_solid text front :
  _tokenize text = front ++ [")"] ->
  List.Forall (fun t => solid t = true) (List.tl (_tokenize text)).
Proof.
  intros E.
  assert (A : all_but_last (fun t => inner t = true) (_tokenize text)).
  { unfold _tokenize. apply pieces_inner, re_split_pieces. }
  pose proof (tokenize_tail_visible text) as V.
  rewrite E in A.
  pose proof (all_but_last_all (fun t => inner t = true) front ")" A eq_refl)
    as A'.
  rewrite <- E in A'. clear A. rename A' into A. apply Forall_tl in A.
  rewrite Forall_forall in *. intros u Hu. unfold solid.
  now rewrite (A u Hu), (V u Hu).
Qed.

Lemma term_bounds Pb t :
  is_term t = true ->
  names_sat (fun _ => true) (fun _ => true) (fun _ => true) Pb t = true.
Proof. destruct t; try discriminate; reflexivity. Qed.

Lemma tokens_bounds f :
  proper f = true -> names_tested f = true ->
  List.Forall (fun t => solid t = true) (List.tl (tokens_of f)) ->
  bounds_parsed f = true.
Proof.
  unfold bounds_parsed, names_tested.
  induction f
    as [n|n|n ts|g IH|l IHl r IHr|l IHl r IHr|l IHl r IHr|v IHv g IH|v IHv g IH];
    try discriminate; cbn [proper names_sat tokens_of List.tl]; intros Hp Hn Hs.
  - cbn [andb]. clear Hn Hs. induction ts as [|t ts IHt]; auto.
    cbn [forallb] in *. apply andb_prop in Hp. destruct Hp as [Ht Hts].
    now rewrite term_bounds, IHt.
  - apply IH; auto. now apply Forall_tl.
  - apply andb_prop in Hp, Hn. destruct Hp as [Pl Pr], Hn as [Nl Nr].
    apply Forall_app in Hs. destruct Hs as [Sl Sr].
    inversion Sr as [|? ? _ Sr']; subst.
    apply Forall_app in Sr'. destruct Sr' as [Sr' _].
    rewrite IHl, IHr; auto using Forall_tl.
  - apply andb_prop in Hp, Hn. destruct Hp as [Pl Pr], Hn as [Nl Nr].
    apply Forall_app in Hs. destruct Hs as [Sl Sr].
    inversion Sr as [|? ? _ Sr']; subst.
    apply Forall_app in Sr'. destruct Sr' as [Sr' _].
    rewrite IHl, IHr; auto using Forall_tl.
  - apply andb_prop in Hp, Hn. destruct Hp as [Pl Pr], Hn as [Nl Nr].
    apply Forall_app in Hs. destruct Hs as [Sl Sr].
    inversion Sr as [|? ? _ Sr']; subst.
    apply Forall_app in Sr'. destruct Sr' as [Sr' _].
    rewrite IHl, IHr; auto using Forall_tl.
  - apply andb_prop in Hp, Hn. destruct Hp as [Pv Pg], Hn as [Nv Ng].
    destruct v; try discriminate. cbn [bound_sat repr] in *.
    inversion Hs as [|? ? Sv Hs']; subst. inversion Hs' as [|? ? _ Sg]; subst.
    unfold bound_name. rewrite Sv, Nv. cbn [andb].
    apply IH; auto using Forall_tl.
  - apply andb_prop in Hp, Hn. destruct Hp as [Pv Pg], Hn as [Nv Ng].
    destruct v; try discriminate. cbn [bound_sat repr] in *.
    inversion Hs as [|? ? Sv Hs']; subst. inversion Hs' as [|? ? _ Sg]; subst.
    unfold bound_name. rewrite Sv, Nv. cbn [andb].
    apply IH; auto using Forall_tl.
Qed.

(** What [parse] on a text guarantees of the bound variables. *)
Lemma parsed_bounds text f :
  FOLParser_parse text = Ok f -> bounds_parsed f = true.
Proof.
  intros H. unfold FOLParser_parse, run_parse in H.
  destruct (parse (_tokenize text) (budget (_tokenize text)) 0)
    as [[g| |] p] eqn:E; try discriminate.
  cbn [fst] in H. injection H as ->.
  pose proof (parse_reads _ _ _ _ E) as T.
  destruct (parse_ok_formula _ _ _ _ E) as (q & Hq).
  pose proof (parse_formula_proper _ _ _ _ _ Hq) as Hp.
  pose proof (parse_formula_tested _ _ _ _ _ Hq) as Hn.
  destruct (tokens_of_closed f Hp) as (front & Hf & _).
  apply tokens_bounds; auto.
  rewrite <- T. apply (tokenize_solid text front). now rewrite T.
Qed.

Lemma bound_cases v :
  bound_name v = true ->
  (lower_ident v = true \/ (unmatched v = true /\ ends_visible v = true))
  /\ head_visible v = true.
Proof.
  unfold bound_name, solid, inner, legal_token. intros H.
  apply andb_prop in H. destruct H as [H Hl].
  apply andb_prop in H. destruct H as [H Hv]. split; auto.
  apply orb_prop in H. destruct H as [H|H]; [|apply andb_prop in H; auto].
  apply orb_prop in H. destruct H as [H|H];
    [apply orb_prop in H; destruct H as [H|H]; auto|].
  - exfalso. apply punct_cases in H. cbn [List.In] in H.
    repeat (destruct H as [<-|H]; [discriminate|]). contradiction.
  - exfalso. destruct v as [|c v]; [discriminate|].
    unfold upper_ident in H. cbn in H. apply andb_prop in H. destruct H as [Hc _].
    unfold str_islower in Hl. cbn [str_existsb] in Hl.
    now rewrite (upper_AZ_upper _ Hc) in Hl.
Qed.

Lemma head_visible_keep n : head_visible n = true -> keep n = true.
Proof.
  destruct n as [|c n]; [discriminate|]. cbn [head_visible]. intros H.
  apply negb_true_iff in H. unfold keep, str_isspace. cbn. now rewrite H.
Qed.

Lemma head_visible_skip n s :
  head_visible n = true -> skip_space (n ++ s) = (n ++ s)%string.
Proof.
  destruct n as [|c n]; [discriminate|]. cbn [head_visible append]. intros H.
  apply negb_true_iff in H. unfold skip_space. now rewrite span_head_false.
Qed.

Lemma head_visible_headed n s : head_visible n = true -> headed (n ++ s).
Proof. intros H. unfold headed. now rewrite head_visible_skip. Qed.

(** An identifier in front of a delimiter is matched whole. *)
Lemma match_word n s :
  lower_ident n = true -> delim_head s = true ->
  match_at (n ++ s) = Some (n, skip_space s).
Proof.
  intros Hl Hd. destruct s as [|d s]; [discriminate|]. cbn in Hd.
  destruct (delim_facts d Hd) as (Hdl & _ & _).
  destruct n as [|c n]; [discriminate|]. cbn in Hl.
  apply andb_prop in Hl. destruct Hl as [Hc Hn].
  unfold match_at. cbn [append].
  rewrite span_head_false by now apply lower_az_visible.
  cbn [snd]. rewrite lower_az_group by auto.
  rewrite span_stop by auto. reflexivity.
Qed.

(** A bound variable in front of a delimiter and a token. *)
Lemma lex_word v s tok rest :
  bound_name v = true -> delim_head s = true ->
  match_at s = Some (tok, rest) ->
  lex (v ++ s) = v :: tok :: lex rest.
Proof.
  intros Hb Hd E. destruct (bound_cases v Hb) as [[Hl|[Hu He]] Hv].
  - rewrite (lex_match _ _ _ (match_word v s Hl Hd)). f_equal.
    rewrite (headed_match _ _ E). now apply lex_match.
  - apply lex_gap; auto.
    + now apply head_visible_keep.
    + apply unmatched_no_match; auto.
      destruct s as [|d s]; auto. cbn in Hd.
      now destruct (delim_facts d Hd) as (_ & _ & Hgt).
Qed.

Lemma bound_free v : bound_name v = true -> replace3 v = v.
Proof.
  intros Hb. apply replace3_clean.
  destruct (bound_cases v Hb) as [[H|[H _]] _].
  - destruct v as [|c v]; [discriminate|]. cbn in *.
    apply andb_prop in H. destruct H as [Hc Hn].
    rewrite (lower_az_free _ Hc). cbn.
    revert Hn. apply str_forallb_impl, tail_lower_free.
  - now apply unmatched_free.
Qed.

(** ** The tokens of every rendering *)

Lemma lex_wrapped X fl K :
  (forall K', headed K' -> lex (X ++ K') = fl ++ lex K') ->
  (forall K', headed (X ++ K')) -> headed K ->
  lex (" ( " ++ X ++ " ) " ++ K) = "(" :: fl ++ ")" :: lex K.
Proof.
  intros HX Hh HK.
  destruct (lex_close K HK) as [Mc Lc].
  assert (Hc : headed (" ) " ++ K)) by (eapply headed_match; eauto).
  destruct (lex_open _ (Hh (" ) " ++ K)%string)) as [_ Lo].
  now rewrite Lo, HX, Lc.
Qed.

(** The rendering of a negation, padded by the tokenizer. *)
Lemma lex_negation X fl K :
  (forall K', headed K' -> lex (X ++ K') = fl ++ lex K') ->
  (forall K', headed (X ++ K')) -> headed K ->
  lex ("~" ++ " ( " ++ X ++ " ) " ++ K) = "~" :: "(" :: fl ++ ")" :: lex K.
Proof.
  intros HX Hh HK.
  destruct (lex_punct "" "~" "" (" ( " ++ X ++ " ) " ++ K)
              eq_refl eq_refl eq_refl (headed_open _)) as [_ L].
  change ("" ++ "~" ++ "" ++ " ( " ++ X ++ " ) " ++ K)%string
    with ("~" ++ " ( " ++ X ++ " ) " ++ K)%string in L.
  rewrite L. f_equal. now apply lex_wrapped.
Qed.

(** The rendering of a quantifier, padded by the tokenizer. *)
Lemma lex_quantifier kw v X fl K :
  lower_ident kw = true -> bound_name v = true ->
  (forall K', headed K' -> lex (X ++ K') = fl ++ lex K') ->
  (forall K', headed (X ++ K')) -> headed K ->
  lex (kw ++ " " ++ v ++ " .   ( " ++ X ++ " ) " ++ K)
  = kw :: v :: "." :: "(" :: fl ++ ")" :: lex K.
Proof.
  intros Hk Hb HX Hh HK.
  destruct (bound_cases v Hb) as [_ Hv].
  set (R := (X ++ " ) " ++ K)%string).
  assert (LR : lex R = fl ++ ")" :: lex K).
  { unfold R. destruct (lex_close K HK) as [Mc Lc].
    rewrite HX by (eapply headed_match; eauto). now rewrite Lc. }
  destruct (lex_punct "  " "(" " " R eq_refl eq_refl eq_refl (Hh _))
    as [Mo Lo].
  set (W := ("  " ++ "(" ++ " " ++ R)%string) in *.
  assert (HW : headed W) by (eapply headed_match; eauto).
  destruct (lex_punct " " "." " " W eq_refl eq_refl eq_refl HW) as [Md Ld].
  change (" .   ( " ++ R)%string with (" " ++ "." ++ " " ++ W)%string.
  set (D := (" " ++ "." ++ " " ++ W)%string) in *.
  rewrite (lex_match _ _ _ (match_word kw (" " ++ v ++ D) Hk eq_refl)).
  rewrite (skip_space_blank " ") by reflexivity.
  rewrite head_visible_skip by auto.
  rewrite (lex_word v D _ _ Hb eq_refl Md).
  now rewrite HW, Lo, LR.
Qed.

(** Tokenizing the rendering of any formula that [parse] returns gives the
    tokens the [__repr__] methods write. *)
Lemma lex_repr_all f :
  proper f = true -> names_parsed f = true -> bounds_parsed f = true ->
  (forall K, headed K -> lex (replace3 (repr f) ++ K) = flat f ++ lex K)
  /\ (forall K, headed (replace3 (repr f) ++ K)).
Proof.
  unfold names_parsed, bounds_parsed.
  induction f
    as [n|n|n ts|g IH|l IHl r IHr|l IHl r IHr|l IHl r IHr|v IHv g IH|v IHv g IH];
    try discriminate; intros Hpr Hn Hb.
  - apply lex_repr; auto.
  - cbn [proper names_sat] in *. destruct (IH Hpr Hn Hb) as [L H].
    cbn [repr]. rewrite !replace3_app.
    change (replace3 "~(") with ("~" ++ " ( ")%string.
    change (replace3 ")") with " ) ".
    split.
    + intros K HK. rewrite !sapp_assoc. cbn [flat].
      rewrite (lex_negation _ (flat g)); auto.
      repeat first [rewrite <- app_assoc | progress cbn [app]]. reflexivity.
    + intros K. rewrite !sapp_assoc. now apply head_visible_headed.
  - cbn [proper names_sat] in *. apply andb_prop in Hpr, Hn, Hb.
    destruct Hpr as [Ql Qr], Hn as [Nl Nr], Hb as [Bl Br].
    destruct (IHl Ql Nl Bl) as [Ll Hl]. destruct (IHr Qr Nr Br) as [Lr Hr].
    cbn [repr]. rewrite (replace3_binary _ _ " & ") by reflexivity.
    split.
    + intros K HK. rewrite !sapp_assoc. cbn [flat].
      rewrite (lex_binary _ _ "&" " & " (flat l) (flat r)); auto.
      * repeat first [rewrite <- app_assoc | progress cbn [app]]. reflexivity.
      * apply lex_and.
    + intros K. rewrite !sapp_assoc. apply headed_open.
  - cbn [proper names_sat] in *. apply andb_prop in Hpr, Hn, Hb.
    destruct Hpr as [Ql Qr], Hn as [Nl Nr], Hb as [Bl Br].
    destruct (IHl Ql Nl Bl) as [Ll Hl]. destruct (IHr Qr Nr Br) as [Lr Hr].
    cbn [repr]. rewrite (replace3_binary _ _ " | ") by reflexivity.
    split.
    + intros K HK. rewrite !sapp_assoc. cbn [flat].
      rewrite (lex_binary _ _ "|" " | " (flat l) (flat r)); auto.
      * repeat first [rewrite <- app_assoc | progress cbn [app]]. reflexivity.
      * apply lex_or.
    + intros K. rewrite !sapp_assoc. apply headed_open.
  - cbn [proper names_sat] in *. apply andb_prop in Hpr, Hn, Hb.
    destruct Hpr as [Ql Qr], Hn as [Nl Nr], Hb as [Bl Br].
    destruct (IHl Ql Nl Bl) as [Ll Hl]. destruct (IHr Qr Nr Br) as [Lr Hr].
    cbn [repr]. rewrite (replace3_binary _ _ " -> ") by reflexivity.
    split.
    + intros K HK. rewrite !sapp_assoc. cbn [flat].
      rewrite (lex_binary _ _ "->" " -> " (flat l) (flat r)); auto.
      * repeat first [rewrite <- app_assoc | progress cbn [app]]. reflexivity.
      * apply lex_implies.
    + intros K. rewrite !sapp_assoc. apply headed_open.
  - cbn [proper names_sat] in *. apply andb_prop in Hpr, Hn, Hb.
    destruct Hpr as [Qv Qg], Hn as [_ Ng], Hb as [Bv Bg].
    destruct v as [name| | | | | | | |]; try discriminate.
    cbn [bound_sat] in Bv. destruct (IH Qg Ng Bg) as [L H].
    cbn [repr]. rewrite !replace3_app, (bound_free name Bv).
    change (replace3 "forall ") with ("forall" ++ " ")%string.
    change (replace3 ". (") with " .   ( ".
    change (replace3 ")") with " ) ".
    split.
    + intros K HK. rewrite !sapp_assoc. cbn [flat repr].
      rewrite (lex_quantifier "forall" name _ (flat g)); auto.
      repeat first [rewrite <- app_assoc | progress cbn [app]]. reflexivity.
    + intros K. rewrite !sapp_assoc. now apply head_visible_headed.
  - cbn [proper names_sat] in *. apply andb_prop in Hpr, Hn, Hb.
    destruct Hpr as [Qv Qg], Hn as [_ Ng], Hb as [Bv Bg].
    destruct v as [name| | | | | | | |]; try discriminate.
    cbn [bound_sat] in Bv. destruct (IH Qg Ng Bg) as [L H].
    cbn [repr]. rewrite !replace3_app, (bound_free name Bv).
    change (replace3 "exists ") with ("exists" ++ " ")%string.
    change (replace3 ". (") with " .   ( ".
    change (replace3 ")") with " ) ".
    split.
    + intros K HK. rewrite !sapp_assoc. cbn [flat repr].
      rewrite (lex_quantifier "exists" name _ (flat g)); auto.
      repeat first [rewrite <- app_assoc | progress cbn [app]]. reflexivity.
    + intros K. rewrite !sapp_assoc. now apply head_visible_headed.
Qed.

Lemma tokenize_repr_all f :
  proper f = true -> names_parsed f = true -> bounds_parsed f = true ->
  _tokenize (repr f) = flat f.
Proof.
  intros Hpr Hn Hb. rewrite tokenize_lex.
  destruct (lex_repr_all f Hpr Hn Hb) as [H _].
  specialize (H "" headed_empty). rewrite sapp_nil_r in H. rewrite H.
  change (lex "") with (@nil string). now rewrite app_nil_r.
Qed.

(** ** Parsing the tokens of any rendering *)

(** A formula in parentheses of its own is no binary form: the closing
    parenthesis is taken for the operator. *)
Lemma parse_wrapped tokens pre g post fuel :
  tokens = pre ++ "(" :: flat g ++ ")" :: post ->
  (forall fuel' x q,
     parse_formula tokens fuel' (List.length pre + 1) = (Ok x, q) ->
     q = List.length pre + 1 + List.length (flat g)) ->
  forall x q, parse_formula tokens fuel (List.length pre) <> (Ok x, q).
Proof.
  intros T Hg x q. destruct fuel as [|fuel]; [discriminate|].
  assert (E0 : nth_error tokens (List.length pre) = Some "(").
  { rewrite T, <- (Nat.add_0_r (List.length pre)). now apply nth_error_skip. }
  assert (E1 : nth_error tokens (List.length pre + 1 + List.length (flat g))
               = Some ")").
  { rewrite T.
    replace (pre ++ "(" :: flat g ++ ")" :: post)
      with ((pre ++ ["("]) ++ flat g ++ ")" :: post)
      by (rewrite <- app_assoc; reflexivity).
    replace (List.length pre + 1) with (List.length (pre ++ ["("]))
      by (rewrite length_app; reflexivity).
    apply nth_error_skip.
    rewrite <- (Nat.add_0_r (List.length (flat g))). now apply nth_error_skip. }
  cbn [parse_formula]. follow.
  destruct (parse_formula tokens fuel (List.length pre + 1))
    as [[l| |] q1] eqn:El; try discriminate.
  pose proof (Hg _ _ _ El) as ->. follow.
  match goal with
  | |- context [parse_formula tokens fuel ?p] =>
      destruct (parse_formula tokens fuel p) as [[r| |] q2] eqn:Er
  end; try discriminate.
  follow. destruct (tok_eqb (nth_error tokens q2) ")"); follow; discriminate.
Qed.

(** Where [parse_formula] stops on the tokens of a rendering that it
    reads. *)
Lemma parse_flat_end f pre post fuel x q :
  plain f = true -> proper f = true -> names_parsed f = true ->
  parse_formula (pre ++ flat f ++ post) fuel (List.length pre) = (Ok x, q) ->
  q = List.length pre + List.length (flat f).
Proof.
  intros Hpl Hpr Hn H.
  pose proof (parse_formula_flat f Hpl Hpr Hn pre post
                (Nat.max fuel (List.length (flat f))) (Nat.le_max_r _ _)) as P.
  rewrite (parse_formula_more _ fuel) in P.
  - rewrite H in P. now injection P.
  - apply Nat.le_max_l.
  - rewrite H. discriminate.
Qed.

(** [parse_formula] returns a formula from the tokens of a rendering only
    when the rendering has no negation and no quantifier, and then it stops
    behind them. *)
Lemma parse_flat_only f :
  proper f = true -> names_parsed f = true ->
  forall pre post fuel x q,
    parse_formula (pre ++ flat f ++ post) fuel (List.length pre) = (Ok x, q) ->
    plain f = true /\ q = List.length pre + List.length (flat f).
Proof.
  unfold names_parsed.
  induction f
    as [n|n|n ts|g IH|l IHl r IHr|l IHl r IHr|l IHl r IHr|v IHv g IH|v IHv g IH];
    try discriminate; intros Hpr Hn pre post fuel x q.
  - intros H. split; auto. eapply parse_flat_end; eauto.
  - cbn [proper names_sat] in *. intros H. exfalso. revert H.
    destruct fuel as [|fuel]; [discriminate|].
    cbn [flat]. set (tokens := pre ++ _ ++ post).
    assert (T : tokens = (pre ++ ["~"]) ++ "(" :: flat g ++ ")" :: post).
    { unfold tokens.
      repeat first [rewrite <- app_assoc | progress cbn [app]]. reflexivity. }
    assert (L : List.length (pre ++ ["~"]) = List.length pre + 1).
    { rewrite length_app. reflexivity. }
    assert (E0 : nth_error tokens (List.length pre) = Some "~").
    { rewrite <- (Nat.add_0_r (List.length pre)). now apply nth_error_skip. }
    assert (W : forall y p,
               parse_formula tokens fuel (List.length pre + 1) <> (Ok y, p)).
    { rewrite <- L. apply (parse_wrapped tokens _ g post fuel T).
      intros fuel' y p Hy.
      assert (T' : tokens = (pre ++ ["~"; "("]) ++ flat g ++ ")" :: post).
      { rewrite T.
        repeat first [rewrite <- app_assoc | progress cbn [app]]. reflexivity. }
      assert (L' : List.length (pre ++ ["~"; "("])
                   = List.length (pre ++ ["~"]) + 1).
      { rewrite !length_app. cbn. lia. }
      rewrite <- L', T' in Hy. apply (IH Hpr Hn) in Hy.
      destruct Hy as [_ ->]. now rewrite L'. }
    cbn [parse_formula]. follow.
    destruct (parse_formula tokens fuel (List.length pre + 1))
      as [[y| |] p] eqn:E; try discriminate.
    intros _. exact (W y p eq_refl).
  - cbn [proper names_sat] in *. apply andb_prop in Hpr, Hn.
    destruct Hpr as [Ql Qr], Hn as [Nl Nr].
    destruct (plain (Conjunction l r)) eqn:Hpl.
    { intros H. split; auto. eapply parse_flat_end; eauto.
      - cbn [proper]. now rewrite Ql, Qr.
      - unfold names_parsed. cbn [names_sat]. now rewrite Nl, Nr. }
    intros H. exfalso. revert H.
    destruct fuel as [|fuel]; [discriminate|].
    cbn [flat]. set (tokens := pre ++ _ ++ post).
    set (pre1 := pre ++ ["("]).
    assert (T1 : tokens = pre1 ++ flat l ++ ("&" :: flat r ++ ")" :: post)).
    { unfold tokens, pre1.
      repeat first [rewrite <- app_assoc | progress cbn [app]]. reflexivity. }
    assert (L1 : List.length pre1 = List.length pre + 1).
    { unfold pre1. rewrite length_app. reflexivity. }
    assert (E0 : nth_error tokens (List.length pre) = Some "(").
    { rewrite <- (Nat.add_0_r (List.length pre)). now apply nth_error_skip. }
    cbn [parse_formula]. follow.
    destruct (parse_formula tokens fuel (List.length pre + 1))
      as [[y| |] p] eqn:El; try discriminate.
    rewrite <- L1, T1 in El. apply (IHl Ql Nl) in El. destruct El as [Pl ->].
    set (pre2 := pre1 ++ flat l ++ ["&"]).
    assert (T2 : tokens = pre2 ++ flat r ++ (")" :: post)).
    { unfold tokens, pre2, pre1.
      repeat first [rewrite <- app_assoc | progress cbn [app]]. reflexivity. }
    assert (L2 : List.length pre2 = List.length pre1 + List.length (flat l) + 1).
    { unfold pre2. rewrite !length_app. cbn. lia. }
    assert (E1 : nth_error tokens (List.length pre1 + List.length (flat l))
                 = Some "&").
    { rewrite T1. apply nth_error_skip.
      rewrite <- (Nat.add_0_r (List.length (flat l))). now apply nth_error_skip. }
    follow.
    destruct (parse_formula tokens fuel
                (List.length pre1 + List.length (flat l) + 1))
      as [[z| |] p] eqn:Er; try discriminate.
    rewrite <- L2, T2 in Er. apply (IHr Qr Nr) in Er. destruct Er as [Pr _].
    cbn [plain] in Hpl. rewrite Pl, Pr in Hpl. discriminate.
  - cbn [proper names_sat] in *. apply andb_prop in Hpr, Hn.
    destruct Hpr as [Ql Qr], Hn as [Nl Nr].
    destruct (plain (Disjunction l r)) eqn:Hpl.
    { intros H. split; auto. eapply parse_flat_end; eauto.
      - cbn [proper]. now rewrite Ql, Qr.
      - unfold names_parsed. cbn [names_sat]. now rewrite Nl, Nr. }
    intros H. exfalso. revert H.
    destruct fuel as [|fuel]; [discriminate|].
    cbn [flat]. set (tokens := pre ++ _ ++ post).
    set (pre1 := pre ++ ["("]).
    assert (T1 : tokens = pre1 ++ flat l ++ ("|" :: flat r ++ ")" :: post)).
    { unfold tokens, pre1.
      repeat first [rewrite <- app_assoc | progress cbn [app]]. reflexivity. }
    assert (L1 : List.length pre1 = List.length pre + 1).
    { unfold pre1. rewrite length_app. reflexivity. }
    assert (E0 : nth_error tokens (List.length pre) = Some "(").
    { rewrite <- (Nat.add_0_r (List.length pre)). now apply nth_error_skip. }
    cbn [parse_formula]. follow.
    destruct (parse_formula tokens fuel (List.length pre + 1))
      as [[y| |] p] eqn:El; try discriminate.
    rewrite <- L1, T1 in El. apply (IHl Ql Nl) in El. destruct El as [Pl ->].
    set (pre2 := pre1 ++ flat l ++ ["|"]).
    assert (T2 : tokens = pre2 ++ flat r ++ (")" :: post)).
    { unfold tokens, pre2, pre1.
      repeat first [rewrite <- app_assoc | progress cbn [app]]. reflexivity. }
    assert (L2 : List.length pre2 = List.length pre1 + List.length (flat l) + 1).
    { unfold pre2. rewrite !length_app. cbn. lia. }
    assert (E1 : nth_error tokens (List.length pre1 + List.length (flat l))
                 = Some "|").
    { rewrite T1. apply nth_error_skip.
      rewrite <- (Nat.add_0_r (List.length (flat l))). now apply nth_error_skip. }
    follow.
    destruct (parse_formula tokens fuel
                (List.length pre1 + List.length (flat l) + 1))
      as [[z| |] p] eqn:Er; try discriminate.
    rewrite <- L2, T2 in Er. apply (IHr Qr Nr) in Er. destruct Er as [Pr _].
    cbn [plain] in Hpl. rewrite Pl, Pr in Hpl. discriminate.
  - cbn [proper names_sat] in *. apply andb_prop in Hpr, Hn.
    destruct Hpr as [Ql Qr], Hn as [Nl Nr].
    destruct (plain (Implication l r)) eqn:Hpl.
    { intros H. split; auto. eapply parse_flat_end; eauto.
      - cbn [proper]. now rewrite Ql, Qr.
      - unfold names_parsed. cbn [names_sat]. now rewrite Nl, Nr. }
    intros H. exfalso. revert H.
    destruct fuel as [|fuel]; [discriminate|].
    cbn [flat]. set (tokens := pre ++ _ ++ post).
    set (pre1 := pre ++ ["("]).
    assert (T1 : tokens = pre1 ++ flat l ++ ("->" :: flat r ++ ")" :: post)).
    { unfold tokens, pre1.
      repeat first [rewrite <- app_assoc | progress cbn [app]]. reflexivity. }
    assert (L1 : List.length pre1 = List.length pre + 1).
    { unfold pre1. rewrite length_app. reflexivity. }
    assert (E0 : nth_error tokens (List.length pre) = Some "(").
    { rewrite <- (Nat.add_0_r (List.length pre)). now apply nth_error_skip. }
    cbn [parse_formula]. follow.
    destruct (parse_formula tokens fuel (List.length pre + 1))
      as [[y| |] p] eqn:El; try discriminate.
    rewrite <- L1, T1 in El. apply (IHl Ql Nl) in El. destruct El as [Pl ->].
    set (pre2 := pre1 ++ flat l ++ ["->"]).
    assert (T2 : tokens = pre2 ++ flat r ++ (")" :: post)).
    { unfold tokens, pre2, pre1.
      repeat first [rewrite <- app_assoc | progress cbn [app]]. reflexivity. }
    assert (L2 : List.length pre2 = List.length pre1 + List.length (flat l) + 1).
    { unfold pre2. rewrite !length_app. cbn. lia. }
    assert (E1 : nth_error tokens (List.length pre1 + List.length (flat l))
                 = Some "->").
    { rewrite T1. apply nth_error_skip.
      rewrite <- (Nat.add_0_r (List.length (flat l))). now apply nth_error_skip. }
    follow.
    destruct (parse_formula tokens fuel
                (List.length pre1 + List.length (flat l) + 1))
      as [[z| |] p] eqn:Er; try discriminate.
    rewrite <- L2, T2 in Er. apply (IHr Qr Nr) in Er. destruct Er as [Pr _].
    cbn [plain] in Hpl. rewrite Pl, Pr in Hpl. discriminate.
  - cbn [proper names_sat] in *. apply andb_prop in Hpr, Hn.
    destruct Hpr as [Qv Qg], Hn as [_ Ng].
    destruct v as [name| | | | | | | |]; try discriminate.
    intros H. exfalso. revert H.
    destruct fuel as [|fuel]; [discriminate|].
    cbn [flat repr]. set (tokens := pre ++ _ ++ post).
    set (pre1 := pre ++ ["forall"; name; "."]).
    assert (T : tokens = pre1 ++ "(" :: flat g ++ ")" :: post).
    { unfold tokens, pre1.
      repeat first [rewrite <- app_assoc | progress cbn [app]]. reflexivity. }
    assert (L : List.length pre1 = List.length pre + 1 + 1 + 1).
    { unfold pre1. rewrite length_app. cbn. lia. }
    assert (E0 : nth_error tokens (List.length pre) = Some "forall").
    { rewrite <- (Nat.add_0_r (List.length pre)). now apply nth_error_skip. }
    assert (E1 : nth_error tokens (List.length pre + 1) = Some name).
    { now apply nth_error_skip. }
    assert (E2 : nth_error tokens (List.length pre + 1 + 1) = Some ".").
    { rewrite <- Nat.add_assoc. now apply nth_error_skip. }
    assert (W : forall y p,
               parse_formula tokens fuel (List.length pre + 1 + 1 + 1)
               <> (Ok y, p)).
    { rewrite <- L. apply (parse_wrapped tokens _ g post fuel T).
      intros fuel' y p Hy.
      assert (T' : tokens = (pre1 ++ ["("]) ++ flat g ++ ")" :: post).
      { rewrite T.
        repeat first [rewrite <- app_assoc | progress cbn [app]]. reflexivity. }
      assert (L' : List.length (pre1 ++ ["("]) = List.length pre1 + 1).
      { rewrite !length_app. cbn. lia. }
      rewrite <- L', T' in Hy. apply (IH Qg Ng) in Hy.
      destruct Hy as [_ ->]. now rewrite L'. }
    cbn [parse_formula]. unfold parse_quantifier. follow.
    destruct (str_islower name); follow; try discriminate.
    destruct (parse_formula tokens fuel (List.length pre + 1 + 1 + 1))
      as [[y| |] p] eqn:E; try discriminate.
    intros _. exact (W y p eq_refl).
  - cbn [proper names_sat] in *. apply andb_prop in Hpr, Hn.
    destruct Hpr as [Qv Qg], Hn as [_ Ng].
    destruct v as [name| | | | | | | |]; try discriminate.
    intros H. exfalso. revert H.
    destruct fuel as [|fuel]; [discriminate|].
    cbn [flat repr]. set (tokens := pre ++ _ ++ post).
    set (pre1 := pre ++ ["exists"; name; "."]).
    assert (T : tokens = pre1 ++ "(" :: flat g ++ ")" :: post).
    { unfold tokens, pre1.
      repeat first [rewrite <- app_assoc | progress cbn [app]]. reflexivity. }
    assert (L : List.length pre1 = List.length pre + 1 + 1 + 1).
    { unfold pre1. rewrite length_app. cbn. lia. }
    assert (E0 : nth_error tokens (List.length pre) = Some "exists").
    { rewrite <- (Nat.add_0_r (List.length pre)). now apply nth_error_skip. }
    assert (E1 : nth_error tokens (List.length pre + 1) = Some name).
    { now apply nth_error_skip. }
    assert (E2 : nth_error tokens (List.length pre + 1 + 1) = Some ".").
    { rewrite <- Nat.add_assoc. now apply nth_error_skip. }
    assert (W : forall y p,
               parse_formula tokens fuel (List.length pre + 1 + 1 + 1)
               <> (Ok y, p)).
    { rewrite <- L. apply (parse_wrapped tokens _ g post fuel T).
      intros fuel' y p Hy.
      assert (T' : tokens = (pre1 ++ ["("]) ++ flat g ++ ")" :: post).
      { rewrite T.
        repeat first [rewrite <- app_assoc | progress cbn [app]]. reflexivity. }
      assert (L' : List.length (pre1 ++ ["("]) = List.length pre1 + 1).
      { rewrite !length_app. cbn. lia. }
      rewrite <- L', T' in Hy. apply (IH Qg Ng) in Hy.
      destruct Hy as [_ ->]. now rewrite L'. }
    cbn [parse_formula]. unfold parse_quantifier. follow.
    destruct (str_islower name); follow; try discriminate.
    destruct (parse_formula tokens fuel (List.length pre + 1 + 1 + 1))
      as [[y| |] p] eqn:E; try discriminate.
    intros _. exact (W y p eq_refl).
Qed.

(** X10: for every input on which [parse] returns a formula, tokenizing the
    rendering of the formula gives exactly the tokens the [__repr__]
    methods write, in their order: every name comes back as one token,
    and the parentheses that [__repr__] adds around the operand of a
    negation and the body of a quantifier come back as tokens too. *)
Theorem rendering_tokens (text : string) (f : Formula) :
  FOLParser_parse text = Ok f -> _tokenize (repr f) = flat f.
Proof.
  intros H. apply tokenize_repr_all.
  - now apply (parsed_proper text).
  - now apply (parsed_names text).
  - now apply (parsed_bounds text).
Qed.

Lemma rendering_tokens_witness :
  _tokenize (repr (Exists (Variable_ "y")
                     (Negation (Predicate "Q" [Variable_ "y"; Constant "A"]))))
  = ["exists"; "y"; "."; "("; "~"; "("; "Q"; "("; "y"; ","; "A"; ")"; ")"; ")"].
Proof.
  exact (rendering_tokens "exists y.~Q(y,A)"
           (Exists (Variable_ "y")
              (Negation (Predicate "Q" [Variable_ "y"; Constant "A"])))
           eq_refl).
Defined.

(** X11: the rendering of a returned formula that contains a negation or a
    quantifier never parses: for every input on which [parse] returns a
    formula with a [Negation], [Forall] or [Exists] node, [parse] on the
    rendering of that formula raises [ParseError]. *)
Theorem rendering_rejected (text : string) (f : Formula) :
  FOLParser_parse text = Ok f -> plain f = false ->
  exists e, FOLParser_parse (repr f) = Raise e.
Proof.
  intros H Hpl.
  pose proof (parsed_proper text f H) as Hp.
  pose proof (parsed_names text f H) as Hn.
  pose proof (parsed_bounds text f H) as Hb.
  unfold FOLParser_parse, run_parse.
  rewrite (tokenize_repr_all f Hp Hn Hb). unfold parse, bind.
  destruct (parse_formula (flat f) (budget (flat f)) 0) as [[x| |] q] eqn:E.
  - exfalso.
    pose proof (parse_flat_only f Hp Hn [] [] (budget (flat f)) x q) as P.
    cbn [app List.length] in P. rewrite app_nil_r in P.
    destruct (P E) as [Q _]. congruence.
  - now exists e.
  - exfalso.
    apply (parse_formula_enough (flat f) (budget (flat f)) 0).
    + unfold budget. lia.
    + now rewrite E.
Qed.

Lemma rendering_rejected_witness :
  exists e,
    FOLParser_parse (repr (Forall (Variable_ "x")
                             (Implication (Predicate "P" [Variable_ "x"])
                                          (Predicate "Q" [Variable_ "x"]))))
    = Raise e.
Proof.
  exact (rendering_rejected "forall x. (P(x) -> Q(x))"
           (Forall (Variable_ "x")
              (Implication (Predicate "P" [Variable_ "x"])
                           (Predicate "Q" [Variable_ "x"])))
           eq_refl eq_refl).
Defined.

(** ** Tokenizing twice *)

Lemma unmatched_at_end u : unmatched u = true -> no_match_in u "".
Proof.
  induction u as [|c u IH]; [intros _; exact I|].
  cbn [unmatched]. intros H. apply andb_prop in H. destruct H as [Ho Hu].
  apply negb_true_iff in Ho. specialize (IH Hu). split; auto.
  rewrite sapp_nil_r. destruct (isspace c) eqn:Ec.
  - rewrite match_at_skip by auto. destruct u as [|c' u]; [reflexivity|].
    destruct IH as [M _]. now rewrite sapp_nil_r in M.
  - unfold match_at. rewrite span_head_false by auto. cbn [snd].
    apply match_group_opens in Ho. now rewrite Ho.
Qed.

(** Unmatched text at the end of the input is one piece. *)
Lemma lex_last g : unmatched g = true -> keep g = true -> lex g = [g].
Proof.
  intros Hu Hk. unfold lex, re_split.
  replace (S (String.length g)) with (String.length g + 1) by lia.
  pose proof (split_loop_gap g 1 "" "" (unmatched_at_end g Hu)) as E.
  rewrite sapp_nil_r in E. rewrite E. cbn. now rewrite Hk.
Qed.

Lemma lex_join_cons t ts :
  legal_token t = true ->
  lex (replace3 (join " " ts)) = ts -> headed (replace3 (join " " ts)) ->
  exists r, match_at (replace3 (join " " (t :: ts))) = Some (t, r)
            /\ lex r = ts.
Proof.
  intros Ht L H. destruct ts as [|t' ts].
  - cbn [join]. pose proof (legal_match t "" Ht (or_introl eq_refl)) as M.
    rewrite sapp_nil_r in M. eexists. split; [exact M|reflexivity].
  - change (join " " (t :: t' :: ts))
      with (t ++ " " ++ join " " (t' :: ts))%string.
    rewrite !replace3_app. change (replace3 " ") with " ".
    set (X := replace3 (join " " (t' :: ts))) in *.
    pose proof (legal_match t (" " ++ X) Ht
                  (or_intror (ex_intro _ X eq_refl))) as M.
    eexists. split; [exact M|].
    rewrite (skip_space_blank " ") by reflexivity. now rewrite H.
Qed.

Lemma starts_ok_headed g s :
  keep g = true -> starts_ok g = true -> headed (g ++ s).
Proof.
  destruct g as [|c g]; [discriminate|]. cbn [starts_ok append]. intros _ H.
  apply negb_true_iff in H. now apply headed_visible.
Qed.

(** The pieces that [re.split] returns and the filter keeps, joined by
    blanks, are split into the same pieces. *)
Lemma lex_join_pieces pieces :
  pieces_ok pieces ->
  List.Forall (fun g => starts_ok g = true) (List.tl pieces) ->
  lex (replace3 (join " " (filter keep pieces))) = filter keep pieces
  /\ (List.Forall (fun g => starts_ok g = true) pieces ->
      headed (replace3 (join " " (filter keep pieces)))).
Proof.
  induction 1 as [gap Hg|gap tok rest Hg Hv Ht Hr IH]; intros Hs.
  - cbn [filter]. destruct (keep gap) eqn:K.
    + cbn [join]. rewrite replace3_clean by now apply unmatched_free.
      split; [now apply lex_last|]. intros Ha. inversion Ha; subst.
      rewrite <- (sapp_nil_r gap). now apply starts_ok_headed.
    + split; [reflexivity|]. intros _. apply headed_empty.
  - cbn [List.tl] in Hs. inversion Hs as [|? ? _ Hrest]; subst.
    destruct (IH (Forall_tl _ _ Hrest)) as [IL IHh]. specialize (IHh Hrest).
    destruct (lex_join_cons tok (filter keep rest) Ht IL IHh) as (r & M & Lr).
    cbn [filter]. rewrite (legal_token_keep _ Ht).
    set (ts := filter keep rest) in *.
    destruct (keep gap) eqn:K.
    + change (join " " (gap :: tok :: ts))
        with (gap ++ " " ++ join " " (tok :: ts))%string.
      rewrite !replace3_app.
      rewrite (replace3_clean gap) by now apply unmatched_free.
      change (replace3 " ") with " ".
      set (Y := replace3 (join " " (tok :: ts))) in *.
      assert (M' : match_at (" " ++ Y) = Some (tok, r)).
      { change (" " ++ Y)%string with (String " " Y).
        now rewrite match_at_skip by reflexivity. }
      split.
      * rewrite (lex_gap gap (" " ++ Y) tok r K); auto.
        -- now rewrite Lr.
        -- apply unmatched_no_match; auto. reflexivity.
      * intros Ha. inversion Ha; subst. now apply starts_ok_headed.
    + split.
      * rewrite (lex_match _ _ _ M). now rewrite Lr.
      * intros _. eapply headed_match; eauto.
Qed.

(** X12: tokenizing is idempotent through joining: for every text, the
    tokens of the text joined by single blanks are tokenized into the same
    tokens, unmatched text and the whitespace inside it included. *)
Theorem tokenize_again (text : string) :
  _tokenize (join " " (_tokenize text)) = _tokenize text.
Proof.
  rewrite (tokenize_lex (join " " (_tokenize text))).
  change (_tokenize text) with (filter keep (re_split (replace3 text))).
  apply lex_join_pieces.
  - apply re_split_pieces.
  - apply split_loop_tail.
Qed.

(** ** Parentheses of an accepted token list *)

Lemma nesting_open d r : nesting d ("(" :: r) = nesting (S d) r.
Proof. reflexivity. Qed.

Lemma nesting_close d r : nesting (S d) (")" :: r) = nesting d r.
Proof. reflexivity. Qed.

Lemma nesting_name n d r :
  String.eqb n "(" = false -> String.eqb n ")" = false ->
  nesting d (n :: r) = nesting d r.
Proof. intros H1 H2. cbn [nesting]. now rewrite H1, H2. Qed.

Lemma letter_not_paren n :
  head_islower n = true \/ head_isupper n = true ->
  String.eqb n "(" = false /\ String.eqb n ")" = false.
Proof.
  intros H. split; apply String.eqb_neq; intros ->; cbn in H;
    destruct H; discriminate.
Qed.

Lemma lower_not_paren n :
  str_islower n = true ->
  String.eqb n "(" = false /\ String.eqb n ")" = false.
Proof.
  intros H. split; apply String.eqb_neq; intros ->; vm_compute in H;
    discriminate.
Qed.

Lemma term_not_paren t :
  is_term t = true -> names_tested t = true ->
  String.eqb (repr t) "(" = false /\ String.eqb (repr t) ")" = false.
Proof.
  destruct t; try discriminate; intros _; unfold names_tested;
    cbn [names_sat repr]; intros H; apply letter_not_paren; auto.
  unfold upper_only in H. apply andb_prop in H. tauto.
Qed.

Lemma nesting_terms ts :
  forallb is_term ts = true -> forallb names_tested ts = true ->
  forall d r, nesting d (sep_terms (map repr ts) ++ r) = nesting d r.
Proof.
  induction ts as [|t ts IH]; intros Ht Hn d r; [reflexivity|].
  cbn [forallb] in Ht, Hn. apply andb_prop in Ht, Hn.
  destruct Ht as [Ht Hts], Hn as [Hn Hns].
  destruct (term_not_paren t Ht Hn) as [H1 H2].
  destruct ts as [|t' ts].
  - cbn [map sep_terms app]. now apply nesting_name.
  - change (sep_terms (map repr (t :: t' :: ts)))
      with (repr t :: "," :: sep_terms (map repr (t' :: ts))).
    cbn [app]. rewrite nesting_name by auto.
    rewrite nesting_name by reflexivity. now apply IH.
Qed.

(** The tokens of a formula leave the nesting depth as it was. *)
Lemma tokens_of_nesting f :
  proper f = true -> names_tested f = true ->
  forall d r, nesting d (tokens_of f ++ r) = nesting d r.
Proof.
  unfold names_tested.
  induction f
    as [n|n|n ts|g IH|l IHl r IHr|l IHl r IHr|l IHl r IHr|v IHv g IH|v IHv g IH];
    try discriminate; cbn [proper names_sat tokens_of]; intros Hp Hn d rest.
  - apply andb_prop in Hn. destruct Hn as [Hu Hts].
    destruct (letter_not_paren n (or_intror Hu)) as [H1 H2].
    cbn [app]. rewrite nesting_name, nesting_open by auto.
    rewrite <- app_assoc, nesting_terms by auto. apply nesting_close.
  - cbn [app]. rewrite nesting_name by reflexivity. now apply IH.
  - apply andb_prop in Hp, Hn. destruct Hp as [Pl Pr], Hn as [Nl Nr].
    repeat first [rewrite <- app_assoc | progress cbn [app]].
    rewrite nesting_open, IHl by auto.
    rewrite nesting_name by reflexivity. rewrite IHr by auto.
    apply nesting_close.
  - apply andb_prop in Hp, Hn. destruct Hp as [Pl Pr], Hn as [Nl Nr].
    repeat first [rewrite <- app_assoc | progress cbn [app]].
    rewrite nesting_open, IHl by auto.
    rewrite nesting_name by reflexivity. rewrite IHr by auto.
    apply nesting_close.
  - apply andb_prop in Hp, Hn. destruct Hp as [Pl Pr], Hn as [Nl Nr].
    repeat first [rewrite <- app_assoc | progress cbn [app]].
    rewrite nesting_open, IHl by auto.
    rewrite nesting_name by reflexivity. rewrite IHr by auto.
    apply nesting_close.
  - apply andb_prop in Hp, Hn. destruct Hp as [Pv Pg], Hn as [Nv Ng].
    destruct v; try discriminate. cbn [bound_sat repr] in *.
    destruct (lower_not_paren _ Nv) as [H1 H2].
    cbn [app]. rewrite nesting_name by reflexivity.
    rewrite nesting_name by auto. rewrite nesting_name by reflexivity.
    now apply IH.
  - apply andb_prop in Hp, Hn. destruct Hp as [Pv Pg], Hn as [Nv Ng].
    destruct v; try discriminate. cbn [bound_sat repr] in *.
    destruct (lower_not_paren _ Nv) as [H1 H2].
    cbn [app]. rewrite nesting_name by reflexivity.
    rewrite nesting_name by auto. rewrite nesting_name by reflexivity.
    now apply IH.
Qed.

(** X13: the parentheses of an accepted token list are well nested: for
    every token list from which [parse] returns a formula, reading the
    tokens from left to right, no closing parenthesis comes without an
    opening one before it, and none is left open at the end. *)
Theorem accepted_well_nested (tokens : list string) (fuel : nat) (f : Formula)
    (p : nat) :
  parse tokens fuel 0 = (Ok f, p) -> nesting 0 tokens = Some 0.
Proof.
  intros H. pose proof (parse_reads tokens fuel f p H) as E.
  destruct (parse_ok_formula _ _ _ _ H) as (q & Hq).
  pose proof (parse_formula_proper _ _ _ _ _ Hq) as Hp.
  pose proof (parse_formula_tested _ _ _ _ _ Hq) as Hn.
  rewrite E, <- (app_nil_r (tokens_of f)).
  now rewrite tokens_of_nesting.
Qed.

Lemma accepted_well_nested_witness :
  nesting 0 (_tokenize "(~P(x) & exists y. Q())") = Some 0.
Proof.
  exact (accepted_well_nested (_tokenize "(~P(x) & exists y. Q())") 30
           (Conjunction (Negation (Predicate "P" [Variable_ "x"]))
                        (Exists (Variable_ "y") (Predicate "Q" [])))
           14 eq_refl).
Defined.

(** ** Messages that announce the end of the input *)


Section EndMessages.

Variable tokens : list string.







End EndMessages.




(** ** Text without a token *)

(** X15: on a text that is empty or consists of whitespace only, [parse]
    raises "Unexpected token for a formula: None" with the cursor at 0. *)
Theorem parse_blank (text : string) :
  str_forallb isspace text = true ->
  run_parse text
  = (Raise (mkParseError "Unexpected token for a formula: None"), 0).
Proof.
  intros B. unfold run_parse. now rewrite (blank_no_token text B).
Qed.

Lemma parse_blank_witness :
  run_parse "   "
  = (Raise (mkParseError "Unexpected token for a formula: None"), 0).
Proof. exact (parse_blank "   " eq_refl). Defined.

(** ** The key check of [script.py] *)

Lemma match_repeat_spec n : forall s rest,
  match_repeat n s = Some rest <->
  exists k, s = (k ++ rest)%string /\ String.length k = n
            /\ str_forallb alnum k = true.
Proof.
  induction n as [|n IH]; intros s rest; cbn [match_repeat].
  - split.
    + intros [= ->]. now exists "".
    + intros (k & -> & L & _). destruct k; [reflexivity|discriminate].
  - destruct s as [|c r].
    + split; [discriminate|]. intros (k & E & L & _).
      destruct k; discriminate.
    + destruct (alnum c) eqn:Ec.
      * rewrite IH. split.
        -- intros (k & -> & L & A). exists (String c k). cbn.
           now rewrite Ec, L, A.
        -- intros (k & E & L & A). destruct k as [|d k]; [discriminate|].
           cbn in E, L, A. injection E as -> ->. injection L as L.
           apply andb_prop in A. destruct A as [_ A]. now exists k.
      * split; [discriminate|]. intros (k & E & L & A).
        destruct k as [|d k]; [discriminate|].
        cbn in E, A. injection E as -> _. now rewrite Ec in A.
Qed.

Lemma at_dollar_spec s :
  at_dollar s = true <-> s = "" \/ s = String "010" "".
Proof.
  destruct s as [|c [|d s]]; cbn.
  - tauto.
  - split.
    + intros H. apply Ascii.eqb_eq in H. subst. now right.
    + intros [H|[= ->]]; [discriminate|reflexivity].
  - split; [discriminate|]. intros [H|H]; discriminate.
Qed.

(** X16: [is_api_key_valid_2717] accepts exactly the strings of thirty-two
    characters of a-z, A-Z and 0-9, and those strings with one line feed
    behind them: [$] also matches in front of a line feed that ends the
    input. *)
Theorem api_key_accepted (api_key : string) :
  is_api_key_valid_2717 api_key = true <->
  exists k, key_shape k
            /\ (api_key = k \/ api_key = (k ++ String "010" "")%string).
Proof.
  unfold is_api_key_valid_2717, key_shape. split.
  - destruct (match_repeat 32 api_key) as [rest|] eqn:E; [|discriminate].
    apply match_repeat_spec in E. destruct E as (k & -> & L & A).
    intros D. apply at_dollar_spec in D. exists k. split; auto.
    destruct D as [->| ->]; [left; apply sapp_nil_r|now right].
  - intros (k & [L A] & [->| ->]).
    + assert (E : match_repeat 32 k = Some "").
      { apply match_repeat_spec. exists k. now rewrite sapp_nil_r. }
      now rewrite E.
    + assert (E : match_repeat 32 (k ++ String "010" "")
                  = Some (String "010" "")).
      { apply match_repeat_spec. now exists k. }
      now rewrite E.
Qed.

Example api_key_line_feed :
  is_api_key_valid_2717 "0123456789abcdefghijABCDEFGHIJ01" = true
  /\ is_api_key_valid_2717
       ("0123456789abcdefghijABCDEFGHIJ01" ++ String (ascii_of_nat 10) "")
     = true
  /\ is_api_key_valid_2717
       ("0123456789abcdefghijABCDEFGHIJ01" ++ String (ascii_of_nat 13) "")
     = false
  /\ is_api_key_valid_2717 "0123456789abcdefghijABCDEFGHIJ0" = false
  /\ is_api_key_valid_2717 "0123456789abcdefghijABCDEFGHIJ-1" = false.
Proof. vm_compute. repeat split; reflexivity. Qed.
